(** * gedcom_reader: extraction of a pedigree from GEDCOM lines and pruning
      around a person of interest.

    A shallow embedding of [gedcom_reader.py] (functions [load_gedcom] and
    [find_persons_less_than_x_meioses_from_poi]) together with the properties
    of the natural-language specification that concern them.

    Python values are rendered as follows.
    - a [str] is a [string] (a sequence of bytes, as in Python 2);
    - a value that is either [None] or a [str] (a GEDCOM id, a regex group)
      is an [option string]; dictionary keys have this type because
      [gedcom_dict[id]] is written with [id = m.group(3)], which may be [None];
    - a [dict] is a [gmap]; the order of [dict.keys()] is arbitrary in
      Python 2 and is taken to be the order of [map_to_list];
    - a raised exception is the [Raise] constructor of [result]. *)

From Stdlib Require Import Ascii String ZArith.
From stdpp Require Import base option list gmap strings pretty fin_maps.

Local Open Scope string_scope.
Local Open Scope list_scope.
Local Open Scope nat_scope.

(* [naive_solver] clears hypotheses it has already consumed. *)
#[local] Set Warnings "-clear-no-such-hyp".

(** ** Exceptions *)

Abbreviation key := (option string).

Inductive exn : Type :=
| KeyError (k : key)            (* d[k] with k not a key of d *)
| ValueError (k : key)          (* l.index(k) with k not in l *)
| IndexError (i : nat)          (* l[i] with i out of range *)
| PoiCountError (found : nat)   (* len(poi_ids) != 1 *)
| ReadError (cause : exn).      (* 'Error while reading in GEDCOM file' *)

Inductive result (A : Type) : Type :=
| Ok (a : A)
| Raise (e : exn).
Arguments Ok {A} a.
Arguments Raise {A} e.

Global Instance result_bind : MBind result := λ A B f r,
  match r with
  | Ok a => f a
  | Raise e => Raise e
  end.

Definition is_ok {A} (r : result A) : bool :=
  match r with Ok _ => true | Raise _ => false end.

(** ** Character classes and the two regular expressions *)

Module Re.

(** [\d] without flags: the ten ASCII digits. *)
Definition is_digit (c : ascii) : bool :=
  let n := nat_of_ascii c in (48 <=? n)%nat && (n <=? 57)%nat.

(** [\w] without flags: [a-zA-Z0-9_]. *)
Definition is_word (c : ascii) : bool :=
  let n := nat_of_ascii c in
  is_digit c
  || ((65 <=? n)%nat && (n <=? 90)%nat)
  || ((97 <=? n)%nat && (n <=? 122)%nat)
  || (n =? 95)%nat.

(** The characters removed by [str.strip()]: space, \t, \n, \v, \f, \r. *)
Definition is_space (c : ascii) : bool :=
  let n := nat_of_ascii c in
  (n =? 32)%nat || ((9 <=? n)%nat && (n <=? 13)%nat).

(** [.] matches everything except a newline. *)
Definition is_dot (c : ascii) : bool :=
  negb (nat_of_ascii c =? 10)%nat.

(** Longest prefix made of characters of a class, and what follows it:
    the behaviour of a greedy [c*]. *)
Fixpoint span (p : ascii → bool) (s : string) : string * string :=
  match s with
  | EmptyString => ("", "")
  | String c r =>
      if p c then let '(a, b) := span p r in (String c a, b)
      else ("", s)
  end.

Fixpoint lstrip (s : string) : string :=
  match s with
  | EmptyString => ""
  | String c r => if is_space c then lstrip r else s
  end.

Definition strip (s : string) : string :=
  String.rev (lstrip (String.rev (lstrip s))).

(** [needle in hay] *)
Fixpoint contains (needle hay : string) : bool :=
  String.prefix needle hay
  || match hay with
     | EmptyString => false
     | String _ r => contains needle r
     end.

(** The tail [(\w+)( (.* ))?] of the line pattern.  [\w+] is greedy and
    the optional group is tried on what follows the longest tag; as the
    group is optional the first attempt always succeeds, so there is no
    backtracking into the tag. *)
Definition tag_data (id : key) (s : string)
  : option (key * string * option string) :=
  let '(tag, r) := span is_word s in
  if decide (tag = "") then None
  else match r with
       | String " " d => Some (id, tag, Some (fst (span is_dot d)))
       | _ => Some (id, tag, None)
       end.

(** [re.match(r"(\d+) (@(\w+)@ )?(\w+)( (.* ))?", s)], returning groups
    3, 4 and 6.  A shorter run of digits or of word characters can never
    be followed by the required delimiter, and when the text after the
    level starts with [@] the tag cannot start there, so the id group
    either matches or the whole match fails. *)
Definition match_line (s : string)
  : option (key * string * option string) :=
  let '(level, r) := span is_digit s in
  if decide (level = "") then None
  else match r with
       | String " " (String "@" r1) =>
           let '(id, r2) := span is_word r1 in
           if decide (id = "") then None
           else match r2 with
                | String "@" (String " " r3) => tag_data (Some id) r3
                | _ => None
                end
       | String " " r1 => tag_data None r1
       | _ => None
       end.

(** [re.match(r"@(\w+)@", data)], returning group 1. *)
Definition match_ref (data : string) : option string :=
  match data with
  | String "@" r =>
      let '(id, r') := span is_word r in
      if decide (id = "") then None
      else match r' with
           | String "@" _ => Some id
           | _ => None
           end
  | _ => None
  end.

End Re.

(** ** The extractor: [load_gedcom] *)

(** A value of [gedcom_dict]: the list [[name, sex, placeholder, poi]]. *)
Record entry : Type := Entry {
  name : string;
  sex : string;
  placeholder : bool;
  person_of_interest : bool
}.

Global Instance entry_eq_dec : EqDecision entry.
Proof. solve_decision. Defined.

(** The local variables of [load_gedcom]. *)
Record state : Type := State {
  mother : key;
  father : key;
  poi_ids : list key;
  placeholders_used : nat;
  adopted : list key;
  current_person : key;
  gedcom_dict : gmap key entry;
  trio_dict : gmap key (key * key)
}.

Definition init : state :=
  State None None [] 0 [] None ∅ ∅.

(** ['Placeholder%d' % placeholders_used] *)
Definition placeholder_name (n : nat) : string :=
  "Placeholder" +:+ pretty n.

(** Lines 117-121: a missing mother is replaced by a new placeholder. *)
Definition fill_mother (st : state) : state :=
  match mother st with
  | Some _ => st
  | None =>
      let n := S (placeholders_used st) in
      let m := placeholder_name n in
      State (Some m) (father st) (poi_ids st) n (adopted st)
        (current_person st)
        (<[Some m := Entry m "F" true false]> (gedcom_dict st))
        (<[Some m := (None, None)]> (trio_dict st))
  end.

(** Lines 122-126: the same for the father. *)
Definition fill_father (st : state) : state :=
  match father st with
  | Some _ => st
  | None =>
      let n := S (placeholders_used st) in
      let f := placeholder_name n in
      State (mother st) (Some f) (poi_ids st) n (adopted st)
        (current_person st)
        (<[Some f := Entry f "M" true false]> (gedcom_dict st))
        (<[Some f := (None, None)]> (trio_dict st))
  end.

(** Line 128: [trio_dict[id] = (mother, father)]. *)
Definition set_trio (id : string) (st : state) : state :=
  State (mother st) (father st) (poi_ids st) (placeholders_used st)
    (adopted st) (current_person st) (gedcom_dict st)
    (<[Some id := (mother st, father st)]> (trio_dict st)).

(** Lines 80-82. *)
Definition open_indi (id : key) (st : state) : state :=
  State (mother st) (father st) (poi_ids st) (placeholders_used st)
    (adopted st) id
    (<[id := Entry "" "U" false false]> (gedcom_dict st))
    (<[id := (None, None)]> (trio_dict st)).

(** Lines 85-86. *)
Definition open_fam (st : state) : state :=
  State None None (poi_ids st) (placeholders_used st)
    (adopted st) (current_person st) (gedcom_dict st) (trio_dict st).

Definition set_father (id : string) (st : state) : state :=
  State (mother st) (Some id) (poi_ids st) (placeholders_used st)
    (adopted st) (current_person st) (gedcom_dict st) (trio_dict st).

Definition set_mother (id : string) (st : state) : state :=
  State (Some id) (father st) (poi_ids st) (placeholders_used st)
    (adopted st) (current_person st) (gedcom_dict st) (trio_dict st).

(** Lines 131-136. *)
Definition set_name (poi_name data : string) (st : state) : result state :=
  match gedcom_dict st !! current_person st with
  | None => Raise (KeyError (current_person st))
  | Some e =>
      let hit := Re.contains poi_name data in
      let e' := Entry data (sex e) (placeholder e)
                  (if hit then true else person_of_interest e) in
      Ok (State (mother st) (father st)
            (if hit then poi_ids st ++ [current_person st] else poi_ids st)
            (placeholders_used st) (adopted st) (current_person st)
            (<[current_person st := e']> (gedcom_dict st)) (trio_dict st))
  end.

(** Lines 138-140. *)
Definition set_sex (data : string) (st : state) : result state :=
  match gedcom_dict st !! current_person st with
  | None => Raise (KeyError (current_person st))
  | Some e =>
      let e' := Entry (name e) data (placeholder e) (person_of_interest e) in
      Ok (State (mother st) (father st) (poi_ids st)
            (placeholders_used st) (adopted st) (current_person st)
            (<[current_person st := e']> (gedcom_dict st)) (trio_dict st))
  end.

(** Line 142. *)
Definition add_adopted (st : state) : state :=
  State (mother st) (father st) (poi_ids st) (placeholders_used st)
    (adopted st ++ [current_person st]) (current_person st)
    (gedcom_dict st) (trio_dict st).

(** The body of the [for line in input_file] loop, lines 66-142. *)
Definition process_line (poi_name : string) (st : state) (line : string)
  : result state :=
  match Re.match_line (Re.strip line) with
  | None => Ok st
  | Some (id, tag, None) =>
      if decide (tag = "INDI") then Ok (open_indi id st)
      else if decide (tag = "FAM") then Ok (open_fam st)
      else Ok st
  | Some (_, tag, Some data) =>
      match Re.match_ref data with
      | Some id =>
          if decide (tag = "HUSB") then Ok (set_father id st)
          else if decide (tag = "WIFE") then Ok (set_mother id st)
          else if decide (tag = "CHIL") then
            if decide (Some id ∈ adopted st) then Ok st
            else Ok (set_trio id (fill_father (fill_mother st)))
          else Ok st
      | None =>
          if decide (tag = "NAME" ∧ is_Some (current_person st)) then
            set_name poi_name data st
          else if decide (tag = "SEX") then set_sex data st
          else if decide (tag = "PEDI" ∧ data = "adopted") then
            Ok (add_adopted st)
          else Ok st
      end
  end.

(** The loop itself. *)
Fixpoint read_lines (poi_name : string) (st : state) (lines : list string)
  : result state :=
  match lines with
  | [] => Ok st
  | line :: rest =>
      st' ← process_line poi_name st line; read_lines poi_name st' rest
  end.

(** Lines 145-147 and 154. *)
Definition check_poi (st : state)
  : result (gmap key entry * gmap key (key * key) * key) :=
  match poi_ids st with
  | [p] => Ok (gedcom_dict st, trio_dict st, p)
  | l => Raise (PoiCountError (length l))
  end.

(** [load_gedcom]: every exception raised in the [try] block is caught and
    raised again as an error about reading the file. *)
Definition load_gedcom (input_file : list string) (poi_name : string)
  : result (gmap key entry * gmap key (key * key) * key) :=
  match st ← read_lines poi_name init input_file; check_poi st with
  | Ok r => Ok r
  | Raise e => Raise (ReadError e)
  end.

(** ** The pruner: [find_persons_less_than_x_meioses_from_poi] *)

(** [d[k]] *)
Definition getitem {V} (d : gmap key V) (k : key) : result V :=
  match d !! k with
  | Some v => Ok v
  | None => Raise (KeyError k)
  end.

Fixpoint index_of (k : key) (l : list key) : option nat :=
  match l with
  | [] => None
  | y :: r => if decide (y = k) then Some 0 else S <$> index_of k r
  end.

(** [l.index(k)] *)
Definition index (l : list key) (k : key) : result nat :=
  match index_of k l with
  | Some i => Ok i
  | None => Raise (ValueError k)
  end.

(** Lines 164-171: the coordinate lists of the adjacency matrix.  [i] is the
    counter of [enumerate] and [children] what remains of [gedcom_ids]. *)
Fixpoint adjacency (trio_dict : gmap key (key * key)) (gedcom_ids : list key)
    (i : nat) (children : list key) (rows cols : list nat)
  : result (list nat * list nat) :=
  match children with
  | [] => Ok (rows, cols)
  | child :: rest =>
      '(mother, father) ← getitem trio_dict child;
      match mother with
      | None => adjacency trio_dict gedcom_ids (S i) rest rows cols
      | Some _ =>
          mother ← index gedcom_ids mother;
          father ← index gedcom_ids father;
          adjacency trio_dict gedcom_ids (S i) rest
            (rows ++ [i; i; mother; father])
            (cols ++ [mother; father; i; i])
      end
  end.

(** A distance as [bellman_ford] reports it: a number of edges, or
    infinity ([None]) for a vertex that cannot be reached. *)
Abbreviation dist := (option nat).

(** *** The library call [bellman_ford(adj_matrix, unweighted=True, indices=[poi_index])[0]]

    The routine sets the distance of the source to 0 and of every other vertex
    to infinity, then relaxes every stored edge, in place, [n - 1] times; with
    [unweighted=True] every stored entry counts as an edge of length one, so
    that the closing test for cycles of negative length never raises.  The
    order in which the edges of one round are visited does not change the
    outcome (see [bellman_ford_shortest] below). *)
Definition relax_edge (d : list dist) (e : nat * nat) : list dist :=
  match d !! e.1 with
  | Some (Some d1) =>
      match d !! e.2 with
      | Some (Some d2) => if (S d1 <? d2)%nat then <[e.2 := Some (S d1)]> d else d
      | Some None => <[e.2 := Some (S d1)]> d
      | None => d
      end
  | _ => d
  end.

Definition relax_round (edges : list (nat * nat)) (d : list dist) : list dist :=
  foldl relax_edge d edges.

Definition bellman_ford (n : nat) (rows cols : list nat) (source : nat)
  : list dist :=
  Nat.iter (n - 1) (relax_round (zip rows cols))
    (<[source := Some 0%nat]> (replicate n None)).

(** [meioses[i] < x] *)
Definition closer_than (x : Z) (d : dist) : bool :=
  match d with
  | Some k => bool_decide (Z.of_nat k < x)%Z
  | None => false
  end.

(** Lines 179-182. *)
Fixpoint ids_to_keep (meioses : list dist) (x : Z) (i : nat)
    (gedcom_ids : list key) : result (list key) :=
  match gedcom_ids with
  | [] => Ok []
  | gedcom_id :: rest =>
      match meioses !! i with
      | Some d =>
          keep ← ids_to_keep meioses x (S i) rest;
          Ok (if closer_than x d then gedcom_id :: keep else keep)
      | None => Raise (IndexError i)
      end
  end.

(** The body of the loop of lines 186-203, on the pair
    [(new_gedcom_dict, new_trio_dict)]. *)
Definition prune_step (trio_dict : gmap key (key * key))
    (gedcom_dict : gmap key entry) (gedcom_ids_to_keep : list key)
    (acc : gmap key entry * gmap key (key * key)) (gedcom_id : key)
  : result (gmap key entry * gmap key (key * key)) :=
  let '(new_gedcom_dict, new_trio_dict) := acc in
  e ← getitem gedcom_dict gedcom_id;
  let new_gedcom_dict := <[gedcom_id := e]> new_gedcom_dict in
  '(mother, father) ← getitem trio_dict gedcom_id;
  if decide (mother ∈ gedcom_ids_to_keep) then
    if decide (father ∉ gedcom_ids_to_keep) then
      ef ← getitem gedcom_dict father;
      Ok (<[father := ef]> new_gedcom_dict,
          <[gedcom_id := (mother, father)]>
            (<[father := (None, None)]> new_trio_dict))
    else
      Ok (new_gedcom_dict, <[gedcom_id := (mother, father)]> new_trio_dict)
  else if decide (father ∈ gedcom_ids_to_keep) then
    em ← getitem gedcom_dict mother;
    Ok (<[mother := em]> new_gedcom_dict,
        <[gedcom_id := (mother, father)]>
          (<[mother := (None, None)]> new_trio_dict))
  else
    Ok (new_gedcom_dict, <[gedcom_id := (None, None)]> new_trio_dict).

Fixpoint prune_loop (trio_dict : gmap key (key * key))
    (gedcom_dict : gmap key entry) (gedcom_ids_to_keep : list key)
    (acc : gmap key entry * gmap key (key * key)) (todo : list key)
  : result (gmap key entry * gmap key (key * key)) :=
  match todo with
  | [] => Ok acc
  | gedcom_id :: rest =>
      acc' ← prune_step trio_dict gedcom_dict gedcom_ids_to_keep acc gedcom_id;
      prune_loop trio_dict gedcom_dict gedcom_ids_to_keep acc' rest
  end.

(** The intermediate values of the pruner that the properties speak about. *)
Definition keys_of (trio_dict : gmap key (key * key)) : list key :=
  (map_to_list trio_dict).*1.

Definition meioses_of (trio_dict : gmap key (key * key)) (poi : key)
  : result (list dist) :=
  let gedcom_ids := keys_of trio_dict in
  poi_index ← index gedcom_ids poi;
  '(rows, cols) ← adjacency trio_dict gedcom_ids 0 gedcom_ids [] [];
  Ok (bellman_ford (length gedcom_ids) rows cols poi_index).

Definition kept_ids (trio_dict : gmap key (key * key)) (x : Z) (poi : key)
  : result (list key) :=
  meioses ← meioses_of trio_dict poi;
  ids_to_keep meioses x 0 (keys_of trio_dict).

Definition find_persons_less_than_x_meioses_from_poi
    (trio_dict : gmap key (key * key)) (gedcom_dict : gmap key entry)
    (x : Z) (poi : key)
  : result (gmap key (key * key) * gmap key entry) :=
  gedcom_ids_to_keep ← kept_ids trio_dict x poi;
  '(new_gedcom_dict, new_trio_dict) ←
    prune_loop trio_dict gedcom_dict gedcom_ids_to_keep (∅, ∅)
      gedcom_ids_to_keep;
  Ok (new_trio_dict, new_gedcom_dict).

(** [main], lines 208-212. *)
Definition main (input_file : list string) (x : Z) (poi : string)
  : result (gmap key (key * key) * gmap key entry * key) :=
  '(gedcom_dict, trio_dict, poi_id) ← load_gedcom input_file poi;
  '(trio_dict, gedcom_dict) ←
    find_persons_less_than_x_meioses_from_poi trio_dict gedcom_dict x poi_id;
  Ok (trio_dict, gedcom_dict, poi_id).

(** ** Vocabulary of the properties *)

(** What the dispatch of [process_line] does with a line: which branch of
    lines 73-142 it reaches, with the values that branch uses. *)
Inductive line_kind : Type :=
| Ignored
| Indi (id : key)
| Fam
| Husb (id : string)
| Wife (id : string)
| Chil (id : string)
| Name (data : string)
| Sex (data : string)
| Adoption.

Definition classify (line : string) : line_kind :=
  match Re.match_line (Re.strip line) with
  | None => Ignored
  | Some (id, tag, None) =>
      if decide (tag = "INDI") then Indi id
      else if decide (tag = "FAM") then Fam
      else Ignored
  | Some (_, tag, Some data) =>
      match Re.match_ref data with
      | Some id =>
          if decide (tag = "HUSB") then Husb id
          else if decide (tag = "WIFE") then Wife id
          else if decide (tag = "CHIL") then Chil id
          else Ignored
      | None =>
          if decide (tag = "NAME") then Name data
          else if decide (tag = "SEX") then Sex data
          else if decide (tag = "PEDI" ∧ data = "adopted") then Adoption
          else Ignored
      end
  end.

(** The effect of each branch. *)
Definition exec (poi_name : string) (k : line_kind) (st : state)
  : result state :=
  match k with
  | Ignored => Ok st
  | Indi id => Ok (open_indi id st)
  | Fam => Ok (open_fam st)
  | Husb id => Ok (set_father id st)
  | Wife id => Ok (set_mother id st)
  | Chil id =>
      if decide (Some id ∈ adopted st) then Ok st
      else Ok (set_trio id (fill_father (fill_mother st)))
  | Name data =>
      if decide (is_Some (current_person st)) then set_name poi_name data st
      else Ok st
  | Sex data => set_sex data st
  | Adoption => Ok (add_adopted st)
  end.

(** A parentage entry has both parents or none. *)
Definition paired (p : key * key) : Prop :=
  (p.1 = None ∧ p.2 = None) ∨ (is_Some p.1 ∧ is_Some p.2).

Definition both_or_neither (trio_dict : gmap key (key * key)) : Prop :=
  map_Forall (λ _ p, paired p) trio_dict.

(** *** Lines of the input, seen from the dispatch *)

(** Ids declared by an [INDI] line and ids referred to by a [HUSB], [WIFE]
    or [CHIL] line. *)
Definition declared_ids (lines : list string) : list key :=
  omap (λ l, match classify l with Indi id => Some id | _ => None end) lines.

Definition referenced_ids (lines : list string) : list string :=
  omap (λ l, match classify l with
             | Husb id | Wife id | Chil id => Some id
             | _ => None
             end) lines.

Definition refs_declared (lines : list string) : Prop :=
  ∀ id, id ∈ referenced_ids lines → Some id ∈ declared_ids lines.

(** Every identifier that the two patterns read in a line: group 3 of the
    line pattern and group 1 of the reference pattern. *)
Definition ids_of_line (line : string) : list string :=
  match Re.match_line (Re.strip line) with
  | None => []
  | Some (id, _, data) =>
      option_list id ++ option_list (data ≫= Re.match_ref)
  end.

Definition file_ids (lines : list string) : list string :=
  lines ≫= ids_of_line.

(** The identifiers made by ['Placeholder%d'] up to the current counter. *)
Definition synthetic_ids (st : state) : list string :=
  placeholder_name <$> seq 1 (placeholders_used st).

(** A line whose tag is [SEX] and whose data group is present. *)
Definition sex_data_line (line : string) : Prop :=
  ∃ id data, Re.match_line (Re.strip line) = Some (id, "SEX", Some data).

(** The candidates that lines 130-135 record, in the order of the lines: one
    for every line that reaches the [NAME] branch (tag [NAME], data present
    and not a reference), is read while the current individual is not [None],
    and whose data contains the substring.  [cur] is the current individual:
    the identifier of the last [INDI] line, [None] before the first one and
    after an [INDI] line without identifier.  A [NAME] line read while [cur]
    is [None] is not counted, whatever its data. *)
Fixpoint name_hits (poi_name : string) (cur : key) (lines : list string)
  : list key :=
  match lines with
  | [] => []
  | l :: rest =>
      match classify l with
      | Indi id => name_hits poi_name id rest
      | Name data =>
          if decide (is_Some cur ∧ Re.contains poi_name data = true)
          then cur :: name_hits poi_name cur rest
          else name_hits poi_name cur rest
      | _ => name_hits poi_name cur rest
      end
  end.

(** The individuals that have a [NAME] line counted by [name_hits]. *)
Definition matching_individuals (poi_name : string) (lines : list string)
  : list key :=
  remove_dups (name_hits poi_name None lines).

(** A line that reaches the [SEX] branch (tag [SEX], data present and not a
    reference) comes before the first line that reaches the [INDI] branch
    (tag [INDI], no data). *)
Fixpoint sex_before_indi (lines : list string) : bool :=
  match lines with
  | [] => false
  | l :: rest =>
      match classify l with
      | Indi _ => false
      | Sex _ => true
      | _ => sex_before_indi rest
      end
  end.

(** What the flag of a registry entry says about its key. *)
Definition flag_sound (pre : list string) (st : state) : Prop :=
  ∀ k e, gedcom_dict st !! k = Some e →
    if placeholder e
    then ∃ n, 1 ≤ n ≤ placeholders_used st ∧ k = Some (placeholder_name n)
    else k ∈ declared_ids pre.

(** The current individual has an entry in the registry. *)
Definition registered (st : state) : Prop :=
  is_Some (gedcom_dict st !! current_person st).

Definition missing (k : key) : nat :=
  match k with None => 1 | Some _ => 0 end.

(** How many placeholders the loop synthesizes for the mother's role, and
    for the father's, while it reads [lines] from the state [st]: the number
    of [CHIL] lines, not skipped, that find the role empty. *)
Fixpoint mother_fills (poi_name : string) (st : state) (lines : list string)
  : nat :=
  match lines with
  | [] => 0
  | l :: rest =>
      match classify l with
      | Chil c => if decide (Some c ∈ adopted st) then 0 else missing (mother st)
      | _ => 0
      end
      + match process_line poi_name st l with
        | Ok st' => mother_fills poi_name st' rest
        | Raise _ => 0
        end
  end.

Fixpoint father_fills (poi_name : string) (st : state) (lines : list string)
  : nat :=
  match lines with
  | [] => 0
  | l :: rest =>
      match classify l with
      | Chil c => if decide (Some c ∈ adopted st) then 0 else missing (father st)
      | _ => 0
      end
      + match process_line poi_name st l with
        | Ok st' => father_fills poi_name st' rest
        | Raise _ => 0
        end
  end.

(** *** Distances and the kept set *)

(** [meioses[gedcom_ids.index(k)]]; infinite for what is not a key. *)
Definition distance (gedcom_ids : list key) (meioses : list dist) (k : key)
  : dist :=
  match index_of k gedcom_ids with
  | Some i => default None (meioses !! i)
  | None => None
  end.

(** The list that the loop of lines 179-182 builds when [meioses] has an
    entry at every position it reads (see [ids_to_keep_ok]). *)
Fixpoint kept_list (meioses : list dist) (x : Z) (i : nat)
    (gedcom_ids : list key) : list key :=
  match gedcom_ids with
  | [] => []
  | gedcom_id :: rest =>
      match meioses !! i with
      | Some d =>
          if closer_than x d then gedcom_id :: kept_list meioses x (S i) rest
          else kept_list meioses x (S i) rest
      | None => kept_list meioses x (S i) rest
      end
  end.

(** [walk E s p v]: from [s], following edges of [E], one visits the
    vertices of [p] in turn and ends in [v]. *)
Inductive walk (E : list (nat * nat)) (s : nat) : list nat → nat → Prop :=
| walk_nil : walk E s [] s
| walk_snoc p u v : walk E s p u → (u, v) ∈ E → walk E s (p ++ [v]) v.

(** Every finite entry is the length of some walk from the source. *)
Definition sound (E : list (nat * nat)) (s : nat) (D : list dist) : Prop :=
  ∀ v k, D !! v = Some (Some k) → ∃ p, walk E s p v ∧ length p = k.

(** [D'] has the same length as [D] and is nowhere above it. *)
Definition below (D D' : list dist) : Prop :=
  length D' = length D
  ∧ ∀ v k, D !! v = Some (Some k) → ∃ k', D' !! v = Some (Some k') ∧ k' ≤ k.

(** Every vertex that a walk of at most [j] edges reaches has an entry that
    is at most the length of the walk. *)
Definition upper (E : list (nat * nat)) (s n j : nat) (D : list dist) : Prop :=
  ∀ p v, walk E s p v → length p ≤ j → v < n →
         ∃ k, D !! v = Some (Some k) ∧ k ≤ length p.

(** [q] is one of the two parents that the table records for [c]; as at line
    166, an entry whose mother is [None] contributes nothing. *)
Definition parent_of (t : gmap key (key * key)) (c q : key) : Prop :=
  ∃ m f, t !! c = Some (m, f) ∧ is_Some m ∧ (q = m ∨ q = f).

(** One meiosis: a step from a child to a parent or from a parent to a
    child. *)
Definition linked (t : gmap key (key * key)) (a b : key) : Prop :=
  parent_of t a b ∨ parent_of t b a.

(** [meioses_path t a d b]: [d] meioses lead from [a] to [b]. *)
Inductive meioses_path (t : gmap key (key * key)) (a : key)
  : nat → key → Prop :=
| path_here : meioses_path t a 0 a
| path_step d b c :
    meioses_path t a d b → linked t b c → meioses_path t a (S d) c.

(** Fewer than [x] meioses lead from the person of interest to [k]. *)
Definition within (t : gmap key (key * key)) (poi : key) (x : Z) (k : key)
  : Prop :=
  ∃ d, meioses_path t poi d k ∧ (Z.of_nat d < x)%Z.

(** A parent that is not within [x] meioses of the person of interest, of a
    child that is, and whose other parent is. *)
Definition carried_parent (t : gmap key (key * key)) (poi : key) (x : Z)
    (k : key) : Prop :=
  ¬ within t poi x k
  ∧ (∃ v m f, within t poi x v ∧ t !! v = Some (m, f)
              ∧ ((within t poi x m ∧ k = f) ∨ (within t poi x f ∧ k = m))).

(** The parent that the loop of lines 186-203 carries over with the kept
    child [v], if any, and the parentage that it writes for [v]. *)
Definition lone_parent (trio_dict : gmap key (key * key)) (keep : list key)
    (v : key) : option key :=
  match trio_dict !! v with
  | Some (m, f) =>
      if decide (m ∈ keep) then
        if decide (f ∉ keep) then Some f else None
      else if decide (f ∈ keep) then Some m else None
  | None => None
  end.

Definition out_trio (trio_dict : gmap key (key * key)) (keep : list key)
    (v : key) : key * key :=
  match trio_dict !! v with
  | Some (m, f) =>
      if decide (m ∈ keep ∨ f ∈ keep) then (m, f) else (None, None)
  | None => (None, None)
  end.

(** The identifier [s] has an entry in the registry, or a family line read so
    far refers to it. *)
Definition known (pre : list string) (st : state) (s : string) : Prop :=
  is_Some (gedcom_dict st !! Some s) ∨ s ∈ referenced_ids pre.

(** How the two dictionaries and the family variables stand with respect to
    the lines read so far. *)
Record refs_inv (pre : list string) (st : state) : Prop := RefsInv {
  inv_declared : ∀ k, k ∈ declared_ids pre → is_Some (gedcom_dict st !! k);
  inv_registry : ∀ k, is_Some (gedcom_dict st !! k) → is_Some (trio_dict st !! k);
  inv_table : ∀ k, is_Some (trio_dict st !! k) →
      is_Some (gedcom_dict st !! k) ∨ ∃ c, k = Some c ∧ c ∈ referenced_ids pre;
  inv_parents : ∀ k m f s, trio_dict st !! k = Some (m, f) →
      m = Some s ∨ f = Some s → known pre st s;
  inv_family : ∀ s, mother st = Some s ∨ father st = Some s → known pre st s;
  inv_poi : ∀ k, k ∈ poi_ids st → is_Some (gedcom_dict st !! k)
}.

(** Every parent named in the table is a key of the table. *)
Definition closed_table (t : gmap key (key * key)) : Prop :=
  ∀ k m f s, t !! k = Some (m, f) → m = Some s ∨ f = Some s →
             is_Some (t !! Some s).

(** Every key of the table has an entry in the registry. *)
Definition covered_table (t : gmap key (key * key)) (g : gmap key entry)
  : Prop :=
  ∀ k, is_Some (t !! k) → is_Some (g !! k).

(** *** The sentences of the specification that the code does not satisfy,
        as they are written *)

(** A new placeholder stands in the output for the parent [p]: an
    identifier that the input registry does not have, flagged as a
    placeholder, of the sex of the role, without parents. *)
Definition new_placeholder (role_sex : string)
    (gedcom_dict new_gedcom_dict : gmap key entry)
    (new_trio_dict : gmap key (key * key)) (p : key) : Prop :=
  gedcom_dict !! p = None
  ∧ (∃ e, new_gedcom_dict !! p = Some e
          ∧ placeholder e = true ∧ sex e = role_sex)
  ∧ new_trio_dict !! p = Some (None, None).

Definition pruner_synthesizes_placeholders
    (trio_dict : gmap key (key * key)) (gedcom_dict : gmap key entry)
    (x : Z) (poi : key) : Prop :=
  ∀ nt ng,
    find_persons_less_than_x_meioses_from_poi trio_dict gedcom_dict x poi
      = Ok (nt, ng) →
    ∀ v m f, within trio_dict poi x v → trio_dict !! v = Some (m, f) →
      (within trio_dict poi x m → ¬ within trio_dict poi x f →
       ∃ p, new_placeholder "M" gedcom_dict ng nt p ∧ nt !! v = Some (m, p))
      ∧ (¬ within trio_dict poi x m → within trio_dict poi x f →
         ∃ p, new_placeholder "F" gedcom_dict ng nt p ∧ nt !! v = Some (p, f)).

Definition retention_is_exact
    (trio_dict : gmap key (key * key)) (gedcom_dict : gmap key entry)
    (x : Z) (poi : key) : Prop :=
  ∀ nt ng,
    find_persons_less_than_x_meioses_from_poi trio_dict gedcom_dict x poi
      = Ok (nt, ng) →
    ∀ k, is_Some (ng !! k) ↔ within trio_dict poi x k.

Definition fails_iff_not_one_match (lines : list string) (poi_name : string)
  : Prop :=
  (is_ok (load_gedcom lines poi_name) = false
   ↔ length (matching_individuals poi_name lines) ≠ 1)
  ∧ ∀ p, matching_individuals poi_name lines = [p] →
         ∃ g t, load_gedcom lines poi_name = Ok (g, t, p).

Definition placeholders_disjoint (lines : list string) (poi_name : string)
  : Prop :=
  ∀ st, read_lines poi_name init lines = Ok st →
        ∀ id, id ∈ synthetic_ids st → id ∉ file_ids lines.

Definition normalized_sexes : list string := ["M"; "F"; "U"; "Unknown"].

Definition sex_is_normalized (lines : list string) (poi_name : string)
  : Prop :=
  ∀ pre l post data st g t p,
    lines = pre ++ l :: post →
    classify l = Sex data →
    read_lines poi_name init pre = Ok st →
    load_gedcom lines poi_name = Ok (g, t, p) →
    ∃ e, g !! current_person st = Some e ∧ sex e ∈ normalized_sexes.

Definition pruner_always_returns (lines : list string) (poi_name : string)
  : Prop :=
  ∀ g t p, load_gedcom lines poi_name = Ok (g, t, p) →
    ∀ x, (1 ≤ x)%Z →
      is_ok (find_persons_less_than_x_meioses_from_poi t g x p) = true.

Definition sex_before_indi_fails (lines : list string) (poi_name : string)
  : Prop :=
  ∀ pre l post,
    lines = pre ++ l :: post →
    (∀ l', l' ∈ pre → ∀ id, classify l' ≠ Indi id) →
    sex_data_line l →
    is_ok (load_gedcom lines poi_name) = false.

(** *** Inputs used as examples *)

(** A mother, a father and their daughter. *)
Definition family_of_three : list string :=
  [ "0 @I1@ INDI"; "1 NAME Mary /Roe/"; "1 SEX F";
    "0 @I2@ INDI"; "1 NAME John /Doe/"; "1 SEX M";
    "0 @I3@ INDI"; "1 NAME Jane /Doe/"; "1 SEX F";
    "0 @F1@ FAM"; "1 HUSB @I2@"; "1 WIFE @I1@"; "1 CHIL @I3@" ].

(** What [load_gedcom] returns for [family_of_three] when the person of
    interest is the mother (see [load_family_of_three]). *)
Definition three_registry : gmap key entry :=
  {[ Some "I1" := Entry "Mary /Roe/" "F" false true;
     Some "I2" := Entry "John /Doe/" "M" false false;
     Some "I3" := Entry "Jane /Doe/" "F" false false ]}.

Definition three_table : gmap key (key * key) :=
  {[ Some "I1" := (None, None);
     Some "I2" := (None, None);
     Some "I3" := (Some "I1", Some "I2") ]}.

(** A family whose husband has no individual record. *)
Definition dangling_husband : list string :=
  [ "0 @I1@ INDI"; "1 NAME Jane /Doe/";
    "0 @F1@ FAM"; "1 HUSB @X@"; "1 CHIL @I1@" ].

(** An individual whose identifier has the shape of a placeholder name. *)
Definition placeholder_lookalike : list string :=
  [ "0 @Placeholder1@ INDI"; "1 NAME Jane /Doe/";
    "0 @F1@ FAM"; "1 CHIL @Placeholder1@" ].

Definition sex_spelled_out : list string :=
  [ "0 @I1@ INDI"; "1 NAME Jane /Doe/"; "1 SEX Male" ].

Definition sex_first : list string :=
  [ "1 SEX F"; "0 @I1@ INDI"; "1 NAME Jane /Doe/" ].

Definition sex_reference_first : list string :=
  [ "1 SEX @M@"; "0 @I1@ INDI"; "1 NAME Jane /Doe/" ].

(** Two children of unknown parents, and an adopted one. *)
Definition two_orphans : list string :=
  [ "0 @I1@ INDI"; "1 NAME Jane /Doe/";
    "0 @I2@ INDI"; "1 NAME Jack /Doe/";
    "0 @I3@ INDI"; "1 NAME Joan /Roe/"; "1 PEDI adopted";
    "0 @F1@ FAM"; "1 CHIL @I1@"; "1 CHIL @I2@"; "1 CHIL @I3@" ].

(** *** Vocabulary of the further properties *)

(** Every character of [s] belongs to the class [p]. *)
Fixpoint all_chars (p : ascii → bool) (s : string) : bool :=
  match s with
  | EmptyString => true
  | String c r => p c && all_chars p r
  end.

(** Every entry flagged as a placeholder is as lines 118-126 made it: under
    the name of a placeholder, named after its key, of the sex of its role,
    not the person of interest, and without parents. *)
Definition founders (st : state) : Prop :=
  ∀ k e, gedcom_dict st !! k = Some e → placeholder e = true →
    ∃ n, 1 ≤ n ≤ placeholders_used st
         ∧ k = Some (placeholder_name n)
         ∧ name e = placeholder_name n
         ∧ (sex e = "F" ∨ sex e = "M")
         ∧ person_of_interest e = false
         ∧ trio_dict st !! k = Some (None, None).

Record pristine (pre : list string) (st : state) : Prop := Pristine {
  pristine_entries : founders st;
  pristine_current : ∀ s, current_person st = Some s → s ∈ file_ids pre
}.

(** A child of unknown parents. *)
Definition one_orphan : list string :=
  [ "0 @I1@ INDI"; "1 NAME Jane /Doe/"; "0 @F1@ FAM"; "1 CHIL @I1@" ].

(** What [load_gedcom] returns for [one_orphan] (see [load_one_orphan]). *)
Definition orphan_registry : gmap key entry :=
  {[ Some "I1" := Entry "Jane /Doe/" "U" false true;
     Some "Placeholder1" := Entry "Placeholder1" "F" true false;
     Some "Placeholder2" := Entry "Placeholder2" "M" true false ]}.

Definition orphan_table : gmap key (key * key) :=
  {[ Some "I1" := (Some "Placeholder1", Some "Placeholder2");
     Some "Placeholder1" := (None, None);
     Some "Placeholder2" := (None, None) ]}.

(** An individual with two [NAME] lines. *)
Definition named_twice : list string :=
  [ "0 @I1@ INDI"; "1 NAME Jane /Doe/"; "1 NAME Jane /Roe/" ].

(** ** Properties of the extractor *)

Lemma process_line_exec poi_name st line :
  process_line poi_name st line = exec poi_name (classify line) st.
Proof.
  unfold process_line, classify.
  destruct (Re.match_line (Re.strip line)) as [[[id tag] [data|]]|]; simpl;
    [destruct (Re.match_ref data) as [r|]|..]; simpl;
    repeat (case_decide; simpl); try done; exfalso; intuition congruence.
Qed.

Lemma read_lines_app poi_name st l1 l2 :
  read_lines poi_name st (l1 ++ l2)
  = st' ← read_lines poi_name st l1; read_lines poi_name st' l2.
Proof.
  revert st. induction l1 as [|l l1 IH]; intros st; simpl; [done|].
  destruct (process_line poi_name st l); simpl; auto.
Qed.

Lemma read_lines_cons_ok poi_name st l ls st' :
  read_lines poi_name st (l :: ls) = Ok st' →
  ∃ st1, exec poi_name (classify l) st = Ok st1
         ∧ read_lines poi_name st1 ls = Ok st'.
Proof.
  simpl. rewrite process_line_exec.
  destruct (exec _ _ _) as [st1|]; simpl; [eauto | done].
Qed.

Lemma read_lines_app_ok poi_name st l1 l2 st' :
  read_lines poi_name st (l1 ++ l2) = Ok st' →
  ∃ st1, read_lines poi_name st l1 = Ok st1
         ∧ read_lines poi_name st1 l2 = Ok st'.
Proof.
  rewrite read_lines_app.
  destruct (read_lines _ _ l1) as [st1|]; simpl; [eauto | done].
Qed.

(** A property kept by every branch is kept by the loop. *)
Lemma read_lines_ind (P : state → Prop) poi_name :
  (∀ k st st', P st → exec poi_name k st = Ok st' → P st') →
  ∀ lines st st', P st → read_lines poi_name st lines = Ok st' → P st'.
Proof.
  intros Hstep lines.
  induction lines as [|l ls IH]; intros st st' HP Hrun.
  - simpl in Hrun. by simplify_eq.
  - apply read_lines_cons_ok in Hrun as (st1 & H1 & H2). eauto.
Qed.

(** *** The branches, one by one *)

Lemma fill_mother_Some st : is_Some (mother (fill_mother st)).
Proof. unfold fill_mother. destruct (mother st) eqn:E; simpl; eauto. Qed.

Lemma fill_father_Some st : is_Some (father (fill_father st)).
Proof. unfold fill_father. destruct (father st) eqn:E; simpl; eauto. Qed.

Lemma fill_father_mother st : mother (fill_father st) = mother st.
Proof. unfold fill_father. by destruct (father st). Qed.

Lemma fill_mother_father st : father (fill_mother st) = father st.
Proof. unfold fill_mother. by destruct (mother st). Qed.

Lemma fill_mother_id st : is_Some (mother st) → fill_mother st = st.
Proof. intros [m Hm]. unfold fill_mother. by rewrite Hm. Qed.

Lemma fill_father_id st : is_Some (father st) → fill_father st = st.
Proof. intros [f Hf]. unfold fill_father. by rewrite Hf. Qed.

Lemma fill_mother_paired st :
  both_or_neither (trio_dict st) → both_or_neither (trio_dict (fill_mother st)).
Proof.
  intros H. unfold fill_mother. destruct (mother st); simpl; [done|].
  apply map_Forall_insert_2; [by left | done].
Qed.

Lemma fill_father_paired st :
  both_or_neither (trio_dict st) → both_or_neither (trio_dict (fill_father st)).
Proof.
  intros H. unfold fill_father. destruct (father st); simpl; [done|].
  apply map_Forall_insert_2; [by left | done].
Qed.

Lemma exec_paired poi_name k st st' :
  both_or_neither (trio_dict st) →
  exec poi_name k st = Ok st' →
  both_or_neither (trio_dict st').
Proof.
  intros H He. destruct k; simpl in He.
  - by simplify_eq.
  - simplify_eq. simpl. apply map_Forall_insert_2; [by left | done].
  - by simplify_eq.
  - by simplify_eq.
  - by simplify_eq.
  - case_decide; simplify_eq; [done|]. simpl.
    apply map_Forall_insert_2.
    + right. simpl. split.
      * rewrite fill_father_mother. apply fill_mother_Some.
      * apply fill_father_Some.
    + by apply fill_father_paired, fill_mother_paired.
  - case_decide; [|by simplify_eq].
    unfold set_name in He. destruct (gedcom_dict st !! _); by simplify_eq.
  - unfold set_sex in He. destruct (gedcom_dict st !! _); by simplify_eq.
  - by simplify_eq.
Qed.

Lemma read_lines_paired poi_name lines st :
  read_lines poi_name init lines = Ok st → both_or_neither (trio_dict st).
Proof.
  apply (read_lines_ind (λ st, both_or_neither (trio_dict st)) poi_name).
  - intros k s s'. apply exec_paired.
  - apply map_Forall_empty.
Qed.

(** What [load_gedcom] returns is the state at the end of the loop. *)
Lemma load_gedcom_ok lines poi_name g t p :
  load_gedcom lines poi_name = Ok (g, t, p) ↔
  ∃ st, read_lines poi_name init lines = Ok st
        ∧ poi_ids st = [p] ∧ gedcom_dict st = g ∧ trio_dict st = t.
Proof.
  unfold load_gedcom.
  destruct (read_lines poi_name init lines) as [st|e]; simpl.
  - unfold check_poi. destruct (poi_ids st) as [|q [|q' l]] eqn:E; simpl.
    + split; [done|]. intros (? & ? & ? & ? & ?). simplify_eq. congruence.
    + split.
      * intros ?; simplify_eq. eauto.
      * intros (? & ? & ? & ? & ?). simplify_eq. congruence.
    + split; [done|]. intros (? & ? & ? & ? & ?). simplify_eq. congruence.
  - split; [done|]. intros (? & ? & ?). done.
Qed.

(** *** A [SEX] line stores its data as it is *)

(** C7 (amended): a line that reaches the [SEX] branch, read while the current
    individual has an entry, replaces the sex of that entry by the DATA of the
    line, character for character; the other fields stay. *)
Theorem sex_stored_verbatim poi_name st l data e :
  classify l = Sex data →
  gedcom_dict st !! current_person st = Some e →
  ∃ st', process_line poi_name st l = Ok st'
         ∧ current_person st' = current_person st
         ∧ gedcom_dict st' !! current_person st
           = Some (Entry (name e) data (placeholder e) (person_of_interest e)).
Proof.
  intros Hl He. rewrite process_line_exec, Hl. simpl. unfold set_sex.
  rewrite He. eexists. split; [done|]. simpl. split; [done|].
  apply lookup_insert_eq.
Qed.

Lemma sex_stored_verbatim_witness :
  ∃ st', process_line "Jane" (open_indi (Some "I1") init) "1 SEX Male" = Ok st'
         ∧ current_person st' = Some "I1"
         ∧ gedcom_dict st' !! Some "I1" = Some (Entry "" "Male" false false).
Proof.
  apply (sex_stored_verbatim "Jane" (open_indi (Some "I1") init)
           "1 SEX Male" "Male" (Entry "" "U" false false)).
  - vm_compute. reflexivity.
  - vm_compute. reflexivity.
Defined.

(** C7 as written fails: the sex of I1 after extraction is the string Male. *)
Lemma sex_is_not_normalized : ¬ sex_is_normalized sex_spelled_out "Jane".
Proof.
  intros H.
  destruct (H [ "0 @I1@ INDI"; "1 NAME Jane /Doe/" ] "1 SEX Male" [] "Male"
              (State None None [Some "I1"] 0 [] (Some "I1")
                 {[ Some "I1" := Entry "Jane /Doe/" "U" false true ]}
                 {[ Some "I1" := (None, None) ]})
              {[ Some "I1" := Entry "Jane /Doe/" "Male" false true ]}
              {[ Some "I1" := (None, None) ]}
              (Some "I1"))
    as (e & He & Hs).
  - reflexivity.
  - vm_compute. reflexivity.
  - vm_compute. reflexivity.
  - vm_compute. reflexivity.
  - simpl in He. rewrite lookup_singleton_eq in He. simplify_eq.
    simpl in Hs. unfold normalized_sexes in Hs.
    repeat (apply elem_of_cons in Hs as [Hs|Hs]; [discriminate|]).
    by apply elem_of_nil in Hs.
Qed.

(** *** Before the first [INDI] line *)

(** As long as no [INDI] line has been read there is no current individual
    and [None] is not a key of the registry, so the loop either goes on in
    that condition or stops on the lookup of a [SEX] line. *)
Lemma read_lines_no_indi poi_name pre st :
  (∀ l, l ∈ pre → ∀ id, classify l ≠ Indi id) →
  current_person st = None →
  gedcom_dict st !! None = None →
  match read_lines poi_name st pre with
  | Ok st' => current_person st' = None ∧ gedcom_dict st' !! None = None
  | Raise e => e = KeyError None
  end.
Proof.
  revert st. induction pre as [|l pre IH]; intros st Hpre Hc Hg; simpl.
  { done. }
  assert (Hl : ∀ id, classify l ≠ Indi id) by (apply Hpre; left).
  assert (Hrest : ∀ l', l' ∈ pre → ∀ id, classify l' ≠ Indi id)
    by (intros; apply Hpre; by right).
  rewrite process_line_exec.
  destruct (classify l) as [|id| |id|id|id|data|data|] eqn:Hk; simpl;
    try (apply IH; by auto).
  - by destruct (Hl id).
  - case_decide; [by apply IH|].
    apply IH; [done|..]; simpl.
    + unfold fill_father, fill_mother.
      destruct (mother st), (father st); simpl; done.
    + unfold fill_father, fill_mother.
      destruct (mother st), (father st); simpl;
        rewrite ?lookup_insert_ne by done; done.
  - case_decide as Hs; [|by apply IH].
    rewrite Hc in Hs. by destruct Hs.
  - unfold set_sex. rewrite Hc, Hg. simpl. done.
Qed.

(** C9 (amended): when no [INDI] line comes before it, a line that reaches the
    [SEX] branch (tag SEX, DATA present and not of the shape of a reference)
    makes the whole extraction raise, whatever follows; a line that reaches
    the [NAME] branch in the same place leaves the state as it is. *)
Theorem sex_before_first_indi poi_name pre l post :
  (∀ l', l' ∈ pre → ∀ id, classify l' ≠ Indi id) →
  (∀ data, classify l = Sex data →
     load_gedcom (pre ++ l :: post) poi_name = Raise (ReadError (KeyError None)))
  ∧ (∀ data st, classify l = Name data →
       read_lines poi_name init pre = Ok st →
       process_line poi_name st l = Ok st).
Proof.
  intros Hpre.
  pose proof (read_lines_no_indi poi_name pre init Hpre eq_refl
                (lookup_empty _)) as H.
  split.
  - intros data Hl. unfold load_gedcom. rewrite read_lines_app.
    destruct (read_lines poi_name init pre) as [st|e]; simpl.
    + destruct H as [Hc Hg]. rewrite process_line_exec, Hl. simpl.
      unfold set_sex. rewrite Hc, Hg. done.
    + by rewrite H.
  - intros data st Hl Hst. rewrite Hst in H. destruct H as [Hc Hg].
    rewrite process_line_exec, Hl. simpl.
    case_decide as Hs; [|done]. rewrite Hc in Hs. by destruct Hs.
Qed.

Lemma sex_before_first_indi_witness :
  load_gedcom [ "0 @F1@ FAM"; "1 SEX F"; "0 @I1@ INDI"; "1 NAME Jane" ] "Jane"
  = Raise (ReadError (KeyError None)).
Proof.
  refine (proj1 (sex_before_first_indi "Jane" [ "0 @F1@ FAM" ] "1 SEX F"
                   [ "0 @I1@ INDI"; "1 NAME Jane" ] _) "F" _).
  - intros l' Hl' id. apply list_elem_of_singleton in Hl'. subst l'.
    vm_compute. discriminate.
  - vm_compute. reflexivity.
Defined.

(** C9 as written fails: a [SEX] line whose DATA is a reference is taken by
    the branch of the family references, which ignores it. *)
Lemma sex_reference_does_not_fail :
  ¬ sex_before_indi_fails sex_reference_first "Jane".
Proof.
  intros H.
  specialize (H [] "1 SEX @M@" [ "0 @I1@ INDI"; "1 NAME Jane /Doe/" ]
                eq_refl).
  assert (is_ok (load_gedcom sex_reference_first "Jane") = false) as Hf.
  { apply H.
    - intros l' Hl'. by apply elem_of_nil in Hl'.
    - exists None, "@M@". vm_compute. reflexivity. }
  vm_compute in Hf. discriminate.
Qed.

(** *** Placeholders within one family record *)

Lemma exec_chil poi_name c st :
  Some c ∉ adopted st →
  exec poi_name (Chil c) st = Ok (set_trio c (fill_father (fill_mother st))).
Proof. intros H. simpl. by rewrite decide_False. Qed.

Lemma fill_used st :
  placeholders_used (fill_father (fill_mother st))
  = placeholders_used st + missing (mother st) + missing (father st).
Proof.
  unfold fill_father, fill_mother.
  destruct (mother st), (father st); simpl; lia.
Qed.

Lemma missing_le_1 k : missing k ≤ 1.
Proof. destruct k; simpl; lia. Qed.

Lemma missing_0 k : missing k = 0 ↔ is_Some k.
Proof.
  destruct k; simpl; split; eauto; try lia. intros [? ?]. done.
Qed.

(** The counter never goes down, and what it gains is paid by a role that was
    empty and is not any more. *)
Lemma exec_potential poi_name k st st' :
  k ≠ Fam →
  exec poi_name k st = Ok st' →
  placeholders_used st ≤ placeholders_used st'
  ∧ placeholders_used st' + missing (mother st') + missing (father st')
    ≤ placeholders_used st + missing (mother st) + missing (father st)
  ∧ missing (mother st') ≤ missing (mother st)
  ∧ missing (father st') ≤ missing (father st).
Proof.
  intros Hk He. destruct k; simpl in He; try done.
  - simplify_eq. lia.
  - simplify_eq. simpl. lia.
  - simplify_eq. simpl. destruct (father st); simpl; lia.
  - simplify_eq. simpl. destruct (mother st); simpl; lia.
  - case_decide; simplify_eq; [lia|].
    change (placeholders_used (set_trio id ?s)) with (placeholders_used s).
    change (mother (set_trio id ?s)) with (mother s).
    change (father (set_trio id ?s)) with (father s).
    rewrite fill_used, fill_father_mother.
    pose proof (fill_mother_Some st) as Hms.
    pose proof (fill_father_Some (fill_mother st)) as Hfs.
    apply missing_0 in Hms, Hfs. lia.
  - case_decide; [|simplify_eq; lia].
    unfold set_name in He.
    destruct (gedcom_dict st !! _); simplify_eq. simpl. lia.
  - unfold set_sex in He.
    destruct (gedcom_dict st !! _); simplify_eq. simpl. lia.
  - simplify_eq. simpl. lia.
Qed.

Lemma read_lines_potential poi_name body st st' :
  (∀ l, l ∈ body → classify l ≠ Fam) →
  read_lines poi_name st body = Ok st' →
  placeholders_used st ≤ placeholders_used st'
  ∧ placeholders_used st' + missing (mother st') + missing (father st')
    ≤ placeholders_used st + missing (mother st) + missing (father st)
  ∧ missing (mother st') ≤ missing (mother st)
  ∧ missing (father st') ≤ missing (father st).
Proof.
  revert st. induction body as [|l body IH]; intros st Hb Hr.
  - simpl in Hr. simplify_eq. lia.
  - apply read_lines_cons_ok in Hr as (st1 & H1 & H2).
    apply exec_potential in H1; [|apply Hb; by left].
    apply IH in H2; [lia|]. intros; apply Hb. by right.
Qed.

Lemma exec_keeps_mother poi_name k st st' :
  k ≠ Fam → (∀ id, k ≠ Wife id) → is_Some (mother st) →
  exec poi_name k st = Ok st' → mother st' = mother st.
Proof.
  intros Hk Hw Hm He. destruct k; simpl in He; try done; try by simplify_eq.
  - by destruct (Hw id).
  - case_decide; simplify_eq; [done|]. simpl.
    by rewrite fill_father_mother, fill_mother_id.
  - case_decide; [|by simplify_eq].
    unfold set_name in He. destruct (gedcom_dict st !! _); by simplify_eq.
  - unfold set_sex in He. destruct (gedcom_dict st !! _); by simplify_eq.
Qed.

Lemma exec_keeps_father poi_name k st st' :
  k ≠ Fam → (∀ id, k ≠ Husb id) → is_Some (father st) →
  exec poi_name k st = Ok st' → father st' = father st.
Proof.
  intros Hk Hw Hm He. destruct k; simpl in He; try done; try by simplify_eq.
  - by destruct (Hw id).
  - case_decide; simplify_eq; [done|]. simpl.
    rewrite fill_father_id; [apply fill_mother_father|].
    by rewrite fill_mother_father.
  - case_decide; [|by simplify_eq].
    unfold set_name in He. destruct (gedcom_dict st !! _); by simplify_eq.
  - unfold set_sex in He. destruct (gedcom_dict st !! _); by simplify_eq.
Qed.

Lemma read_lines_keeps_mother poi_name body st st' :
  (∀ l, l ∈ body → classify l ≠ Fam) →
  (∀ l, l ∈ body → ∀ id, classify l ≠ Wife id) →
  is_Some (mother st) →
  read_lines poi_name st body = Ok st' → mother st' = mother st.
Proof.
  revert st. induction body as [|l body IH]; intros st Hb Hw Hm Hr.
  - simpl in Hr. by simplify_eq.
  - apply read_lines_cons_ok in Hr as (st1 & H1 & H2).
    apply exec_keeps_mother in H1;
      [|apply Hb; by left|apply Hw; by left|done].
    rewrite <- H1. apply IH; [..|done].
    + intros; apply Hb; by right.
    + intros; apply Hw; by right.
    + by rewrite H1.
Qed.

Lemma read_lines_keeps_father poi_name body st st' :
  (∀ l, l ∈ body → classify l ≠ Fam) →
  (∀ l, l ∈ body → ∀ id, classify l ≠ Husb id) →
  is_Some (father st) →
  read_lines poi_name st body = Ok st' → father st' = father st.
Proof.
  revert st. induction body as [|l body IH]; intros st Hb Hw Hm Hr.
  - simpl in Hr. by simplify_eq.
  - apply read_lines_cons_ok in Hr as (st1 & H1 & H2).
    apply exec_keeps_father in H1;
      [|apply Hb; by left|apply Hw; by left|done].
    rewrite <- H1. apply IH; [..|done].
    + intros; apply Hb; by right.
    + intros; apply Hw; by right.
    + by rewrite H1.
Qed.

(** Each role is filled at most once between two [FAM] lines, and not at all
    when the role is not empty to begin with. *)
Lemma fills_bounded poi_name body st :
  (∀ l, l ∈ body → classify l ≠ Fam) →
  mother_fills poi_name st body ≤ missing (mother st)
  ∧ father_fills poi_name st body ≤ missing (father st).
Proof.
  revert st. induction body as [|l body IH]; intros st Hb; simpl.
  { lia. }
  assert (Hl : classify l ≠ Fam) by (apply Hb; by left).
  assert (Hrest : ∀ l', l' ∈ body → classify l' ≠ Fam)
    by (intros; apply Hb; by right).
  rewrite process_line_exec.
  destruct (exec poi_name (classify l) st) as [st1|e] eqn:He.
  - destruct (IH st1 Hrest) as [IHm IHf].
    pose proof (exec_potential _ _ _ _ Hl He) as (_ & _ & Hm & Hf).
    destruct (classify l) as [| | | | |c| | |] eqn:Hk; try lia.
    simpl in He. case_decide; simplify_eq; [lia|].
    simpl in IHm, IHf.
    rewrite fill_father_mother in IHm.
    pose proof (fill_mother_Some st) as Hms.
    pose proof (fill_father_Some (fill_mother st)) as Hfs.
    apply missing_0 in Hms, Hfs. lia.
  - destruct (classify l); try case_decide; lia.
Qed.

(** The counter grows by what the two roles received. *)
Lemma fills_account poi_name body st st' :
  read_lines poi_name st body = Ok st' →
  placeholders_used st'
  = placeholders_used st + mother_fills poi_name st body
    + father_fills poi_name st body.
Proof.
  revert st. induction body as [|l body IH]; intros st Hr.
  { simpl in *. simplify_eq. lia. }
  simpl in Hr |- *. destruct (process_line poi_name st l) as [st1|] eqn:Hp;
    simpl in Hr; [|done].
  rewrite (IH _ Hr). rewrite process_line_exec in Hp.
  destruct (classify l); simpl in Hp; try (simplify_eq; simpl; lia).
  - case_decide; simplify_eq; [lia|].
    change (placeholders_used (set_trio id ?s)) with (placeholders_used s).
    rewrite fill_used. lia.
  - case_decide; [|simplify_eq; lia].
    unfold set_name in Hp.
    destruct (gedcom_dict st !! _); simplify_eq. simpl. lia.
  - unfold set_sex in Hp.
    destruct (gedcom_dict st !! _); simplify_eq. simpl. lia.
Qed.

Lemma fill_mother_used st :
  placeholders_used (fill_mother st)
  = placeholders_used st + missing (mother st).
Proof. unfold fill_mother. destruct (mother st); simpl; lia. Qed.

Lemma fill_mother_name st :
  mother st = None →
  mother (fill_mother st) = Some (placeholder_name (S (placeholders_used st))).
Proof. intros H. unfold fill_mother. by rewrite H. Qed.

Lemma fill_father_name st :
  father st = None →
  father (fill_father st) = Some (placeholder_name (S (placeholders_used st))).
Proof. intros H. unfold fill_father. by rewrite H. Qed.

Lemma chil_full poi_name c st :
  is_Some (mother st) → is_Some (father st) → Some c ∉ adopted st →
  exec poi_name (Chil c) st = Ok (set_trio c st).
Proof.
  intros Hm Hf Ha. rewrite exec_chil by done.
  by rewrite (fill_mother_id st Hm), (fill_father_id st Hf).
Qed.

(** C10: between two [FAM] lines each parental role receives at most one
    placeholder, and none if the role is already filled; the counter grows by
    exactly these.  The placeholder made at a [CHIL] line is written into the
    [mother] or [father] variable, so the [CHIL] lines that follow in the
    same family synthesize nothing and record the parents held by these
    variables, which are the same placeholders as long as no [WIFE] or [HUSB]
    line has replaced them. *)
Theorem one_placeholder_per_role poi_name st body :
  (∀ l, l ∈ body → classify l ≠ Fam) →
  (mother_fills poi_name st body ≤ 1
   ∧ father_fills poi_name st body ≤ 1
   ∧ (is_Some (mother st) → mother_fills poi_name st body = 0)
   ∧ (is_Some (father st) → father_fills poi_name st body = 0))
  ∧ (∀ st', read_lines poi_name st body = Ok st' →
       placeholders_used st'
       = placeholders_used st + mother_fills poi_name st body
         + father_fills poi_name st body)
  ∧ (∀ pre l c post st1,
       body = pre ++ l :: post →
       classify l = Chil c →
       read_lines poi_name st pre = Ok st1 →
       Some c ∉ adopted st1 →
       ∃ st2 m f,
         process_line poi_name st1 l = Ok st2
         ∧ mother st2 = Some m ∧ father st2 = Some f
         ∧ trio_dict st2 !! Some c = Some (Some m, Some f)
         ∧ (mother st1 = None → m = placeholder_name (S (placeholders_used st1)))
         ∧ (father st1 = None →
            f = placeholder_name
                  (S (placeholders_used st1 + missing (mother st1))))
         ∧ mother_fills poi_name st2 post = 0
         ∧ father_fills poi_name st2 post = 0
         ∧ ∀ mid l2 c2 rest st3,
             post = mid ++ l2 :: rest →
             classify l2 = Chil c2 →
             read_lines poi_name st2 mid = Ok st3 →
             Some c2 ∉ adopted st3 →
             ∃ st4,
               process_line poi_name st3 l2 = Ok st4
               ∧ placeholders_used st4 = placeholders_used st2
               ∧ trio_dict st4 !! Some c2 = Some (mother st3, father st3)
               ∧ ((∀ l', l' ∈ mid → ∀ id, classify l' ≠ Wife id) →
                  mother st3 = Some m)
               ∧ ((∀ l', l' ∈ mid → ∀ id, classify l' ≠ Husb id) →
                  father st3 = Some f)).
Proof.
  intros Hb. split; [|split].
  - destruct (fills_bounded poi_name body st Hb) as [Hm Hf].
    pose proof (missing_le_1 (mother st)).
    pose proof (missing_le_1 (father st)).
    repeat split; try lia.
    + intros Hs. apply missing_0 in Hs. lia.
    + intros Hs. apply missing_0 in Hs. lia.
  - apply fills_account.
  - intros pre l c post st1 -> Hl Hpre Ha.
    assert (Hpost : ∀ l', l' ∈ post → classify l' ≠ Fam).
    { intros l' Hl'. apply Hb. rewrite elem_of_app. right. by right. }
    pose proof (fill_mother_Some st1) as [m Hm].
    pose proof (fill_father_Some (fill_mother st1)) as [f Hf].
    exists (set_trio c (fill_father (fill_mother st1))), m, f.
    assert (Hm2 : mother (set_trio c (fill_father (fill_mother st1))) = Some m).
    { simpl. by rewrite fill_father_mother. }
    assert (Hf2 : father (set_trio c (fill_father (fill_mother st1))) = Some f)
      by done.
    split; [by rewrite process_line_exec, Hl, exec_chil|].
    split; [done|]. split; [done|].
    split.
    { simpl. rewrite lookup_insert_eq, fill_father_mother, Hm. by rewrite Hf. }
    split.
    { intros Hn. rewrite (fill_mother_name _ Hn) in Hm. by simplify_eq. }
    split.
    { intros Hn. rewrite <- fill_mother_used.
      rewrite fill_father_name in Hf by (by rewrite fill_mother_father).
      by simplify_eq. }
    destruct (fills_bounded poi_name post
                (set_trio c (fill_father (fill_mother st1))) Hpost)
      as [Hmb Hfb].
    rewrite Hm2, Hf2 in *. simpl in Hmb, Hfb.
    split; [lia|]. split; [lia|].
    intros mid l2 c2 rest st3 -> Hl2 Hmid Ha3.
    assert (Hmidb : ∀ l', l' ∈ mid → classify l' ≠ Fam).
    { intros l' Hl'. apply Hpost. rewrite elem_of_app. by left. }
    pose proof (read_lines_potential _ _ _ _ Hmidb Hmid)
      as (Hu1 & Hu2 & Hm3 & Hf3).
    rewrite Hm2, Hf2 in *. simpl in Hu1, Hu2, Hm3, Hf3.
    assert (is_Some (mother st3)) as Hms by (apply missing_0; lia).
    assert (is_Some (father st3)) as Hfs by (apply missing_0; lia).
    exists (set_trio c2 st3).
    split; [by rewrite process_line_exec, Hl2, chil_full|].
    split; [simpl; lia|].
    split; [simpl; by rewrite lookup_insert_eq|].
    split.
    + intros Hw. rewrite <- Hm2.
      eapply read_lines_keeps_mother; eauto.
    + intros Hh. rewrite <- Hf2.
      eapply read_lines_keeps_father; eauto.
Qed.

Lemma one_placeholder_per_role_witness :
  mother_fills "Jane" init [ "1 CHIL @I1@"; "1 CHIL @I2@" ] ≤ 1
  ∧ father_fills "Jane" init [ "1 CHIL @I1@"; "1 CHIL @I2@" ] ≤ 1
  ∧ (is_Some (mother init) →
     mother_fills "Jane" init [ "1 CHIL @I1@"; "1 CHIL @I2@" ] = 0)
  ∧ (is_Some (father init) →
     father_fills "Jane" init [ "1 CHIL @I1@"; "1 CHIL @I2@" ] = 0).
Proof.
  apply (one_placeholder_per_role "Jane" init
           [ "1 CHIL @I1@"; "1 CHIL @I2@" ]).
  intros l Hl.
  repeat (apply elem_of_cons in Hl as [->|Hl]; [vm_compute; discriminate|]).
  by apply elem_of_nil in Hl.
Defined.

(** *** Adopted children *)

Lemma fill_adopted st : adopted (fill_father (fill_mother st)) = adopted st.
Proof.
  unfold fill_father, fill_mother. by destruct (mother st), (father st).
Qed.

Lemma fill_current st :
  current_person (fill_father (fill_mother st)) = current_person st.
Proof.
  unfold fill_father, fill_mother. by destruct (mother st), (father st).
Qed.

Lemma exec_adopted_mono poi_name k st st' x :
  exec poi_name k st = Ok st' → x ∈ adopted st → x ∈ adopted st'.
Proof.
  intros He Hx. destruct k; simpl in He; try by simplify_eq.
  - case_decide; simplify_eq; [done|]. simpl. by rewrite fill_adopted.
  - case_decide; [|by simplify_eq].
    unfold set_name in He. destruct (gedcom_dict st !! _); by simplify_eq.
  - unfold set_sex in He. destruct (gedcom_dict st !! _); by simplify_eq.
  - simplify_eq. simpl. rewrite elem_of_app. by left.
Qed.

(** An entry without parents keeps being so: placeholders and [INDI] lines
    write [(None, None)], and only a [CHIL] line of that very child, not
    skipped, writes something else. *)
Lemma fill_orphan st k :
  trio_dict st !! k = Some (None, None) →
  trio_dict (fill_father (fill_mother st)) !! k = Some (None, None).
Proof.
  intros H. unfold fill_father, fill_mother.
  destruct (mother st), (father st); simpl; try done;
    repeat (rewrite lookup_insert; case_decide; [done|]); done.
Qed.

Lemma exec_orphan poi_name k st st' c :
  trio_dict st !! Some c = Some (None, None) →
  k ≠ Chil c ∨ Some c ∈ adopted st →
  exec poi_name k st = Ok st' →
  trio_dict st' !! Some c = Some (None, None).
Proof.
  intros Ht Hk He. destruct k; simpl in He; try by simplify_eq.
  - simplify_eq. simpl. rewrite lookup_insert. by case_decide.
  - case_decide as Ha; simplify_eq; [done|]. simpl.
    rewrite lookup_insert_ne; [by apply fill_orphan|].
    intros ?; simplify_eq. by destruct Hk.
  - case_decide; [|by simplify_eq].
    unfold set_name in He. destruct (gedcom_dict st !! _); by simplify_eq.
  - unfold set_sex in He. destruct (gedcom_dict st !! _); by simplify_eq.
Qed.

Lemma exec_keeps_current poi_name k st st' :
  (∀ id, k ≠ Indi id) →
  exec poi_name k st = Ok st' → current_person st' = current_person st.
Proof.
  intros Hk He. destruct k; simpl in He; try by simplify_eq.
  - by destruct (Hk id).
  - case_decide; simplify_eq; [done|]. simpl. apply fill_current.
  - case_decide; [|by simplify_eq].
    unfold set_name in He. destruct (gedcom_dict st !! _); by simplify_eq.
  - unfold set_sex in He. destruct (gedcom_dict st !! _); by simplify_eq.
Qed.

Lemma read_record_body poi_name body st st' c :
  (∀ l, l ∈ body → (∀ id, classify l ≠ Indi id) ∧ classify l ≠ Chil c) →
  current_person st = Some c →
  trio_dict st !! Some c = Some (None, None) →
  read_lines poi_name st body = Ok st' →
  current_person st' = Some c ∧ trio_dict st' !! Some c = Some (None, None).
Proof.
  revert st. induction body as [|l body IH]; intros st Hb Hc Ht Hr.
  - simpl in Hr. by simplify_eq.
  - apply read_lines_cons_ok in Hr as (st1 & H1 & H2).
    destruct (Hb l) as [Hi Hch]; [by left|].
    apply (IH st1); [..|done].
    + intros; apply Hb; by right.
    + by rewrite (exec_keeps_current _ _ _ _ Hi H1).
    + eapply exec_orphan; eauto.
Qed.

Lemma read_after_adoption poi_name post st st' c :
  Some c ∈ adopted st →
  trio_dict st !! Some c = Some (None, None) →
  read_lines poi_name st post = Ok st' →
  Some c ∈ adopted st' ∧ trio_dict st' !! Some c = Some (None, None).
Proof.
  revert st. induction post as [|l post IH]; intros st Ha Ht Hr.
  - simpl in Hr. by simplify_eq.
  - apply read_lines_cons_ok in Hr as (st1 & H1 & H2).
    apply (IH st1); [..|done].
    + eapply exec_adopted_mono; eauto.
    + eapply exec_orphan; eauto.
Qed.

(** C6: let the record of the individual [c] ([INDI] line followed by lines
    that open no other individual and are not [CHIL] lines of [c]) carry the
    adoption marker.  Then, wherever the families list [c] as a child, before
    or after that record, the parentage of [c] after extraction is the
    default [(None, None)], and every [CHIL] line of [c] read after the marker
    leaves the whole state, parentage table and placeholders included, as it
    was. *)
Theorem adopted_child_keeps_entry poi_name pre indi body pedi post c st :
  classify indi = Indi (Some c) →
  (∀ l, l ∈ body → (∀ id, classify l ≠ Indi id) ∧ classify l ≠ Chil c) →
  classify pedi = Adoption →
  read_lines poi_name init (pre ++ indi :: body ++ pedi :: post) = Ok st →
  trio_dict st !! Some c = Some (None, None)
  ∧ Some c ∈ adopted st
  ∧ ∀ q1 l q2 s,
      post = q1 ++ l :: q2 →
      classify l = Chil c →
      read_lines poi_name init (pre ++ indi :: body ++ pedi :: q1) = Ok s →
      process_line poi_name s l = Ok s.
Proof.
  intros Hi Hb Hp Hr.
  assert (Hmark : ∀ q s,
    read_lines poi_name init (pre ++ indi :: body ++ pedi :: q) = Ok s →
    Some c ∈ adopted s ∧ trio_dict s !! Some c = Some (None, None)).
  { intros q s Hs.
    apply read_lines_app_ok in Hs as (s0 & _ & Hs).
    apply read_lines_cons_ok in Hs as (s1 & H1 & Hs).
    rewrite Hi in H1. simpl in H1. simplify_eq.
    apply read_lines_app_ok in Hs as (s2 & H2 & Hs).
    apply read_record_body with (c := c) in H2 as [Hc Ht];
      [|done|done|simpl; apply lookup_insert_eq].
    apply read_lines_cons_ok in Hs as (s3 & H3 & Hs).
    rewrite Hp in H3. simpl in H3. simplify_eq.
    apply read_after_adoption with (c := c) in Hs; [done|..|done].
    simpl. rewrite Hc, elem_of_app, list_elem_of_singleton. by right. }
  destruct (Hmark post st Hr) as [Ha Ht].
  split; [done|]. split; [done|].
  intros q1 l q2 s -> Hl Hs.
  destruct (Hmark q1 s Hs) as [Has _].
  rewrite process_line_exec, Hl. simpl. by rewrite decide_True.
Qed.

Lemma adopted_child_keeps_entry_witness :
  ∃ st,
    read_lines "Jane" init two_orphans = Ok st
    ∧ trio_dict st !! Some "I3" = Some (None, None)
    ∧ Some "I3" ∈ adopted st.
Proof.
  destruct (read_lines "Jane" init two_orphans) as [st|e] eqn:Hr;
    [|vm_compute in Hr; discriminate].
  exists st. split; [done|].
  pose proof (adopted_child_keeps_entry "Jane"
    [ "0 @I1@ INDI"; "1 NAME Jane /Doe/"; "0 @I2@ INDI"; "1 NAME Jack /Doe/" ]
    "0 @I3@ INDI" [ "1 NAME Joan /Roe/" ] "1 PEDI adopted"
    [ "0 @F1@ FAM"; "1 CHIL @I1@"; "1 CHIL @I2@"; "1 CHIL @I3@" ]
    "I3" st) as H.
  destruct H as (H1 & H2 & _).
  - vm_compute. reflexivity.
  - intros l Hl. apply list_elem_of_singleton in Hl. subst l.
    split; [intros id|]; vm_compute; discriminate.
  - vm_compute. reflexivity.
  - exact Hr.
  - split; assumption.
Defined.

(** *** The person of interest *)

Lemma fill_registry_mono st k :
  is_Some (gedcom_dict st !! k) →
  is_Some (gedcom_dict (fill_father (fill_mother st)) !! k).
Proof.
  intros H. unfold fill_father, fill_mother.
  destruct (mother st), (father st); simpl; try done;
    repeat (rewrite lookup_insert; case_decide; [by eauto|]); done.
Qed.

(** Once an [INDI] line has been read the current individual has an entry,
    and then no line raises. *)
Lemma exec_registered poi_name k st :
  registered st →
  ∃ st', exec poi_name k st = Ok st' ∧ registered st'.
Proof.
  unfold registered. intros [e He]. destruct k; simpl; eauto.
  - eexists; split; [done|]. simpl. rewrite lookup_insert_eq. eauto.
  - case_decide; [by eauto|]. eexists; split; [done|]. simpl.
    rewrite fill_current. apply fill_registry_mono. eauto.
  - case_decide; [|by eauto]. unfold set_name. rewrite He.
    eexists; split; [done|]. simpl. rewrite lookup_insert_eq. eauto.
  - unfold set_sex. rewrite He.
    eexists; split; [done|]. simpl. rewrite lookup_insert_eq. eauto.
Qed.

Lemma read_lines_registered poi_name lines st :
  registered st → ∃ st', read_lines poi_name st lines = Ok st'.
Proof.
  revert st. induction lines as [|l lines IH]; intros st Hreg; simpl.
  - eauto.
  - rewrite process_line_exec.
    destruct (exec_registered poi_name (classify l) st Hreg)
      as (st1 & -> & Hreg1). simpl. by apply IH.
Qed.

(** The loop raises exactly when a [SEX] line comes before the first [INDI]
    line, and then with the failed lookup of [None]. *)
Lemma read_lines_raises poi_name lines st :
  current_person st = None →
  gedcom_dict st !! None = None →
  if sex_before_indi lines
  then read_lines poi_name st lines = Raise (KeyError None)
  else ∃ st', read_lines poi_name st lines = Ok st'.
Proof.
  revert st. induction lines as [|l lines IH]; intros st Hc Hg; simpl.
  { eauto. }
  rewrite process_line_exec.
  destruct (classify l) as [|id| |id|id|id|data|data|] eqn:Hk; simpl;
    try (apply IH; by auto).
  - apply read_lines_registered. unfold registered. simpl.
    rewrite lookup_insert_eq. eauto.
  - case_decide; [by apply IH|].
    apply IH; simpl.
    + by rewrite fill_current.
    + unfold fill_father, fill_mother.
      destruct (mother st), (father st); simpl;
        rewrite ?lookup_insert_ne by done; done.
  - case_decide as Hs; [|by apply IH].
    rewrite Hc in Hs. by destruct Hs.
  - unfold set_sex. rewrite Hc, Hg. done.
Qed.

(** The candidates are recorded line by line. *)
Lemma read_lines_poi_ids poi_name lines st st' :
  read_lines poi_name st lines = Ok st' →
  poi_ids st' = poi_ids st ++ name_hits poi_name (current_person st) lines.
Proof.
  revert st. induction lines as [|l lines IH]; intros st Hr.
  { simpl in *. simplify_eq. by rewrite app_nil_r. }
  apply read_lines_cons_ok in Hr as (st1 & H1 & H2).
  rewrite (IH _ H2). simpl.
  destruct (classify l) as [|id| |id|id|id|data|data|] eqn:Hk;
    simpl in H1; try by simplify_eq.
  - case_decide; simplify_eq; [done|]. simpl. rewrite fill_current.
    unfold fill_father, fill_mother.
    by destruct (mother st), (father st).
  - case_decide as Hs.
    + unfold set_name in H1.
      destruct (gedcom_dict st !! _); simplify_eq. simpl.
      destruct (Re.contains poi_name data) eqn:Hc.
      * rewrite decide_True by done. by rewrite <- app_assoc.
      * rewrite decide_False; [done|]. by intros [_ ?].
    + simplify_eq. rewrite decide_False; [done|]. by intros [? _].
  - unfold set_sex in H1. destruct (gedcom_dict st !! _); by simplify_eq.
Qed.

Lemma load_gedcom_hits lines poi_name g t p :
  load_gedcom lines poi_name = Ok (g, t, p) →
  sex_before_indi lines = false ∧ name_hits poi_name None lines = [p].
Proof.
  intros (st & Hr & Hp & _ & _)%load_gedcom_ok.
  split.
  - pose proof (read_lines_raises poi_name lines init eq_refl
                  (lookup_empty _)) as H.
    destruct (sex_before_indi lines); [congruence | done].
  - apply read_lines_poi_ids in Hr. simpl in Hr. congruence.
Qed.

(** C4 (amended).  A [NAME] line is counted when it reaches the [NAME] branch
    (tag [NAME], data present and not a reference), is read while the current
    individual (the identifier of the last [INDI] line) is not [None], and its
    data contains the substring; [name_hits] lists the current individuals of
    the counted lines.  Extraction succeeds if and only if no [SEX] line
    precedes the first [INDI] line and exactly one [NAME] line is counted; it
    then returns the current individual of that line, who is the only
    individual with a counted line.  It fails in every other case: when a
    [SEX] line precedes the first [INDI] line, with the failed lookup of
    [None]; when the number of counted lines is not one (none, or several,
    be they lines of several individuals or of the same one); in particular
    when the number of individuals with a counted line is not one. *)
Theorem poi_selection lines poi_name :
  (∀ g t p, load_gedcom lines poi_name = Ok (g, t, p) →
     sex_before_indi lines = false
     ∧ name_hits poi_name None lines = [p]
     ∧ matching_individuals poi_name lines = [p])
  ∧ (length (name_hits poi_name None lines) ≠ 1 →
     is_ok (load_gedcom lines poi_name) = false)
  ∧ (length (matching_individuals poi_name lines) ≠ 1 →
     is_ok (load_gedcom lines poi_name) = false)
  ∧ (sex_before_indi lines = true →
     load_gedcom lines poi_name = Raise (ReadError (KeyError None)))
  ∧ (∀ p, sex_before_indi lines = false →
       name_hits poi_name None lines = [p] →
       ∃ g t, load_gedcom lines poi_name = Ok (g, t, p)).
Proof.
  split; [|split; [|split; [|split]]].
  - intros g t p [Hs Hh]%load_gedcom_hits. split; [done|]. split; [done|].
    unfold matching_individuals. by rewrite Hh.
  - intros Hn.
    destruct (load_gedcom lines poi_name) as [[[g t] p]|e] eqn:Hl; [|done].
    apply load_gedcom_hits in Hl as [_ Hh]. by rewrite Hh in Hn.
  - intros Hn.
    destruct (load_gedcom lines poi_name) as [[[g t] p]|e] eqn:Hl; [|done].
    apply load_gedcom_hits in Hl as [_ Hh].
    unfold matching_individuals in Hn. by rewrite Hh in Hn.
  - intros Hs.
    pose proof (read_lines_raises poi_name lines init eq_refl
                  (lookup_empty _)) as H.
    rewrite Hs in H. unfold load_gedcom. by rewrite H.
  - intros p Hs Hh.
    pose proof (read_lines_raises poi_name lines init eq_refl
                  (lookup_empty _)) as H.
    rewrite Hs in H. destruct H as [st Hr].
    exists (gedcom_dict st), (trio_dict st).
    apply load_gedcom_ok. exists st. split; [done|].
    apply read_lines_poi_ids in Hr. simpl in Hr.
    by rewrite Hr, Hh.
Qed.

(** C4 as written fails: one individual matches, and the extraction raises
    all the same, on a [SEX] line that comes first. *)
Lemma one_match_yet_failure : ¬ fails_iff_not_one_match sex_first "Jane".
Proof.
  intros [H _].
  assert (is_ok (load_gedcom sex_first "Jane") = false) as Hf
    by (vm_compute; reflexivity).
  apply H in Hf. apply Hf. vm_compute. reflexivity.
Qed.

(** *** Identifiers of placeholders *)

(** Induction on the loop that remembers the lines already read. *)
Lemma read_lines_ind_pre (P : list string → state → Prop) poi_name st0 :
  P [] st0 →
  (∀ pre l st st',
     P pre st → exec poi_name (classify l) st = Ok st' → P (pre ++ [l]) st') →
  ∀ lines st, read_lines poi_name st0 lines = Ok st → P lines st.
Proof.
  intros H0 Hstep.
  assert (∀ lines pre st1 st,
            P pre st1 → read_lines poi_name st1 lines = Ok st →
            P (pre ++ lines) st) as Hgen.
  { induction lines as [|l lines IH]; intros pre st1 st HP Hr.
    - simpl in Hr. simplify_eq. by rewrite app_nil_r.
    - apply read_lines_cons_ok in Hr as (st2 & H1 & H2).
      rewrite (cons_middle l pre lines), app_assoc.
      eapply IH; [|done]. eauto. }
  intros lines st Hr. apply (Hgen lines [] st0 st H0 Hr).
Qed.

Lemma declared_ids_snoc pre l :
  declared_ids (pre ++ [l])
  = declared_ids pre
    ++ match classify l with Indi id => [id] | _ => [] end.
Proof.
  unfold declared_ids. rewrite omap_app. simpl.
  by destruct (classify l).
Qed.

Lemma referenced_ids_snoc pre l :
  referenced_ids (pre ++ [l])
  = referenced_ids pre
    ++ match classify l with
       | Husb id | Wife id | Chil id => [id]
       | _ => []
       end.
Proof.
  unfold referenced_ids. rewrite omap_app. simpl.
  by destruct (classify l).
Qed.

Lemma prefix_append s t : String.prefix s (s +:+ t) = true.
Proof.
  induction s as [|a s IH].
  - by destruct t.
  - change (String a s +:+ t) with (String a (s +:+ t)). simpl.
    destruct (ascii_dec a a); [apply IH | done].
Qed.

Lemma placeholder_name_prefix n :
  String.prefix "Placeholder" (placeholder_name n) = true.
Proof. apply prefix_append. Qed.

Lemma flag_sound_weaken pre l st k e :
  (if placeholder e
   then ∃ n, 1 ≤ n ≤ placeholders_used st ∧ k = Some (placeholder_name n)
   else k ∈ declared_ids pre) →
  ∀ u, placeholders_used st ≤ u →
  if placeholder e
  then ∃ n, 1 ≤ n ≤ u ∧ k = Some (placeholder_name n)
  else k ∈ declared_ids (pre ++ [l]).
Proof.
  intros H u Hu. destruct (placeholder e).
  - destruct H as (n & ? & ?). exists n. split; [lia | done].
  - rewrite declared_ids_snoc, elem_of_app. by left.
Qed.

Lemma read_lines_flag_sound poi_name lines st :
  read_lines poi_name init lines = Ok st → flag_sound lines st.
Proof.
  apply (read_lines_ind_pre flag_sound poi_name init).
  { intros k e Hk. cbn in Hk. by rewrite lookup_empty in Hk. }
  clear. intros pre l st st' HP He k e Hk.
  assert (Hold : ∀ k e u, gedcom_dict st !! k = Some e →
            placeholders_used st ≤ u →
            if placeholder e
            then ∃ n, 1 ≤ n ≤ u ∧ k = Some (placeholder_name n)
            else k ∈ declared_ids (pre ++ [l])).
  { intros k0 e0 u Hk0 Hu.
    apply (flag_sound_weaken pre l st k0 e0 (HP k0 e0 Hk0) u Hu). }
  destruct (classify l) as [|id| |id|id|id|data|data|] eqn:Hc;
    simpl in He.
  - simplify_eq. by apply Hold.
  - simplify_eq. simpl in Hk.
    rewrite lookup_insert in Hk. case_decide; simplify_eq.
    + simpl. rewrite declared_ids_snoc, Hc, elem_of_app,
        list_elem_of_singleton. by right.
    + by apply Hold.
  - simplify_eq. by apply Hold.
  - simplify_eq. by apply Hold.
  - simplify_eq. by apply Hold.
  - case_decide; simplify_eq; [by apply Hold|].
    change (gedcom_dict (set_trio id ?s)) with (gedcom_dict s) in Hk.
    change (placeholders_used (set_trio id ?s)) with (placeholders_used s).
    unfold fill_father, fill_mother in *.
    destruct (mother st) eqn:Em, (father st) eqn:Ef; simpl in *;
      rewrite ?Em, ?Ef in *; simpl in *;
      repeat (rewrite lookup_insert in Hk; case_decide; simplify_eq;
              [simpl; eexists; split; [|reflexivity]; lia|]);
      apply Hold; auto with lia.
  - case_decide; [|simplify_eq; by apply Hold].
    unfold set_name in He.
    destruct (gedcom_dict st !! current_person st) as [e0|] eqn:E0;
      simplify_eq. simpl in Hk |- *.
    rewrite lookup_insert in Hk. case_decide; simplify_eq.
    + simpl. by apply (Hold _ e0).
    + by apply Hold.
  - unfold set_sex in He.
    destruct (gedcom_dict st !! current_person st) as [e0|] eqn:E0;
      simplify_eq. simpl in Hk |- *.
    rewrite lookup_insert in Hk. case_decide; simplify_eq.
    + simpl. by apply (Hold _ e0).
    + by apply Hold.
  - simplify_eq. by apply Hold.
Qed.

(** C5 (amended): the identifier of every synthesized placeholder is the word
    Placeholder followed by the value of the counter, and a registry entry is
    flagged as a placeholder only under such an identifier; so, when no
    identifier read in the input begins with that word, no placeholder
    identifier equals a file-derived one. *)
Theorem placeholder_ids_apart poi_name lines st :
  read_lines poi_name init lines = Ok st →
  (∀ id, id ∈ file_ids lines → String.prefix "Placeholder" id = false) →
  (∀ id, id ∈ synthetic_ids st → id ∉ file_ids lines)
  ∧ (∀ k e, gedcom_dict st !! k = Some e → placeholder e = true →
       ∃ n, 1 ≤ n ≤ placeholders_used st
            ∧ k = Some (placeholder_name n)
            ∧ placeholder_name n ∉ file_ids lines).
Proof.
  intros Hr Hfile.
  assert (∀ n, placeholder_name n ∉ file_ids lines) as Hn.
  { intros n Hin. apply Hfile in Hin.
    by rewrite placeholder_name_prefix in Hin. }
  split.
  - intros id Hid. unfold synthetic_ids in Hid.
    apply list_elem_of_fmap in Hid as (n & -> & _). apply Hn.
  - intros k e Hk He.
    pose proof (read_lines_flag_sound _ _ _ Hr k e Hk) as H.
    rewrite He in H. destruct H as (n & ? & ?). exists n. auto.
Qed.

Lemma placeholder_ids_apart_witness :
  ∃ st,
    read_lines "Jane" init two_orphans = Ok st
    ∧ (∀ id, id ∈ synthetic_ids st → id ∉ file_ids two_orphans).
Proof.
  destruct (read_lines "Jane" init two_orphans) as [st|e] eqn:Hr;
    [|vm_compute in Hr; discriminate].
  exists st. split; [done|].
  apply (placeholder_ids_apart "Jane" two_orphans st Hr).
  intros id Hid.
  assert (file_ids two_orphans = [ "I1"; "I2"; "I3"; "F1"; "I1"; "I2"; "I3" ])
    as Hf by (vm_compute; reflexivity).
  rewrite Hf in Hid.
  repeat (apply elem_of_cons in Hid as [->|Hid]; [reflexivity|]).
  by apply elem_of_nil in Hid.
Defined.

(** C5 as written fails: the input declares an individual under the
    identifier that the first placeholder receives. *)
Lemma placeholder_id_collides :
  ¬ placeholders_disjoint placeholder_lookalike "Jane".
Proof.
  intros H.
  destruct (read_lines "Jane" init placeholder_lookalike) as [st|e] eqn:Hr;
    [|vm_compute in Hr; discriminate].
  apply (H st Hr "Placeholder1").
  - assert (synthetic_ids st = [ "Placeholder1"; "Placeholder2" ]) as ->.
    { vm_compute in Hr. simplify_eq. vm_compute. reflexivity. }
    by left.
  - assert (file_ids placeholder_lookalike
            = [ "Placeholder1"; "F1"; "Placeholder1" ]) as ->
      by (vm_compute; reflexivity).
    by left.
Qed.

(** ** Properties of the pruner *)

(** *** Keys, positions and the kept set *)

Lemma keys_of_NoDup (t : gmap key (key * key)) : NoDup (keys_of t).
Proof. apply NoDup_fst_map_to_list. Qed.

Lemma elem_of_keys_of (t : gmap key (key * key)) k :
  k ∈ keys_of t ↔ is_Some (t !! k).
Proof.
  unfold keys_of. rewrite list_elem_of_fmap. split.
  - intros ([k' v] & -> & H%elem_of_map_to_list). eauto.
  - intros [v Hv]. exists (k, v). split; [done|].
    by apply elem_of_map_to_list.
Qed.

Lemma index_of_Some k l i :
  index_of k l = Some i → l !! i = Some k.
Proof.
  revert i. induction l as [|y l IH]; intros i; simpl; [done|].
  case_decide; [intros; by simplify_eq|].
  destruct (index_of k l) as [j|]; simpl; [|done].
  intros; simplify_eq. simpl. by apply IH.
Qed.

Lemma index_of_None k l : index_of k l = None ↔ k ∉ l.
Proof.
  induction l as [|y l IH]; simpl.
  - split; [intros _; apply not_elem_of_nil | done].
  - rewrite not_elem_of_cons. case_decide.
    + split; [done | intros [? _]; congruence].
    + destruct (index_of k l); simpl.
      * split; [done|]. intros [_ Hn]. by apply IH in Hn.
      * split; [|done]. intros _. split; [congruence | by apply IH].
Qed.

Lemma index_of_elem k l : k ∈ l → ∃ i, index_of k l = Some i.
Proof.
  intros H. destruct (index_of k l) as [i|] eqn:E; [eauto|].
  by apply index_of_None in E.
Qed.

Lemma index_of_NoDup k l i :
  NoDup l → l !! i = Some k → index_of k l = Some i.
Proof.
  intros Hnd Hi.
  destruct (index_of_elem k l) as [j Hj].
  { by eapply list_elem_of_lookup_2. }
  apply index_of_Some in Hj as Hj'.
  by rewrite (NoDup_lookup l i j k Hnd Hi Hj').
Qed.

Lemma index_ok l k : k ∈ l → ∃ i, index l k = Ok i ∧ l !! i = Some k.
Proof.
  intros [i Hi]%index_of_elem. exists i. unfold index. rewrite Hi.
  split; [done|]. by apply index_of_Some.
Qed.

Lemma elem_of_kept_list ms x i ids k :
  k ∈ kept_list ms x i ids ↔
  ∃ j d, ids !! j = Some k ∧ ms !! (i + j) = Some d ∧ closer_than x d = true.
Proof.
  revert i. induction ids as [|y ids IH]; intros i; simpl.
  - split; [by intros ?%elem_of_nil|]. by intros (j & d & ? & _).
  - assert (Hshift : (∃ j d, ids !! j = Some k ∧ ms !! (S i + j) = Some d
                           ∧ closer_than x d = true)
                     → ∃ j d, (y :: ids) !! j = Some k ∧ ms !! (i + j) = Some d
                              ∧ closer_than x d = true).
    { intros (j & d & ? & ? & ?). exists (S j), d.
      rewrite <- Nat.add_succ_comm. done. }
    assert (Hunshift : ∀ j d, (y :: ids) !! j = Some k →
              ms !! (i + j) = Some d → closer_than x d = true →
              (j = 0 ∧ y = k ∧ ms !! i = Some d)
              ∨ ∃ j' d, ids !! j' = Some k ∧ ms !! (S i + j') = Some d
                        ∧ closer_than x d = true).
    { intros [|j] d Hj Hd Hc; simpl in Hj.
      - left. rewrite Nat.add_0_r in Hd. by simplify_eq.
      - right. exists j, d. rewrite <- Nat.add_succ_comm in Hd. done. }
    destruct (ms !! i) as [d0|] eqn:E0; [destruct (closer_than x d0) eqn:Ec|].
    + rewrite elem_of_cons, IH. split.
      * intros [->|H]; [|by apply Hshift].
        exists 0, d0. by rewrite Nat.add_0_r.
      * intros (j & d & Hj & Hd & Hc).
        destruct (Hunshift j d Hj Hd Hc) as [(_ & ? & _)|?]; eauto.
    + rewrite IH. split; [apply Hshift|].
      intros (j & d & Hj & Hd & Hc).
      destruct (Hunshift j d Hj Hd Hc) as [(_ & ? & ?)|?]; [|done].
      simplify_eq. congruence.
    + rewrite IH. split; [apply Hshift|].
      intros (j & d & Hj & Hd & Hc).
      destruct (Hunshift j d Hj Hd Hc) as [(_ & ? & ?)|?]; [|done].
      congruence.
Qed.

Lemma kept_list_sublist ms x i ids : kept_list ms x i ids `sublist_of` ids.
Proof.
  revert i. induction ids as [|y ids IH]; intros i; simpl; [done|].
  destruct (ms !! i) as [d|]; [destruct (closer_than x d)|].
  - by apply sublist_skip.
  - by apply sublist_cons.
  - by apply sublist_cons.
Qed.

(** The kept individuals are those whose distance is less than [x]. *)
Lemma elem_of_kept ms x ids k :
  NoDup ids →
  k ∈ kept_list ms x 0 ids ↔ closer_than x (distance ids ms k) = true.
Proof.
  intros Hnd. rewrite elem_of_kept_list. unfold distance. split.
  - intros (j & d & Hj & Hd & Hc). simpl in Hd.
    by rewrite (index_of_NoDup k ids j Hnd Hj), Hd.
  - destruct (index_of k ids) as [j|] eqn:Hj; [|done].
    destruct (ms !! j) as [d|] eqn:Hd; [|done]. simpl. intros Hc.
    exists j, d. split; [by apply index_of_Some | done].
Qed.

(** *** The loop that builds the output *)

Lemma lone_parent_outside t keep v k :
  lone_parent t keep v = Some k → k ∉ keep.
Proof.
  unfold lone_parent. destruct (t !! v) as [[m f]|]; [|done].
  repeat case_decide; intros; by simplify_eq.
Qed.

Lemma lone_parent_cases t keep v k :
  lone_parent t keep v = Some k ↔
  ∃ m f, t !! v = Some (m, f)
         ∧ ((m ∈ keep ∧ (f ∉ keep) ∧ k = f)
            ∨ ((m ∉ keep) ∧ f ∈ keep ∧ k = m)).
Proof.
  unfold lone_parent. destruct (t !! v) as [[m f]|] eqn:E.
  - split.
    + intros H. exists m, f. split; [done|].
      repeat case_decide; simplify_eq; auto.
    + intros (m' & f' & ? & H). simplify_eq.
      repeat case_decide; naive_solver.
  - split; [done|]. by intros (? & ? & ? & _).
Qed.

(** One round of the loop, by cases on the parent to carry over. *)
Lemma prune_step_unfold t g keep ng nt v :
  prune_step t g keep (ng, nt) v =
  (e ← getitem g v;
   _ ← getitem t v;
   match lone_parent t keep v with
   | Some co =>
       eco ← getitem g co;
       Ok (<[co := eco]> (<[v := e]> ng),
           <[v := out_trio t keep v]> (<[co := (None, None)]> nt))
   | None => Ok (<[v := e]> ng, <[v := out_trio t keep v]> nt)
   end).
Proof.
  unfold prune_step, lone_parent, out_trio, getitem.
  destruct (g !! v) as [e|]; simpl; [|done].
  destruct (t !! v) as [[m f]|]; simpl; [|done].
  repeat case_decide; try done; naive_solver.
Qed.

Lemma prune_loop_cons_ok t g keep acc v rest r :
  prune_loop t g keep acc (v :: rest) = Ok r →
  ∃ acc', prune_step t g keep acc v = Ok acc'
          ∧ prune_loop t g keep acc' rest = Ok r.
Proof.
  simpl. destruct (prune_step t g keep acc v) as [acc'|]; simpl; [eauto|done].
Qed.

Lemma prune_step_ok t g keep ng nt v ng' nt' :
  prune_step t g keep (ng, nt) v = Ok (ng', nt') →
  ∃ e, g !! v = Some e ∧ is_Some (t !! v)
       ∧ match lone_parent t keep v with
         | Some co =>
             ∃ eco, g !! co = Some eco
                    ∧ ng' = <[co := eco]> (<[v := e]> ng)
                    ∧ nt' = <[v := out_trio t keep v]>
                              (<[co := (None, None)]> nt)
         | None =>
             ng' = <[v := e]> ng ∧ nt' = <[v := out_trio t keep v]> nt
         end.
Proof.
  rewrite prune_step_unfold. unfold getitem.
  destruct (g !! v) as [e|]; simpl; [|done].
  destruct (t !! v) as [p|]; simpl; [|done].
  intros H. exists e. split; [done|]. split; [eauto|].
  destruct (lone_parent t keep v) as [co|]; simpl in H.
  - destruct (g !! co) as [eco|]; simpl in H; [|done].
    simplify_eq. eauto.
  - by simplify_eq.
Qed.

(** The output registry: the entries of the individuals visited and of the
    parents carried over, as the input registry has them. *)
Lemma prune_loop_registry t g keep todo ng0 nt0 ng nt :
  prune_loop t g keep (ng0, nt0) todo = Ok (ng, nt) →
  ∀ k, ng !! k =
       if decide (k ∈ todo ∨ Exists (λ v, lone_parent t keep v = Some k) todo)
       then g !! k else ng0 !! k.
Proof.
  revert ng0 nt0. induction todo as [|v rest IH]; intros ng0 nt0 Hr k.
  { simpl in Hr. simplify_eq. rewrite decide_False; [done|].
    intros [?%elem_of_nil|?%Exists_nil]; done. }
  apply prune_loop_cons_ok in Hr as ([ng1 nt1] & Hs & Hr).
  rewrite (IH _ _ Hr k).
  apply prune_step_ok in Hs as (e & Hv & _ & Hs).
  destruct (decide (k ∈ rest ∨ Exists (λ v, lone_parent t keep v = Some k) rest))
    as [Hin|Hout].
  { rewrite decide_True; [done|].
    rewrite elem_of_cons, Exists_cons. tauto. }
  assert (ng1 !! k = if decide (k = v ∨ lone_parent t keep v = Some k)
                     then g !! k else ng0 !! k) as ->.
  { destruct (lone_parent t keep v) as [co|].
    - destruct Hs as (eco & Hco & -> & _).
      rewrite !lookup_insert.
      repeat case_decide; simplify_eq; try done; naive_solver.
    - destruct Hs as [-> _]. rewrite lookup_insert.
      repeat case_decide; simplify_eq; try done; naive_solver. }
  repeat case_decide; try done; exfalso;
    rewrite elem_of_cons, Exists_cons in *; naive_solver.
Qed.

(** The output parentage table. *)
Lemma prune_loop_table t g keep todo ng0 nt0 ng nt :
  prune_loop t g keep (ng0, nt0) todo = Ok (ng, nt) →
  (∀ v, v ∈ todo → v ∈ keep) →
  ∀ k, nt !! k =
       if decide (k ∈ todo) then Some (out_trio t keep k)
       else if decide (Exists (λ v, lone_parent t keep v = Some k) todo)
            then Some (None, None)
            else nt0 !! k.
Proof.
  revert ng0 nt0. induction todo as [|v rest IH]; intros ng0 nt0 Hr Hsub k.
  { simpl in Hr. simplify_eq. rewrite decide_False by apply not_elem_of_nil.
    rewrite decide_False; [done|]. by intros ?%Exists_nil. }
  apply prune_loop_cons_ok in Hr as ([ng1 nt1] & Hs & Hr).
  rewrite (IH _ _ Hr) by (intros; apply Hsub; by right).
  apply prune_step_ok in Hs as (e & Hv & _ & Hs).
  assert (Hvk : v ∈ keep) by (apply Hsub; by left).
  assert (Hlone : ∀ w, lone_parent t keep w = Some k → k ≠ v).
  { intros w Hw ->. by apply lone_parent_outside in Hw. }
  destruct (decide (k ∈ rest)) as [Hin|Hnin].
  { rewrite decide_True; [done|]. by right. }
  destruct (decide (Exists (λ v, lone_parent t keep v = Some k) rest))
    as [Hex|Hnex].
  { rewrite decide_False.
    - rewrite decide_True; [done|]. by apply Exists_cons_tl.
    - rewrite elem_of_cons. intros [->|?]; [|done].
      apply Exists_exists in Hex as (w & _ & Hw). by apply (Hlone w). }
  assert (nt1 !! k = if decide (k = v) then Some (out_trio t keep k)
                     else if decide (lone_parent t keep v = Some k)
                          then Some (None, None) else nt0 !! k) as ->.
  { destruct (lone_parent t keep v) as [co|] eqn:Hl.
    - destruct Hs as (eco & Hco & _ & ->).
      rewrite !lookup_insert.
      repeat case_decide; simplify_eq; try done.
    - destruct Hs as [_ ->]. rewrite lookup_insert.
      repeat case_decide; simplify_eq; try done. }
  repeat case_decide; try done; exfalso;
    rewrite ?elem_of_cons, ?Exists_cons in *; naive_solver.
Qed.

(** The loop returns when the registry has every individual it visits and
    every parent it carries over, and the table every individual visited. *)
Lemma prune_loop_returns t g keep todo acc :
  (∀ v, v ∈ todo →
     is_Some (g !! v) ∧ is_Some (t !! v)
     ∧ ∀ co, lone_parent t keep v = Some co → is_Some (g !! co)) →
  ∃ r, prune_loop t g keep acc todo = Ok r.
Proof.
  revert acc. induction todo as [|v rest IH]; intros [ng nt] H.
  { simpl. eauto. }
  destruct (H v) as ([e He] & [p Hp] & Hco); [by left|].
  cbn [prune_loop]. rewrite prune_step_unfold. unfold getitem. rewrite He, Hp. simpl.
  destruct (lone_parent t keep v) as [co|].
  - destruct (Hco co eq_refl) as [eco ->]. simpl.
    apply IH. intros; apply H; by right.
  - simpl. apply IH. intros; apply H; by right.
Qed.

Lemma prune_loop_visits t g keep todo acc r :
  prune_loop t g keep acc todo = Ok r →
  ∀ v, v ∈ todo →
    is_Some (g !! v)
    ∧ ∀ co, lone_parent t keep v = Some co → is_Some (g !! co).
Proof.
  revert acc. induction todo as [|w rest IH]; intros [ng nt] Hr v Hv.
  { by apply elem_of_nil in Hv. }
  apply prune_loop_cons_ok in Hr as ([ng1 nt1] & Hs & Hr).
  apply elem_of_cons in Hv as [->|Hv]; [|by eapply IH].
  apply prune_step_ok in Hs as (e & He & _ & Hs). split; [eauto|].
  intros co Hco. rewrite Hco in Hs. destruct Hs as (eco & ? & _). eauto.
Qed.

(** *** The pruner as a whole *)

Lemma relax_edge_length D e : length (relax_edge D e) = length D.
Proof.
  unfold relax_edge. repeat case_match; by rewrite ?length_insert.
Qed.

Lemma relax_fold_length D es : length (foldl relax_edge D es) = length D.
Proof.
  revert D. induction es as [|e es IH]; intros D; simpl; [done|].
  by rewrite IH, relax_edge_length.
Qed.

Lemma bellman_ford_length n rows cols s :
  length (bellman_ford n rows cols s) = n.
Proof.
  unfold bellman_ford. induction (n - 1) as [|j IH]; simpl.
  - by rewrite length_insert, length_replicate.
  - unfold relax_round at 1. by rewrite relax_fold_length.
Qed.

Lemma meioses_of_length t poi ms :
  meioses_of t poi = Ok ms → length ms = length (keys_of t).
Proof.
  unfold meioses_of. destruct (index (keys_of t) poi); simpl; [|done].
  destruct (adjacency _ _ _ _ _ _) as [[rows cols]|]; simpl; [|done].
  intros ?; simplify_eq. apply bellman_ford_length.
Qed.

(** [meioses] has one entry for every key, so no position is out of
    range. *)
Lemma ids_to_keep_ok ms x i ids :
  i + length ids ≤ length ms →
  ids_to_keep ms x i ids = Ok (kept_list ms x i ids).
Proof.
  revert i. induction ids as [|y ids IH]; intros i Hlen; simpl; [done|].
  simpl in Hlen.
  destruct (lookup_lt_is_Some_2 ms i) as [d ->]; [lia|].
  rewrite IH by lia. simpl. by destruct (closer_than x d).
Qed.

Lemma kept_ids_ok t x poi keep :
  kept_ids t x poi = Ok keep ↔
  ∃ ms, meioses_of t poi = Ok ms ∧ keep = kept_list ms x 0 (keys_of t).
Proof.
  unfold kept_ids. destruct (meioses_of t poi) as [ms|e] eqn:Hms; simpl.
  - rewrite ids_to_keep_ok
      by (rewrite (meioses_of_length _ _ _ Hms); simpl; lia).
    split; [intros; simplify_eq; eauto|]. intros (? & ? & ?); by simplify_eq.
  - split; [done|]. by intros (? & ? & _).
Qed.

Lemma find_persons_ok t g x poi nt ng :
  find_persons_less_than_x_meioses_from_poi t g x poi = Ok (nt, ng) ↔
  ∃ ms, meioses_of t poi = Ok ms
        ∧ prune_loop t g (kept_list ms x 0 (keys_of t)) (∅, ∅)
            (kept_list ms x 0 (keys_of t)) = Ok (ng, nt).
Proof.
  unfold find_persons_less_than_x_meioses_from_poi.
  destruct (kept_ids t x poi) as [keep|e] eqn:Hk; simpl.
  - apply kept_ids_ok in Hk as (ms & Hms & ->).
    destruct (prune_loop _ _ _ _ _) as [[ng' nt']|e] eqn:E; simpl.
    + split.
      * intros ?; simplify_eq. eauto.
      * intros (ms' & ? & ?); simplify_eq. congruence.
    + split; [done|]. intros (ms' & ? & ?); simplify_eq. congruence.
  - split; [done|]. intros (ms & Hms & _).
    assert (kept_ids t x poi = Ok (kept_list ms x 0 (keys_of t))) as Hk'
      by (apply kept_ids_ok; eauto).
    congruence.
Qed.

Lemma kept_is_key ms x t k :
  k ∈ kept_list ms x 0 (keys_of t) → k ∈ keys_of t.
Proof.
  intros H. eapply elem_of_sublist; [done|]. apply kept_list_sublist.
Qed.

(** The output of the pruner, entry by entry. *)
Lemma find_persons_output t g x poi keep nt ng :
  kept_ids t x poi = Ok keep →
  find_persons_less_than_x_meioses_from_poi t g x poi = Ok (nt, ng) →
  (∀ k, ng !! k =
        if decide (k ∈ keep ∨ Exists (λ v, lone_parent t keep v = Some k) keep)
        then g !! k else None)
  ∧ (∀ k, nt !! k =
          if decide (k ∈ keep) then Some (out_trio t keep k)
          else if decide (Exists (λ v, lone_parent t keep v = Some k) keep)
               then Some (None, None)
               else None)
  ∧ (∀ v, v ∈ keep →
       is_Some (g !! v)
       ∧ ∀ co, lone_parent t keep v = Some co → is_Some (g !! co)).
Proof.
  intros (ms & Hms & ->)%kept_ids_ok (ms' & Hms' & Hloop)%find_persons_ok.
  rewrite Hms in Hms'. simplify_eq.
  split; [|split].
  - intros k. rewrite (prune_loop_registry _ _ _ _ _ _ _ _ Hloop k).
    by rewrite lookup_empty.
  - intros k. rewrite (prune_loop_table _ _ _ _ _ _ _ _ Hloop) by done.
    by rewrite lookup_empty.
  - by eapply prune_loop_visits.
Qed.

(** What the loop does with a kept individual that has exactly one parent in
    the kept list. *)
Lemma lone_parent_kept t g x poi keep nt ng v m f :
  kept_ids t x poi = Ok keep →
  find_persons_less_than_x_meioses_from_poi t g x poi = Ok (nt, ng) →
  v ∈ keep →
  t !! v = Some (m, f) →
  (m ∈ keep → f ∉ keep →
   is_Some (g !! f) ∧ ng !! f = g !! f
   ∧ nt !! f = Some (None, None) ∧ nt !! v = Some (m, f))
  ∧ (m ∉ keep → f ∈ keep →
     is_Some (g !! m) ∧ ng !! m = g !! m
     ∧ nt !! m = Some (None, None) ∧ nt !! v = Some (m, f))
  ∧ (∀ k e, ng !! k = Some e → g !! k = Some e).
Proof.
  intros Hkeep Hfind Hv Ht.
  destruct (find_persons_output _ _ _ _ _ _ _ Hkeep Hfind)
    as (Hng & Hnt & Hvis).
  assert (Hcarry : ∀ co, lone_parent t keep v = Some co →
            is_Some (g !! co) ∧ ng !! co = g !! co
            ∧ nt !! co = Some (None, None)).
  { intros co Hco.
    assert (Exists (λ v, lone_parent t keep v = Some co) keep) as Hex.
    { apply Exists_exists. eauto. }
    split; [by apply (Hvis v)|]. split.
    - rewrite Hng. rewrite decide_True; [done | by right].
    - rewrite Hnt. rewrite decide_False by (by eapply lone_parent_outside).
      by rewrite decide_True. }
  assert (Hout : m ∈ keep ∨ f ∈ keep → nt !! v = Some (m, f)).
  { intros Hmf. rewrite Hnt, decide_True by done.
    unfold out_trio. rewrite Ht. by rewrite decide_True. }
  split; [|split].
  - intros Hm Hf.
    destruct (Hcarry f) as (? & ? & ?).
    { apply lone_parent_cases. exists m, f. split; [done|]. by left. }
    repeat split; try done. apply Hout. by left.
  - intros Hm Hf.
    destruct (Hcarry m) as (? & ? & ?).
    { apply lone_parent_cases. exists m, f. split; [done|]. by right. }
    repeat split; try done. apply Hout. by right.
  - intros k e Hk. rewrite Hng in Hk. by case_decide.
Qed.

Lemma load_family_of_three :
  load_gedcom family_of_three "Mary"
  = Ok (three_registry, three_table, Some "I1").
Proof. vm_compute. reflexivity. Qed.

Lemma three_kept :
  kept_ids three_table 2 (Some "I1") = Ok [ Some "I3"; Some "I1" ].
Proof. vm_compute. reflexivity. Qed.

Lemma three_pruned :
  find_persons_less_than_x_meioses_from_poi three_table three_registry
    2 (Some "I1") = Ok (three_table, three_registry).
Proof. vm_compute. reflexivity. Qed.



(** *** Both parents or none *)

Lemma out_trio_paired t keep k :
  both_or_neither t → paired (out_trio t keep k).
Proof.
  intros Ht. unfold out_trio. destruct (t !! k) as [[m f]|] eqn:E.
  - case_decide; [by apply (Ht k) | by left].
  - by left.
Qed.

(** C3: in the parentage table that the extractor returns, and in the one
    that the pruner makes of it, every entry has both parents or none. *)
Theorem parents_come_in_pairs lines poi_name g t p :
  load_gedcom lines poi_name = Ok (g, t, p) →
  both_or_neither t
  ∧ ∀ x nt ng,
      find_persons_less_than_x_meioses_from_poi t g x p = Ok (nt, ng) →
      both_or_neither nt.
Proof.
  intros (st & Hr & _ & _ & <-)%load_gedcom_ok.
  pose proof (read_lines_paired _ _ _ Hr) as Ht.
  split; [done|]. intros x nt ng Hfind.
  destruct (find_persons_ok (trio_dict st) g x p nt ng) as [Hf _].
  destruct (Hf Hfind) as (ms & Hms & _).
  assert (Hkeep : kept_ids (trio_dict st) x p
                  = Ok (kept_list ms x 0 (keys_of (trio_dict st)))).
  { apply kept_ids_ok. eauto. }
  destruct (find_persons_output _ _ _ _ _ _ _ Hkeep Hfind) as (_ & Hnt & _).
  intros k pr Hk. rewrite Hnt in Hk.
  repeat case_decide; simplify_eq.
  - by apply out_trio_paired.
  - by left.
Qed.

Lemma parents_come_in_pairs_witness :
  both_or_neither three_table
  ∧ ∀ x nt ng,
      find_persons_less_than_x_meioses_from_poi three_table three_registry
        x (Some "I1") = Ok (nt, ng) →
      both_or_neither nt.
Proof.
  exact (parents_come_in_pairs family_of_three "Mary" three_registry
           three_table (Some "I1") load_family_of_three).
Defined.

(** *** When the pruner returns *)

Lemma adjacency_returns t ids i children rows cols :
  (∀ c, c ∈ children →
     ∃ m f, t !! c = Some (m, f) ∧ (is_Some m → m ∈ ids ∧ f ∈ ids)) →
  ∃ r, adjacency t ids i children rows cols = Ok r.
Proof.
  revert i rows cols.
  induction children as [|c rest IH]; intros i rows cols H.
  { simpl. eauto. }
  destruct (H c) as (m & f & Hc & Hmf); [by left|].
  assert (Hrest : ∀ c', c' ∈ rest →
            ∃ m f, t !! c' = Some (m, f) ∧ (is_Some m → m ∈ ids ∧ f ∈ ids))
    by (intros; apply H; by right).
  cbn [adjacency]. unfold getitem. rewrite Hc. simpl.
  destruct m as [s|]; [|by apply IH].
  destruct Hmf as [Hm Hf]; [by eauto|].
  destruct (index_ok ids _ Hm) as (mi & -> & _).
  destruct (index_ok ids _ Hf) as (fi & -> & _). simpl.
  by apply IH.
Qed.

Lemma find_persons_returns t g x poi :
  both_or_neither t → closed_table t → covered_table t g →
  is_Some (t !! poi) →
  ∃ nt ng, find_persons_less_than_x_meioses_from_poi t g x poi = Ok (nt, ng).
Proof.
  intros Hpair Hclosed Hcov Hpoi.
  assert (Hparents : ∀ k m f, t !! k = Some (m, f) →
            (is_Some m → m ∈ keys_of t ∧ f ∈ keys_of t)).
  { intros k m f Hk [s ->].
    destruct (Hpair k _ Hk) as [[? _]|[_ [s' Hs']]]; [done|].
    simpl in Hs'. subst f.
    split; apply elem_of_keys_of; eapply Hclosed; eauto. }
  destruct (index_ok (keys_of t) poi) as (pi & Hpi & _).
  { by apply elem_of_keys_of. }
  destruct (adjacency_returns t (keys_of t) 0 (keys_of t) [] [])
    as ([rows cols] & Hadj).
  { intros c [[m f] Hc]%elem_of_keys_of. exists m, f. split; [done|].
    by apply (Hparents c). }
  set (ms := bellman_ford (length (keys_of t)) rows cols pi).
  assert (Hms : meioses_of t poi = Ok ms).
  { unfold meioses_of. rewrite Hpi. simpl. rewrite Hadj. done. }
  set (keep := kept_list ms x 0 (keys_of t)).
  destruct (prune_loop_returns t g keep keep (∅, ∅)) as ([ng nt] & Hloop).
  { intros v Hv.
    assert (Hvk : is_Some (t !! v)).
    { apply elem_of_keys_of. by apply kept_is_key in Hv. }
    split; [by apply Hcov|]. split; [done|].
    intros co (m & f & Ht & Hco)%lone_parent_cases.
    apply Hcov.
    destruct (Hpair v _ Ht) as [[Hm Hf]|[[sm Hm] [sf Hf]]];
      simpl in *; subst.
    - destruct Hco as [(? & ? & _)|(? & ? & _)]; done.
    - destruct Hco as [(_ & _ & ->)|(_ & _ & ->)]; eapply Hclosed; eauto. }
  exists nt, ng. apply find_persons_ok. exists ms. split; done.
Qed.

(** *** References and declarations during extraction *)

Lemma refs_inv_extend pre pre' st st' :
  refs_inv pre st →
  (∀ c, c ∈ referenced_ids pre → c ∈ referenced_ids pre') →
  (∀ k, is_Some (gedcom_dict st !! k) → is_Some (gedcom_dict st' !! k)) →
  (∀ k, k ∈ declared_ids pre' →
     k ∈ declared_ids pre ∨ is_Some (gedcom_dict st' !! k)) →
  (∀ k, is_Some (gedcom_dict st' !! k) →
     is_Some (gedcom_dict st !! k) ∨ is_Some (trio_dict st' !! k)) →
  (∀ k, is_Some (trio_dict st !! k) → is_Some (trio_dict st' !! k)) →
  (∀ k, is_Some (trio_dict st' !! k) →
     is_Some (trio_dict st !! k) ∨ is_Some (gedcom_dict st' !! k)
     ∨ ∃ c, k = Some c ∧ c ∈ referenced_ids pre') →
  (∀ k m f, trio_dict st' !! k = Some (m, f) →
     trio_dict st !! k = Some (m, f)
     ∨ ∀ s, m = Some s ∨ f = Some s → known pre' st' s) →
  (∀ s, mother st' = Some s ∨ father st' = Some s →
     (mother st = Some s ∨ father st = Some s) ∨ known pre' st' s) →
  (∀ k, k ∈ poi_ids st' →
     k ∈ poi_ids st ∨ is_Some (gedcom_dict st' !! k)) →
  refs_inv pre' st'.
Proof.
  intros [I1 I2 I3 I4 I5 I6] Href Hg Hdecl Hg' Ht Ht' Hpar Hfam Hpoi.
  assert (Hknown : ∀ s, known pre st s → known pre' st' s).
  { intros s [?|?]; [left|right]; auto. }
  split.
  - intros k Hk. destruct (Hdecl k Hk); auto.
  - intros k Hk. destruct (Hg' k Hk); auto.
  - intros k Hk. destruct (Ht' k Hk) as [Hk'|[?|?]]; auto.
    destruct (I3 k Hk') as [?|(c & ? & ?)]; eauto.
  - intros k m f s Hk Hs. destruct (Hpar k m f Hk); eauto.
  - intros s Hs. destruct (Hfam s Hs); auto.
  - intros k Hk. destruct (Hpoi k Hk); auto.
Qed.

Lemma referenced_ids_mono pre l c :
  c ∈ referenced_ids pre → c ∈ referenced_ids (pre ++ [l]).
Proof. rewrite referenced_ids_snoc, elem_of_app. auto. Qed.

Lemma refs_inv_fill_mother pre st :
  refs_inv pre st → refs_inv pre (fill_mother st).
Proof.
  intros I. unfold fill_mother. destruct (mother st) eqn:Em; [done|].
  eapply refs_inv_extend; [exact I|..]; simpl; try done.
  - intros k. rewrite lookup_insert_is_Some'. auto.
  - auto.
  - intros k. rewrite !lookup_insert_is_Some'. intros [->|?]; auto.
  - intros k. rewrite lookup_insert_is_Some'. auto.
  - intros k. rewrite !lookup_insert_is_Some'. intros [->|?]; auto.
  - intros k m f. rewrite lookup_insert. case_decide; [|by auto].
    intros ?; simplify_eq. right. by intros s [?|?].
  - intros s [?|?]; simplify_eq; [|by auto].
    right. left. simpl. rewrite lookup_insert_eq. eauto.
  - auto.
Qed.

Lemma refs_inv_fill_father pre st :
  refs_inv pre st → refs_inv pre (fill_father st).
Proof.
  intros I. unfold fill_father. destruct (father st) eqn:Em; [done|].
  eapply refs_inv_extend; [exact I|..]; simpl; try done.
  - intros k. rewrite lookup_insert_is_Some'. auto.
  - auto.
  - intros k. rewrite !lookup_insert_is_Some'. intros [->|?]; auto.
  - intros k. rewrite lookup_insert_is_Some'. auto.
  - intros k. rewrite !lookup_insert_is_Some'. intros [->|?]; auto.
  - intros k m f. rewrite lookup_insert. case_decide; [|by auto].
    intros ?; simplify_eq. right. by intros s [?|?].
  - intros s [?|?]; simplify_eq; [by auto|].
    right. left. simpl. rewrite lookup_insert_eq. eauto.
  - auto.
Qed.

Lemma refs_inv_exec poi_name pre l st st' :
  refs_inv pre st →
  exec poi_name (classify l) st = Ok st' →
  refs_inv (pre ++ [l]) st'.
Proof.
  intros I He.
  assert (Hdecl : ∀ k, k ∈ declared_ids (pre ++ [l]) →
            k ∈ declared_ids pre ∨ classify l = Indi k).
  { intros k. rewrite declared_ids_snoc, elem_of_app.
    intros [?|Hk]; [by left|]. right.
    destruct (classify l); try by apply elem_of_nil in Hk.
    apply list_elem_of_singleton in Hk. by subst. }
  assert (Hsame : (∀ k, classify l ≠ Indi k) →
            ∀ k, k ∈ declared_ids (pre ++ [l]) →
                 k ∈ declared_ids pre ∨ is_Some (gedcom_dict st' !! k)).
  { intros Hn k Hk. destruct (Hdecl k Hk) as [?|Hc]; [by left|].
    by destruct (Hn k). }
  destruct (classify l) as [|id| |id|id|id|data|data|] eqn:Hc;
    simpl in He.
  - simplify_eq. eapply refs_inv_extend; [exact I|..]; try done; auto.
    apply referenced_ids_mono.
  - simplify_eq. eapply refs_inv_extend; [exact I|..]; simpl; try done.
    + apply referenced_ids_mono.
    + intros k. rewrite lookup_insert_is_Some'. auto.
    + intros k Hk. destruct (Hdecl k Hk) as [?|?]; [by left|].
      simplify_eq. right. rewrite lookup_insert_eq. eauto.
    + intros k. rewrite !lookup_insert_is_Some'. intros [->|?]; auto.
    + intros k. rewrite lookup_insert_is_Some'. auto.
    + intros k. rewrite !lookup_insert_is_Some'. intros [->|?]; auto.
    + intros k m f. rewrite lookup_insert. case_decide; [|by auto].
      intros ?; simplify_eq. right. by intros s [?|?].
    + auto.
    + auto.
  - simplify_eq. eapply refs_inv_extend; [exact I|..]; simpl; try done; auto.
    + apply referenced_ids_mono.
    + by intros s [?|?].
  - simplify_eq. eapply refs_inv_extend; [exact I|..]; simpl; try done; auto.
    + apply referenced_ids_mono.
    + intros s [?|?]; simplify_eq; [by auto|].
      right. right. rewrite referenced_ids_snoc, Hc, elem_of_app,
        list_elem_of_singleton. by right.
  - simplify_eq. eapply refs_inv_extend; [exact I|..]; simpl; try done; auto.
    + apply referenced_ids_mono.
    + intros s [?|?]; simplify_eq; [|by auto].
      right. right. rewrite referenced_ids_snoc, Hc, elem_of_app,
        list_elem_of_singleton. by right.
  - case_decide; simplify_eq.
    { eapply refs_inv_extend; [exact I|..]; try done; auto.
      apply referenced_ids_mono. }
    pose proof (refs_inv_fill_father pre _ (refs_inv_fill_mother pre _ I))
      as I'.
    set (st2 := fill_father (fill_mother st)) in *.
    eapply refs_inv_extend; [exact I'|apply referenced_ids_mono|..]; simpl.
    + auto.
    + intros k Hk. destruct (Hdecl k Hk) as [?|?]; [by left | done].
    + auto.
    + intros k. rewrite lookup_insert_is_Some'. auto.
    + intros k. rewrite lookup_insert_is_Some'. intros [<-|?]; [|by auto].
      right. right. exists id. split; [done|].
      rewrite referenced_ids_snoc, Hc, elem_of_app, list_elem_of_singleton.
      by right.
    + intros k m f. rewrite lookup_insert. case_decide; [|by auto].
      intros ?; simplify_eq. right. intros s Hs.
      destruct (inv_family _ _ I' s Hs) as [?|?]; [by left|].
      right. by apply referenced_ids_mono.
    + auto.
    + auto.
  - case_decide; [|simplify_eq; eapply refs_inv_extend; [exact I|..];
                   try done; auto; apply referenced_ids_mono].
    unfold set_name in He.
    destruct (gedcom_dict st !! current_person st) as [e0|] eqn:E0;
      simplify_eq.
    eapply refs_inv_extend; [exact I|..]; simpl; try done; auto.
    + apply referenced_ids_mono.
    + intros k. rewrite lookup_insert_is_Some'. auto.
    + intros k. rewrite lookup_insert_is_Some'. intros [<-|?]; eauto.
    + intros k. destruct (Re.contains poi_name data); [|by auto].
      rewrite elem_of_app, list_elem_of_singleton. intros [? | ->]; [by auto|].
      right. rewrite lookup_insert_eq. eauto.
  - unfold set_sex in He.
    destruct (gedcom_dict st !! current_person st) as [e0|] eqn:E0;
      simplify_eq.
    eapply refs_inv_extend; [exact I|..]; simpl; try done; auto.
    + apply referenced_ids_mono.
    + intros k. rewrite lookup_insert_is_Some'. auto.
    + intros k. rewrite lookup_insert_is_Some'. intros [<-|?]; eauto.
  - simplify_eq. eapply refs_inv_extend; [exact I|..]; simpl; try done; auto.
    apply referenced_ids_mono.
Qed.

Lemma read_lines_refs_inv poi_name lines st :
  read_lines poi_name init lines = Ok st → refs_inv lines st.
Proof.
  apply (read_lines_ind_pre refs_inv poi_name init).
  - split; cbn.
    + by intros k ?%elem_of_nil.
    + intros k. rewrite lookup_empty. by intros [? ?].
    + intros k. rewrite lookup_empty. by intros [? ?].
    + intros k m f s. by rewrite lookup_empty.
    + by intros s [?|?].
    + by intros k ?%elem_of_nil.
  - intros pre l s s'. apply refs_inv_exec.
Qed.

Lemma is_ok_load lines poi_name :
  is_ok (load_gedcom lines poi_name) = true →
  ∃ g t p, load_gedcom lines poi_name = Ok (g, t, p).
Proof.
  destruct (load_gedcom lines poi_name) as [[[g t] p]|e]; [eauto | done].
Qed.

Lemma main_not_ok lines x poi_name :
  is_ok (main lines x poi_name) = false →
  ∀ g t p, load_gedcom lines poi_name = Ok (g, t, p) →
    is_ok (find_persons_less_than_x_meioses_from_poi t g x p) = false.
Proof.
  unfold main. intros H g t p Hl. rewrite Hl in H. simpl in H.
  by destruct (find_persons_less_than_x_meioses_from_poi t g x p)
    as [[nt ng]|e].
Qed.

(** C8 (amended): for every triple that the extractor returns on an input in
    which every identifier referred to by a [HUSB], [WIFE] or [CHIL] line is
    declared by an [INDI] line, and for every bound, the pruner returns a
    pruned table and registry. *)
Theorem pruner_returns lines poi_name g t p :
  load_gedcom lines poi_name = Ok (g, t, p) →
  refs_declared lines →
  ∀ x, ∃ nt ng,
    find_persons_less_than_x_meioses_from_poi t g x p = Ok (nt, ng).
Proof.
  intros (st & Hr & Hp & <- & <-)%load_gedcom_ok Hrefs x.
  pose proof (read_lines_paired _ _ _ Hr) as Hpair.
  destruct (read_lines_refs_inv _ _ _ Hr) as [I1 I2 I3 I4 I5 I6].
  assert (Hknown : ∀ s, known lines st s → is_Some (gedcom_dict st !! Some s)).
  { intros s [?|Hs]; [done|]. by apply I1, Hrefs. }
  apply find_persons_returns.
  - done.
  - intros k m f s Hk Hs. apply I2, Hknown. by eapply I4.
  - intros k Hk. destruct (I3 k Hk) as [?|(c & -> & Hc)]; [done|].
    by apply I1, Hrefs.
  - apply I2, I6. rewrite Hp. by left.
Qed.

Lemma pruner_returns_witness :
  ∃ nt ng,
    find_persons_less_than_x_meioses_from_poi three_table three_registry
      2 (Some "I1") = Ok (nt, ng).
Proof.
  refine (pruner_returns family_of_three "Mary" three_registry three_table
            (Some "I1") load_family_of_three _ 2%Z).
  intros id Hid.
  assert (referenced_ids family_of_three = [ "I2"; "I1"; "I3" ]) as Hr
    by (vm_compute; reflexivity).
  assert (declared_ids family_of_three
          = [ Some "I1"; Some "I2"; Some "I3" ]) as Hd
    by (vm_compute; reflexivity).
  rewrite Hr in Hid. rewrite Hd.
  repeat (apply elem_of_cons in Hid as [->|Hid]; [set_solver|]).
  by apply elem_of_nil in Hid.
Defined.

(** C8 as written fails: the husband of the family has no record of his own,
    the extraction succeeds, and the pruner raises when it looks for the
    position of the father among the keys. *)
Lemma pruner_raises_on_dangling_reference :
  ¬ pruner_always_returns dangling_husband "Jane".
Proof.
  intros H.
  destruct (is_ok_load dangling_husband "Jane") as (g & t & p & Hl).
  { vm_compute. reflexivity. }
  specialize (H g t p Hl 1%Z).
  rewrite (main_not_ok dangling_husband 1 "Jane") in H.
  - discriminate H. lia.
  - vm_compute. reflexivity.
  - done.
Qed.

(** *** Walks along the stored edges *)

Lemma walk_last E s p v : walk E s p v → last (s :: p) = Some v.
Proof.
  intros H. destruct H as [|p u v _ _]; [done|].
  by rewrite app_comm_cons, last_snoc.
Qed.

Lemma walk_app E s p u q v :
  walk E s p u → walk E u q v → walk E s (p ++ q) v.
Proof.
  intros Hp Hq. induction Hq as [|q w v _ IH He].
  - by rewrite app_nil_r.
  - rewrite app_assoc. by eapply walk_snoc.
Qed.

Lemma walk_app_inv E s p q v :
  walk E s (p ++ q) v → ∃ u, walk E s p u ∧ walk E u q v.
Proof.
  revert v. induction q as [|w q IH] using rev_ind; intros v H.
  - rewrite app_nil_r in H. exists v. split; [done | constructor].
  - rewrite app_assoc in H. inversion H as [Hnil|p' u' v' Hw He Heq].
    + by destruct (p ++ q).
    + apply app_inj_tail in Heq as [-> ->].
      destruct (IH _ Hw) as (u & Hp & Hq). exists u. split; [done|].
      subst. by eapply walk_snoc.
Qed.

Lemma walk_bound E s p v n :
  (∀ a b, (a, b) ∈ E → b < n) →
  walk E s p v → ∀ w, w ∈ p → w < n.
Proof.
  intros HE H. induction H as [|p u v _ IH He]; intros w Hw.
  - by apply elem_of_nil in Hw.
  - apply elem_of_app in Hw as [Hw|Hw]; [by apply IH|].
    apply list_elem_of_singleton in Hw. subst. by eapply HE.
Qed.

Lemma not_NoDup_split (l : list nat) :
  ¬ NoDup l → ∃ x l1 l2 l3, l = l1 ++ x :: l2 ++ x :: l3.
Proof.
  induction l as [|a l IH]; intros Hn.
  - destruct Hn. constructor.
  - destruct (decide (a ∈ l)) as [Hin|Hnin].
    + apply list_elem_of_split in Hin as (l2 & l3 & ->).
      by exists a, [], l2, l3.
    + destruct IH as (x & l1 & l2 & l3 & ->).
      { intros Hnd. apply Hn. by constructor. }
      by exists x, (a :: l1), l2, l3.
Qed.

Lemma crowded_has_duplicate (l : list nat) n :
  (∀ w, w ∈ l → w < n) → n < length l → ¬ NoDup l.
Proof.
  intros Hb Hlen Hnd.
  assert (l ⊆+ seq 0 n) as Hsub.
  { apply NoDup_submseteq; [done|]. intros w Hw.
    apply elem_of_seq. split; [lia|]. simpl. by apply Hb. }
  apply submseteq_length in Hsub. rewrite length_seq in Hsub. lia.
Qed.

(** A walk that visits more vertices than there are can be cut short. *)
Lemma walk_shorten E s n p v :
  s < n → (∀ a b, (a, b) ∈ E → b < n) →
  walk E s p v →
  ∃ p', walk E s p' v ∧ length p' < n ∧ length p' ≤ length p.
Proof.
  intros Hs HE.
  remember (length p) as m eqn:Hm. revert p Hm.
  induction (lt_wf m) as [m _ IH]; intros p -> Hw.
  destruct (decide (length p < n)) as [Hlt|Hge].
  { exists p. split; [done|]. split; [done | lia]. }
  assert (¬ NoDup (s :: p)) as Hdup.
  { apply (crowded_has_duplicate _ n); [|simpl; lia].
    intros w [->|Hin]%elem_of_cons; [done|]. by eapply walk_bound. }
  apply not_NoDup_split in Hdup as (x & l1 & l2 & l3 & Heq).
  assert (∃ q, walk E s q v ∧ length q < length p) as (q & Hq & Hlen).
  { destruct l1 as [|a l1]; simpl in Heq; simplify_eq.
    - rewrite (cons_middle x l2 l3), app_assoc in Hw.
      apply walk_app_inv in Hw as (u & Hw1 & Hw2).
      apply walk_last in Hw1. rewrite app_comm_cons, last_snoc in Hw1.
      simplify_eq. exists l3. split; [done|].
      repeat (rewrite length_app || simpl). lia.
    - rewrite (cons_middle x l1), app_assoc in Hw.
      apply walk_app_inv in Hw as (u & Hw1 & Hw2).
      apply walk_last in Hw1 as Hu.
      rewrite app_comm_cons, last_snoc in Hu. simplify_eq.
      rewrite (cons_middle u l2 l3), app_assoc in Hw2.
      apply walk_app_inv in Hw2 as (u' & Hw2 & Hw3).
      apply walk_last in Hw2 as Hu'.
      rewrite app_comm_cons, last_snoc in Hu'. simplify_eq.
      exists ((l1 ++ [u']) ++ l3). split; [by eapply walk_app|].
      repeat (rewrite length_app || simpl). lia. }
  destruct (IH (length q) Hlen q eq_refl Hq) as (p' & ? & ? & ?).
  exists p'. split; [done|]. split; lia.
Qed.

(** *** The relaxation computes shortest walks *)

Lemma below_refl D : below D D.
Proof. split; [done|]. eauto. Qed.

Lemma below_trans D1 D2 D3 : below D1 D2 → below D2 D3 → below D1 D3.
Proof.
  intros [L1 H1] [L2 H2]. split; [congruence|].
  intros v k Hk. destruct (H1 v k Hk) as (k1 & Hk1 & ?).
  destruct (H2 v k1 Hk1) as (k2 & Hk2 & ?). exists k2. split; [done | lia].
Qed.

Lemma relax_edge_cases D u v :
  relax_edge D (u, v) = D
  ∨ ∃ d1, D !! u = Some (Some d1) ∧ v < length D
          ∧ (∀ d2, D !! v = Some (Some d2) → S d1 < d2)
          ∧ relax_edge D (u, v) = <[v := Some (S d1)]> D.
Proof.
  unfold relax_edge. simpl.
  destruct (D !! u) as [[d1|]|] eqn:Hu; [|by left..].
  destruct (D !! v) as [[d2|]|] eqn:Hv; [| |by left].
  - destruct (S d1 <? d2) eqn:Hlt; [|by left]. right. exists d1.
    apply Nat.ltb_lt in Hlt. split; [done|].
    split; [by eapply lookup_lt_Some|]. split; [|done].
    intros ? ?; by simplify_eq.
  - right. exists d1. split; [done|].
    split; [by eapply lookup_lt_Some|]. split; [|done]. by intros ? ?.
Qed.

Lemma relax_edge_below D e : below D (relax_edge D e).
Proof.
  destruct e as [u v].
  destruct (relax_edge_cases D u v) as [->|(d1 & Hu & Hv & Hlt & ->)].
  { apply below_refl. }
  split; [apply length_insert|]. intros w k Hw.
  destruct (decide (w = v)) as [->|Hne].
  - exists (S d1). rewrite list_lookup_insert_eq by done.
    split; [done|]. specialize (Hlt k Hw). lia.
  - exists k. by rewrite list_lookup_insert_ne.
Qed.

Lemma relax_edge_sound E s D e :
  e ∈ E → sound E s D → sound E s (relax_edge D e).
Proof.
  destruct e as [u v]. intros He HD.
  destruct (relax_edge_cases D u v) as [->|(d1 & Hu & Hv & _ & ->)]; [done|].
  intros w k Hw. destruct (decide (w = v)) as [->|Hne].
  - rewrite list_lookup_insert_eq in Hw by done. simplify_eq.
    destruct (HD u d1 Hu) as (p & Hp & <-).
    exists (p ++ [v]). split; [by eapply walk_snoc|].
    rewrite length_app. simpl. lia.
  - rewrite list_lookup_insert_ne in Hw by done. by apply HD.
Qed.

Lemma relax_edge_target D u v ku :
  D !! u = Some (Some ku) → v < length D →
  ∃ kv, relax_edge D (u, v) !! v = Some (Some kv) ∧ kv ≤ S ku.
Proof.
  intros Hu Hv. unfold relax_edge. simpl. rewrite Hu.
  destruct (lookup_lt_is_Some_2 D v Hv) as [[d2|] Hd]; rewrite Hd.
  - destruct (S ku <? d2) eqn:Hlt.
    + exists (S ku). by rewrite list_lookup_insert_eq.
    + apply Nat.ltb_ge in Hlt. eauto.
  - exists (S ku). by rewrite list_lookup_insert_eq.
Qed.

Lemma relax_fold_below D es : below D (foldl relax_edge D es).
Proof.
  revert D. induction es as [|e es IH]; intros D; simpl.
  - apply below_refl.
  - eapply below_trans; [apply relax_edge_below | apply IH].
Qed.

Lemma relax_fold_sound E s D es :
  (∀ e, e ∈ es → e ∈ E) → sound E s D → sound E s (foldl relax_edge D es).
Proof.
  revert D. induction es as [|e es IH]; intros D Hes HD; simpl; [done|].
  apply IH; [intros; apply Hes; by right|].
  apply relax_edge_sound; [apply Hes; by left | done].
Qed.

(** After a round, the target of every edge is within one step of what the
    origin was before the round. *)
Lemma relax_round_edge es D u v ku :
  (u, v) ∈ es → D !! u = Some (Some ku) → v < length D →
  ∃ kv, relax_round es D !! v = Some (Some kv) ∧ kv ≤ S ku.
Proof.
  intros (es1 & es2 & ->)%list_elem_of_split Hu Hv.
  unfold relax_round. rewrite foldl_app. simpl.
  destruct (relax_fold_below D es1) as [L1 H1].
  destruct (H1 u ku Hu) as (ku1 & Hu1 & ?).
  destruct (relax_edge_target (foldl relax_edge D es1) u v ku1 Hu1)
    as (kv & Hkv & ?); [by rewrite L1|].
  destruct (relax_fold_below (relax_edge (foldl relax_edge D es1) (u, v)) es2)
    as [_ H2].
  destruct (H2 v kv Hkv) as (kv' & ? & ?). exists kv'. split; [done | lia].
Qed.

Lemma walk_end_bound E s n p v :
  s < n → (∀ a b, (a, b) ∈ E → b < n) → walk E s p v → v < n.
Proof. intros Hs HE H. destruct H; [done|]. by eapply HE. Qed.

Lemma upper_round E s n j D :
  s < n → (∀ a b, (a, b) ∈ E → b < n) → length D = n →
  upper E s n j D → upper E s n (S j) (relax_round E D).
Proof.
  intros Hs HE HL HU p v Hw Hlen Hv.
  destruct (relax_fold_below D E) as [_ Hbelow].
  inversion Hw as [Hp|p' u v' Hw' He Hp]; simplify_eq.
  - destruct (HU [] v Hw) as (k & Hk & ?); [simpl; lia | done |].
    destruct (Hbelow v k Hk) as (k' & ? & ?).
    exists k'. split; [done | lia].
  - rewrite length_app in Hlen |- *. simpl in Hlen |- *.
    pose proof (walk_end_bound E s _ p' u Hs HE Hw') as Hu.
    destruct (HU p' u Hw') as (ku & Hku & ?); [lia | done |].
    destruct (relax_round_edge E D u v ku He Hku) as (kv & ? & ?); [done|].
    exists kv. split; [done | lia].
Qed.

Lemma relax_round_length E D : length (relax_round E D) = length D.
Proof. apply (relax_fold_below D E). Qed.

Lemma relax_iter E s n j D :
  s < n → (∀ a b, (a, b) ∈ E → b < n) → length D = n →
  sound E s D → upper E s n 0 D →
  length (Nat.iter j (relax_round E) D) = n
  ∧ sound E s (Nat.iter j (relax_round E) D)
  ∧ upper E s n j (Nat.iter j (relax_round E) D).
Proof.
  intros Hs HE HL HS HU. induction j as [|j (IL & IS & IU)]; simpl.
  { done. }
  split; [by rewrite relax_round_length|]. split.
  - by apply relax_fold_sound.
  - by apply upper_round.
Qed.

(** The distances that [bellman_ford] reports are the lengths of the shortest
    walks from the source, and infinity where no walk arrives. *)
Lemma bellman_ford_shortest n rows cols s v :
  s < n → (∀ a b, (a, b) ∈ zip rows cols → b < n) → v < n →
  ∃ d, bellman_ford n rows cols s !! v = Some d
       ∧ match d with
         | Some k =>
             (∃ p, walk (zip rows cols) s p v ∧ length p = k)
             ∧ ∀ p, walk (zip rows cols) s p v → k ≤ length p
         | None => ∀ p, ¬ walk (zip rows cols) s p v
         end.
Proof.
  intros Hs HE Hv. unfold bellman_ford.
  set (E := zip rows cols) in *.
  set (D0 := <[s := Some 0]> (replicate n None) : list dist).
  assert (HL0 : length D0 = n).
  { unfold D0. by rewrite length_insert, length_replicate. }
  assert (HS0 : sound E s D0).
  { intros w k Hw. unfold D0 in Hw.
    destruct (decide (w = s)) as [->|Hne].
    - rewrite list_lookup_insert_eq in Hw by (by rewrite length_replicate).
      simplify_eq. exists []. split; [constructor | done].
    - rewrite list_lookup_insert_ne in Hw by done.
      apply lookup_replicate in Hw as [? _]. done. }
  assert (HU0 : upper E s n 0 D0).
  { intros p w Hw Hlen _. destruct p; [|simpl in Hlen; lia].
    inversion Hw as [Heq|p' ? ? ? ? Heq]; [|by destruct p'].
    try subst w. exists 0. split; [|done]. unfold D0.
    by rewrite list_lookup_insert_eq by (by rewrite length_replicate). }
  destruct (relax_iter E s n (n - 1) D0 Hs HE HL0 HS0 HU0) as (HL & HS & HU).
  destruct (lookup_lt_is_Some_2 (Nat.iter (n - 1) (relax_round E) D0) v)
    as [d Hd]; [by rewrite HL|].
  exists d. split; [done|].
  assert (Hmin : ∀ p, walk E s p v →
            ∃ k, d = Some k ∧ k ≤ length p).
  { intros p Hp.
    destruct (walk_shorten E s n p v Hs HE Hp) as (p' & Hp' & ? & ?).
    destruct (HU p' v Hp') as (k & Hk & ?); [lia | done |].
    rewrite Hd in Hk. simplify_eq. exists k. split; [done | lia]. }
  destruct d as [k|].
  - split; [by apply HS|]. intros p Hp.
    destruct (Hmin p Hp) as (k' & ? & ?). by simplify_eq.
  - intros p Hp. destruct (Hmin p Hp) as (k' & ? & _). done.
Qed.

(** *** The graph of the parentage table *)

Lemma adjacency_lengths t ids i children rows0 cols0 rows cols :
  adjacency t ids i children rows0 cols0 = Ok (rows, cols) →
  length rows0 = length cols0 → length rows = length cols.
Proof.
  revert i rows0 cols0.
  induction children as [|c rest IH]; intros i rows0 cols0 H HL.
  { simpl in H. by simplify_eq. }
  cbn [adjacency] in H. unfold getitem in H.
  destruct (t !! c) as [[m f]|]; simpl in H; [|done].
  destruct m as [s|]; [|by eapply IH].
  destruct (index ids (Some s)) as [mi|]; simpl in H; [|done].
  destruct (index ids f) as [fi|]; simpl in H; [|done].
  eapply IH; [done|]. rewrite !length_app. simpl. lia.
Qed.

(** The pairs of coordinates that the loop of lines 164-171 adds. *)
Lemma adjacency_edges t ids i children rows0 cols0 rows cols :
  adjacency t ids i children rows0 cols0 = Ok (rows, cols) →
  length rows0 = length cols0 →
  ∀ a b, (a, b) ∈ zip rows cols ↔
    (a, b) ∈ zip rows0 cols0
    ∨ ∃ j c m f mi fi,
        children !! j = Some c ∧ t !! c = Some (m, f) ∧ is_Some m
        ∧ index_of m ids = Some mi ∧ index_of f ids = Some fi
        ∧ ((a = i + j ∧ (b = mi ∨ b = fi)) ∨ (b = i + j ∧ (a = mi ∨ a = fi))).
Proof.
  revert i rows0 cols0.
  induction children as [|c rest IH]; intros i rows0 cols0 H HL a b.
  { simpl in H. simplify_eq. split; [by left|].
    intros [?|(j & c & ? & ? & ? & ? & Hj & _)]; [done|].
    by rewrite lookup_nil in Hj. }
  cbn [adjacency] in H. unfold getitem in H.
  destruct (t !! c) as [[m f]|] eqn:Hc; simpl in H; [|done].
  destruct m as [s|].
  - unfold index in H.
    destruct (index_of (Some s) ids) as [mi|] eqn:Hm; simpl in H; [|done].
    destruct (index_of f ids) as [fi|] eqn:Hf; simpl in H; [|done].
    rewrite (IH _ _ _ H) by (rewrite !length_app; simpl; lia).
    rewrite zip_with_app by done. rewrite elem_of_app. simpl.
    rewrite !elem_of_cons, elem_of_nil. split.
    + intros [[?|Hnew]|(j & c' & m' & f' & mi' & fi' & Hj & ? & ? & ? & ? & Hab)].
      * by left.
      * right. exists 0, c, (Some s), f, mi, fi. rewrite Nat.add_0_r.
        repeat split; eauto. naive_solver.
      * right. exists (S j), c', m', f', mi', fi'.
        rewrite <- Nat.add_succ_comm. naive_solver.
    + intros [?|(j & c' & m' & f' & mi' & fi' & Hj & Hc' & Hs' & Hm' & Hf' & Hab)].
      * by left; left.
      * destruct j as [|j]; simpl in Hj.
        -- simplify_eq. rewrite Nat.add_0_r in Hab. left. right.
           naive_solver.
        -- right. exists j, c', m', f', mi', fi'.
           rewrite <- Nat.add_succ_comm in Hab. naive_solver.
  - rewrite (IH _ _ _ H) by done. split.
    + intros [?|(j & c' & m' & f' & mi' & fi' & Hj & ? & ? & ? & ? & Hab)].
      * by left.
      * right. exists (S j), c', m', f', mi', fi'.
        rewrite <- Nat.add_succ_comm. naive_solver.
    + intros [?|(j & c' & m' & f' & mi' & fi' & Hj & Hc' & Hs' & Hm' & Hf' & Hab)].
      * by left.
      * destruct j as [|j]; simpl in Hj.
        -- simplify_eq. by destruct Hs'.
        -- right. exists j, c', m', f', mi', fi'.
           rewrite <- Nat.add_succ_comm in Hab. naive_solver.
Qed.

(** When the loop returns, the parents it met have a position. *)
Lemma adjacency_indexed t ids i children rows0 cols0 r :
  adjacency t ids i children rows0 cols0 = Ok r →
  ∀ c m f, c ∈ children → t !! c = Some (m, f) → is_Some m →
           is_Some (index_of m ids) ∧ is_Some (index_of f ids).
Proof.
  revert i rows0 cols0.
  induction children as [|c0 rest IH]; intros i rows0 cols0 H c m f Hin Hc Hm.
  { by apply elem_of_nil in Hin. }
  cbn [adjacency] in H. unfold getitem in H.
  destruct (t !! c0) as [[m0 f0]|] eqn:Hc0; simpl in H; [|done].
  destruct m0 as [s|].
  - unfold index in H.
    destruct (index_of (Some s) ids) as [mi|] eqn:Hmi; simpl in H; [|done].
    destruct (index_of f0 ids) as [fi|] eqn:Hfi; simpl in H; [|done].
    apply elem_of_cons in Hin as [->|Hin]; [|by eapply IH].
    simplify_eq. rewrite Hmi, Hfi. eauto.
  - apply elem_of_cons in Hin as [->|Hin]; [|by eapply IH].
    simplify_eq. by destruct Hm.
Qed.

Lemma meioses_of_ok t poi ms :
  meioses_of t poi = Ok ms ↔
  ∃ pi rows cols,
    index_of poi (keys_of t) = Some pi
    ∧ adjacency t (keys_of t) 0 (keys_of t) [] [] = Ok (rows, cols)
    ∧ ms = bellman_ford (length (keys_of t)) rows cols pi.
Proof.
  unfold meioses_of, index.
  destruct (index_of poi (keys_of t)) as [pi|]; simpl.
  - destruct (adjacency _ _ _ _ _ _) as [[rows cols]|] eqn:E; simpl.
    + split.
      * intros ?; simplify_eq. by exists pi, rows, cols.
      * intros (? & ? & ? & ? & ? & ?); by simplify_eq.
    + split; [done|]. intros (? & ? & ? & ? & ? & ?); by simplify_eq.
  - split; [done|]. intros (? & ? & ? & ? & _); by simplify_eq.
Qed.

(** The stored edges join the positions of linked individuals. *)
Lemma edges_linked t rows cols :
  adjacency t (keys_of t) 0 (keys_of t) [] [] = Ok (rows, cols) →
  ∀ a b, (a, b) ∈ zip rows cols ↔
    ∃ ka kb, keys_of t !! a = Some ka ∧ keys_of t !! b = Some kb
             ∧ linked t ka kb.
Proof.
  intros Hadj a b.
  pose proof (keys_of_NoDup t) as Hnd.
  rewrite (adjacency_edges _ _ _ _ _ _ _ _ Hadj eq_refl a b). simpl.
  split.
  - intros [?%elem_of_nil|(j & c & m & f & mi & fi & Hj & Hc & Hm & Hmi & Hfi
                            & Hab)]; [done|].
    apply index_of_Some in Hmi, Hfi.
    destruct Hab as [[-> [->| ->]]|[-> [->| ->]]].
    + exists c, m. repeat split; try done. left. exists m, f. auto.
    + exists c, f. repeat split; try done. left. exists m, f. auto.
    + exists m, c. repeat split; try done. right. exists m, f. auto.
    + exists f, c. repeat split; try done. right. exists m, f. auto.
  - intros (ka & kb & Ha & Hb & Hl). right.
    assert (Hpar : ∀ c q vc vq, keys_of t !! vc = Some c →
              keys_of t !! vq = Some q → parent_of t c q →
              ∃ m f mi fi, t !! c = Some (m, f) ∧ is_Some m
                ∧ index_of m (keys_of t) = Some mi
                ∧ index_of f (keys_of t) = Some fi
                ∧ (vq = mi ∨ vq = fi)).
    { intros c q vc vq Hvc Hvq (m & f & Hc & Hm & Hq).
      destruct (adjacency_indexed _ _ _ _ _ _ _ Hadj c m f)
        as [[mi Hmi] [fi Hfi]]; [by eapply list_elem_of_lookup_2|done..|].
      exists m, f, mi, fi. repeat split; try done.
      apply index_of_Some in Hmi as Hmi', Hfi as Hfi'.
      destruct Hq as [->| ->]; [left|right]; by eapply NoDup_lookup. }
    destruct Hl as [Hl|Hl].
    + destruct (Hpar _ _ _ _ Ha Hb Hl) as (m & f & mi & fi & ? & ? & ? & ? & ?).
      exists a, ka, m, f, mi, fi. repeat split; try done. by left.
    + destruct (Hpar _ _ _ _ Hb Ha Hl) as (m & f & mi & fi & ? & ? & ? & ? & ?).
      exists b, kb, m, f, mi, fi. repeat split; try done. by right.
Qed.

Lemma walk_is_path t rows cols pi poi p v :
  adjacency t (keys_of t) 0 (keys_of t) [] [] = Ok (rows, cols) →
  keys_of t !! pi = Some poi →
  walk (zip rows cols) pi p v →
  ∃ k, keys_of t !! v = Some k ∧ meioses_path t poi (length p) k.
Proof.
  intros Hadj Hpi Hw. induction Hw as [|p u v _ (ku & Hku & IH) He].
  - exists poi. split; [done | constructor].
  - apply (edges_linked _ _ _ Hadj) in He as (ka & kb & Ha & Hb & Hl).
    simplify_eq. exists kb. split; [done|].
    rewrite length_app, Nat.add_comm. simpl. by eapply path_step.
Qed.

Lemma path_is_walk t rows cols pi poi d k :
  adjacency t (keys_of t) 0 (keys_of t) [] [] = Ok (rows, cols) →
  keys_of t !! pi = Some poi →
  meioses_path t poi d k →
  ∃ p v, keys_of t !! v = Some k ∧ walk (zip rows cols) pi p v
         ∧ length p = d.
Proof.
  intros Hadj Hpi Hp. induction Hp as [|d b c _ (p & v & Hv & Hw & <-) Hl].
  - exists [], pi. split; [done|]. split; [constructor | done].
  - assert (c ∈ keys_of t) as [vc Hvc]%list_elem_of_lookup_1.
    { destruct Hl as [(m & f & Hb & Hm & Hc)|(m & f & Hc & _)].
      - destruct (adjacency_indexed _ _ _ _ _ _ _ Hadj b m f)
          as [[mi Hmi] [fi Hfi]]; [by eapply list_elem_of_lookup_2|done..|].
        apply index_of_Some in Hmi, Hfi.
        destruct Hc as [->| ->]; by eapply list_elem_of_lookup_2.
      - apply elem_of_keys_of. eauto. }
    exists (p ++ [vc]), vc. split; [done|]. split.
    + eapply walk_snoc; [done|]. apply (edges_linked _ _ _ Hadj). eauto.
    + rewrite length_app. simpl. lia.
Qed.

(** The distance that the pruner uses is the least number of meioses from the
    person of interest, and is infinite exactly where no chain of meioses
    arrives. *)
Lemma distance_shortest t poi ms k :
  meioses_of t poi = Ok ms →
  match distance (keys_of t) ms k with
  | Some d =>
      meioses_path t poi d k ∧ ∀ d', meioses_path t poi d' k → d ≤ d'
  | None => ∀ d', ¬ meioses_path t poi d' k
  end.
Proof.
  intros (pi & rows & cols & Hpi & Hadj & ->)%meioses_of_ok.
  apply index_of_Some in Hpi as Hpi'.
  assert (HE : ∀ a b, (a, b) ∈ zip rows cols → b < length (keys_of t)).
  { intros a b (ka & kb & _ & Hb & _)%(edges_linked _ _ _ Hadj).
    by eapply lookup_lt_Some. }
  assert (Hs : pi < length (keys_of t)) by (by eapply lookup_lt_Some).
  unfold distance.
  destruct (index_of k (keys_of t)) as [v|] eqn:Hv.
  - apply index_of_Some in Hv as Hv'.
    destruct (bellman_ford_shortest (length (keys_of t)) rows cols pi v)
      as (d & Hd & Hspec); [done..|by eapply lookup_lt_Some|].
    rewrite Hd. simpl.
    assert (Hback : ∀ d', meioses_path t poi d' k →
              ∃ p, walk (zip rows cols) pi p v ∧ length p = d').
    { intros d' Hp.
      destruct (path_is_walk _ _ _ _ _ _ _ Hadj Hpi' Hp)
        as (p & v' & Hv'' & Hw & Hlen).
      rewrite (NoDup_lookup _ _ _ _ (keys_of_NoDup t) Hv' Hv''). eauto. }
    destruct d as [d|].
    + destruct Hspec as [(p & Hw & <-) Hmin]. split.
      * destruct (walk_is_path _ _ _ _ _ _ _ Hadj Hpi' Hw) as (k' & Hk' & Hp).
        by simplify_eq.
      * intros d' Hp. destruct (Hback d' Hp) as (p' & Hw' & <-).
        by apply Hmin.
    + intros d' Hp. destruct (Hback d' Hp) as (p' & Hw' & _).
      by apply (Hspec p').
  - intros d' Hp.
    destruct (path_is_walk _ _ _ _ _ _ _ Hadj Hpi' Hp) as (p & v & Hv' & _).
    apply index_of_None in Hv. apply Hv. by eapply list_elem_of_lookup_2.
Qed.

(** The kept individuals are those within fewer than [x] meioses. *)
Lemma kept_iff_within t x poi keep k :
  kept_ids t x poi = Ok keep → k ∈ keep ↔ within t poi x k.
Proof.
  intros (ms & Hms & ->)%kept_ids_ok.
  rewrite (elem_of_kept ms x (keys_of t) k (keys_of_NoDup t)).
  pose proof (distance_shortest t poi ms k Hms) as H.
  destruct (distance (keys_of t) ms k) as [d|]; simpl.
  - destruct H as [Hp Hmin]. rewrite bool_decide_eq_true. split.
    + intros ?. by exists d.
    + intros (d' & Hp' & ?). specialize (Hmin d' Hp'). lia.
  - split; [done|]. intros (d' & Hp' & _). by destruct (H d').
Qed.

(** *** What becomes of a lone parent *)

Lemma find_persons_kept t g x poi nt ng :
  find_persons_less_than_x_meioses_from_poi t g x poi = Ok (nt, ng) →
  ∃ keep, kept_ids t x poi = Ok keep.
Proof.
  intros (ms & Hms & _)%find_persons_ok. eexists. apply kept_ids_ok. eauto.
Qed.

(** C1 (amended): for every kept individual [v] (within fewer than [x]
    meioses of the person of interest) whose original parentage [(m, f)] has
    exactly one parent in the kept set, the pruner copies the entry that the
    input registry has for the other parent, under the same identifier and
    unchanged, into the output registry, gives that parent an empty
    parentage, and leaves the parentage of [v] as it was, [(m, f)].  No
    individual is created: every entry of the output registry is an entry of
    the input registry. *)
Theorem lone_parent_carried_over t g x poi nt ng v m f :
  find_persons_less_than_x_meioses_from_poi t g x poi = Ok (nt, ng) →
  within t poi x v →
  t !! v = Some (m, f) →
  (within t poi x m → ¬ within t poi x f →
   is_Some (g !! f) ∧ ng !! f = g !! f
   ∧ nt !! f = Some (None, None) ∧ nt !! v = Some (m, f))
  ∧ (¬ within t poi x m → within t poi x f →
     is_Some (g !! m) ∧ ng !! m = g !! m
     ∧ nt !! m = Some (None, None) ∧ nt !! v = Some (m, f))
  ∧ (∀ k e, ng !! k = Some e → g !! k = Some e).
Proof.
  intros Hfind Hv Ht.
  destruct (find_persons_kept _ _ _ _ _ _ Hfind) as [keep Hkeep].
  pose proof (λ k, kept_iff_within t x poi keep k Hkeep) as Hw.
  destruct (lone_parent_kept t g x poi keep nt ng v m f Hkeep Hfind)
    as (H1 & H2 & H3); [by apply Hw | done |].
  split; [|split; [|done]].
  - intros Hm Hf. apply H1; [by apply Hw|]. by rewrite Hw.
  - intros Hm Hf. apply H2; [by rewrite Hw | by apply Hw].
Qed.

Lemma three_within :
  within three_table (Some "I1") 2 (Some "I3")
  ∧ within three_table (Some "I1") 2 (Some "I1")
  ∧ ¬ within three_table (Some "I1") 2 (Some "I2").
Proof.
  pose proof (λ k, kept_iff_within _ _ _ _ k three_kept) as Hw.
  rewrite <- !Hw. split; [by left|]. split; [by right; left|].
  intros H. repeat (apply elem_of_cons in H as [H|H]; [discriminate|]).
  by apply elem_of_nil in H.
Qed.

Lemma lone_parent_carried_over_witness :
  ∃ nt ng,
    find_persons_less_than_x_meioses_from_poi three_table three_registry
      2 (Some "I1") = Ok (nt, ng)
    ∧ is_Some (three_registry !! Some "I2")
    ∧ ng !! Some "I2" = three_registry !! Some "I2"
    ∧ nt !! Some "I2" = Some (None, None)
    ∧ nt !! Some "I3" = Some (Some "I1", Some "I2").
Proof.
  exists three_table, three_registry. split; [apply three_pruned|].
  refine (proj1 (lone_parent_carried_over three_table three_registry
                   2 (Some "I1") three_table three_registry
                   (Some "I3") (Some "I1") (Some "I2")
                   three_pruned _ _) _ _).
  - apply three_within.
  - vm_compute. reflexivity.
  - apply three_within.
  - apply three_within.
Defined.

(** C1 as written fails: with the mother as person of interest and a bound
    of 2, the daughter is kept with her mother; her father, two meioses away,
    is not.  The output gives the daughter her own father, whom the input
    registry has, and no new individual. *)
Lemma no_placeholder_is_synthesized :
  load_gedcom family_of_three "Mary"
  = Ok (three_registry, three_table, Some "I1")
  ∧ ¬ pruner_synthesizes_placeholders three_table three_registry
        2 (Some "I1").
Proof.
  split; [apply load_family_of_three|]. intros H.
  destruct three_within as (H3 & H1 & H2).
  destruct (H three_table three_registry three_pruned
              (Some "I3") (Some "I1") (Some "I2") H3) as [Hm _].
  { vm_compute. reflexivity. }
  destruct (Hm H1 H2) as (p & (Hnew & _) & Hp).
  assert (three_table !! Some "I3" = Some (Some "I1", Some "I2")) as Ht
    by (vm_compute; reflexivity).
  rewrite Ht in Hp. by simplify_eq.
Qed.

(** *** Who is in the pruned registry *)

(** C2 (amended): every individual within fewer than [x] meioses of the
    person of interest is in the pruned registry; an individual whose distance
    is [x] or more, or that no chain of meioses reaches, is in it exactly when
    it is a parent of a kept individual whose other parent is kept. *)
Theorem retention t g x poi nt ng :
  find_persons_less_than_x_meioses_from_poi t g x poi = Ok (nt, ng) →
  ∀ k, is_Some (ng !! k) ↔ within t poi x k ∨ carried_parent t poi x k.
Proof.
  intros Hfind k.
  destruct (find_persons_kept _ _ _ _ _ _ Hfind) as [keep Hkeep].
  pose proof (λ k, kept_iff_within t x poi keep k Hkeep) as Hw.
  destruct (find_persons_output _ _ _ _ _ _ _ Hkeep Hfind)
    as (Hng & _ & Hvis).
  assert (Hcar : carried_parent t poi x k
                 ↔ (k ∉ keep)
                   ∧ Exists (λ v, lone_parent t keep v = Some k) keep).
  { unfold carried_parent. rewrite Exists_exists, <- Hw. split.
    - intros (Hn & v & m & f & Hv & Ht & Hc). split; [done|].
      exists v. rewrite Hw. split; [done|].
      apply lone_parent_cases. exists m, f. split; [done|].
      rewrite <- !Hw in Hc. destruct Hc as [[? ->]|[? ->]]; auto.
    - intros (Hn & v & Hv & (m & f & Ht & Hc)%lone_parent_cases).
      split; [done|]. exists v, m, f. rewrite <- !Hw.
      split; [done|]. split; [done|].
      destruct Hc as [(? & ? & ?)|(? & ? & ?)]; auto. }
  rewrite Hcar, <- Hw, Hng. case_decide as Hd.
  - split.
    + intros _. destruct (decide (k ∈ keep)); [by left|]. right.
      split; [done|]. by destruct Hd.
    + intros [Hin|[_ Hex]].
      * apply (proj1 (Hvis k Hin)).
      * apply Exists_exists in Hex as (v & Hv & Hl).
        by apply (proj2 (Hvis v Hv)).
  - split; [by intros [? ?]|]. intros [?|[_ ?]]; destruct Hd; auto.
Qed.

Lemma retention_witness :
  is_Some (three_registry !! Some "I2")
  ↔ within three_table (Some "I1") 2 (Some "I2")
    ∨ carried_parent three_table (Some "I1") 2 (Some "I2").
Proof.
  exact (retention three_table three_registry 2 (Some "I1")
           three_table three_registry three_pruned (Some "I2")).
Defined.

(** C2 as written fails: in the same example the father is in the pruned
    registry although he is two meioses from the person of interest. *)
Lemma distant_parent_is_retained :
  load_gedcom family_of_three "Mary"
  = Ok (three_registry, three_table, Some "I1")
  ∧ ¬ retention_is_exact three_table three_registry 2 (Some "I1").
Proof.
  split; [apply load_family_of_three|]. intros H.
  destruct three_within as (_ & _ & H2). apply H2.
  apply (H three_table three_registry three_pruned (Some "I2")).
  vm_compute. eauto.
Qed.

(** ** Lines as the pattern reads them *)

(** *** Strings *)

Lemma string_app_cons c s t : String c s +:+ t = String c (s +:+ t).
Proof. reflexivity. Qed.

Lemma string_app_nil_l s : "" +:+ s = s.
Proof. reflexivity. Qed.

Lemma string_app_nil_r s : s +:+ "" = s.
Proof. induction s as [|c s IH]; [done|]. by rewrite string_app_cons, IH. Qed.

Lemma string_app_assoc a b c : (a +:+ b) +:+ c = a +:+ (b +:+ c).
Proof.
  induction a as [|x a IH]; [done|]. by rewrite !string_app_cons, IH.
Qed.

Lemma string_rev_app a b : String.rev_app a b = String.rev a +:+ b.
Proof.
  unfold String.rev. revert b.
  induction a as [|x a IH]; intros b; simpl; [done|].
  by rewrite (IH (String x b)), (IH (String x "")), string_app_assoc.
Qed.

Lemma string_rev_cons c s : String.rev (String c s) = String.rev s +:+ String c "".
Proof. unfold String.rev at 1. simpl. apply string_rev_app. Qed.

Lemma string_rev_append a b : String.rev (a +:+ b) = String.rev b +:+ String.rev a.
Proof.
  induction a as [|x a IH].
  - by rewrite string_app_nil_l, string_app_nil_r.
  - by rewrite string_app_cons, !string_rev_cons, IH, string_app_assoc.
Qed.

Lemma string_rev_involutive s : String.rev (String.rev s) = s.
Proof.
  induction s as [|c s IH]; [done|].
  by rewrite string_rev_cons, string_rev_append, IH.
Qed.

Lemma all_chars_append p a b :
  all_chars p (a +:+ b) = all_chars p a && all_chars p b.
Proof.
  induction a as [|x a IH]; [done|].
  rewrite string_app_cons. simpl. by rewrite IH, andb_assoc.
Qed.

Lemma all_chars_rev p s : all_chars p (String.rev s) = all_chars p s.
Proof.
  induction s as [|c s IH]; [done|].
  rewrite string_rev_cons, all_chars_append, IH. simpl.
  rewrite andb_true_r. apply andb_comm.
Qed.

Lemma lstrip_space s : all_chars Re.is_space s = true → Re.lstrip s = "".
Proof.
  induction s as [|c s IH]; simpl; [done|].
  intros [Hc Hs]%andb_true_iff. rewrite Hc. auto.
Qed.

Lemma lstrip_append a b :
  Re.lstrip (a +:+ b)
  = if all_chars Re.is_space a then Re.lstrip b else Re.lstrip a +:+ b.
Proof.
  induction a as [|x a IH]; [done|].
  rewrite string_app_cons. simpl.
  destruct (Re.is_space x); simpl; [apply IH | done].
Qed.

(** *** White space around a line *)

Lemma strip_append_space s ws :
  all_chars Re.is_space ws = true → Re.strip (s +:+ ws) = Re.strip s.
Proof.
  intros Hws. unfold Re.strip. rewrite lstrip_append.
  destruct (all_chars Re.is_space s) eqn:Hs.
  - rewrite (lstrip_space ws Hws), (lstrip_space s Hs). done.
  - rewrite string_rev_append, lstrip_append, all_chars_rev, Hws. done.
Qed.

Lemma strip_space_append ws s :
  all_chars Re.is_space ws = true → Re.strip (ws +:+ s) = Re.strip s.
Proof.
  intros Hws. unfold Re.strip. by rewrite lstrip_append, Hws.
Qed.

(** X1: white space (blanks, tabs, carriage returns, line feeds) before and
    after a line changes nothing of what the loop does with the line: line 66
    matches the pattern against [line.strip()]. *)
Theorem surrounding_whitespace_ignored poi_name st ws1 line ws2 :
  all_chars Re.is_space ws1 = true →
  all_chars Re.is_space ws2 = true →
  process_line poi_name st (ws1 +:+ line +:+ ws2)
  = process_line poi_name st line.
Proof.
  intros H1 H2. unfold process_line.
  by rewrite strip_space_append, strip_append_space.
Qed.

Lemma surrounding_whitespace_ignored_witness :
  process_line "Jane" init
    ("  " +:+ "0 @I1@ INDI" +:+ String "013" (String "010" ""))
  = process_line "Jane" init "0 @I1@ INDI".
Proof.
  by apply (surrounding_whitespace_ignored "Jane" init "  " "0 @I1@ INDI"
              (String "013" (String "010" ""))).
Defined.

Lemma lstrip_nonspace c s :
  Re.is_space c = false → Re.lstrip (String c s) = String c s.
Proof. intros H. simpl. by rewrite H. Qed.

(** [lstrip] removes a prefix. *)
Lemma lstrip_suffix s : ∃ ws, s = ws +:+ Re.lstrip s.
Proof.
  induction s as [|c s [ws IH]]; [by exists ""|]. simpl.
  destruct (Re.is_space c).
  - exists (String c ws). by rewrite string_app_cons, <- IH.
  - by exists "".
Qed.

Lemma digit_not_space c : Re.is_digit c = true → Re.is_space c = false.
Proof. by destruct c as [[] [] [] [] [] [] [] []]. Qed.

Lemma word_not_space c : Re.is_word c = true → Re.is_space c = false.
Proof. by destruct c as [[] [] [] [] [] [] [] []]. Qed.

Lemma all_chars_head p c s :
  all_chars p (String c s) = true → p c = true.
Proof. simpl. by intros [? _]%andb_true_iff. Qed.

(** A string that is not empty has a last character. *)
Lemma string_last s : s ≠ "" → ∃ a c, s = a +:+ String c "".
Proof.
  induction s as [|x s IH]; [done|]. intros _.
  destruct s as [|y s].
  - by exists "", x.
  - destruct IH as (a & c & Ha); [done|]. exists (String x a), c.
    by rewrite string_app_cons, <- Ha.
Qed.

Lemma all_chars_last p a c :
  all_chars p (a +:+ String c "") = true → p c = true.
Proof.
  rewrite all_chars_append. simpl. rewrite andb_true_r.
  by intros [_ ?]%andb_true_iff.
Qed.

(** [strip] leaves alone a prefix that has no white space at either end. *)
Lemma strip_prefix (q : ascii → bool) l t :
  (∀ c, q c = true → Re.is_space c = false) →
  l ≠ "" → all_chars q l = true →
  Re.strip (l +:+ t) = l +:+ String.rev (Re.lstrip (String.rev t)).
Proof.
  intros Hq Hl Hd. unfold Re.strip.
  assert (Re.lstrip (l +:+ t) = l +:+ t) as ->.
  { destruct l as [|c l]; [done|]. rewrite string_app_cons.
    apply lstrip_nonspace, Hq. by apply all_chars_head in Hd. }
  rewrite string_rev_append.
  assert (Re.lstrip (String.rev t +:+ String.rev l)
          = Re.lstrip (String.rev t) +:+ String.rev l) as ->.
  { rewrite lstrip_append.
    destruct (all_chars Re.is_space (String.rev t)) eqn:Ht; [|done].
    rewrite (lstrip_space _ Ht), string_app_nil_l.
    destruct (string_last l Hl) as (a & c & ->).
    rewrite string_rev_append. change (String.rev (String c "")) with (String c "").
    rewrite string_app_cons, string_app_nil_l.
    apply lstrip_nonspace, Hq. by apply all_chars_last in Hd. }
  by rewrite string_rev_append, string_rev_involutive.
Qed.

(** What [strip] leaves of [t] on the right is a prefix of [t]. *)
Lemma rstrip_prefix t : ∃ ws, t = String.rev (Re.lstrip (String.rev t)) +:+ ws.
Proof.
  destruct (lstrip_suffix (String.rev t)) as [ws Hws].
  exists (String.rev ws).
  by rewrite <- string_rev_append, <- Hws, string_rev_involutive.
Qed.

Lemma rstrip_tight a c :
  Re.is_space c = false →
  String.rev (Re.lstrip (String.rev (a +:+ String c ""))) = a +:+ String c "".
Proof.
  intros Hc. rewrite string_rev_append.
  change (String.rev (String c "")) with (String c "").
  rewrite string_app_cons, string_app_nil_l, (lstrip_nonspace _ _ Hc).
  rewrite string_rev_cons, string_rev_involutive. done.
Qed.

Lemma span_append p l r :
  all_chars p l = true → Re.span p r = ("", r) →
  Re.span p (l +:+ r) = (l, r).
Proof.
  intros Hl Hr. induction l as [|c l IH]; [done|].
  simpl in Hl. apply andb_true_iff in Hl as [Hc Hl].
  rewrite string_app_cons. simpl. by rewrite Hc, (IH Hl).
Qed.

Lemma span_all p l : all_chars p l = true → Re.span p l = (l, "").
Proof.
  intros H. rewrite <- (string_app_nil_r l) at 1. by apply span_append.
Qed.

(** The level is matched and then dropped: the groups depend on what
    follows it only. *)
Lemma match_line_level l1 l2 r :
  l1 ≠ "" → all_chars Re.is_digit l1 = true →
  l2 ≠ "" → all_chars Re.is_digit l2 = true →
  Re.span Re.is_digit r = ("", r) →
  Re.match_line (l1 +:+ r) = Re.match_line (l2 +:+ r).
Proof.
  intros H1 D1 H2 D2 Hr. unfold Re.match_line.
  rewrite (span_append _ l1 r D1 Hr), (span_append _ l2 r D2 Hr).
  by rewrite !decide_False.
Qed.

(** X2: the level number is matched and never used: two lines that differ
    in their level only are processed alike. *)
Theorem level_number_is_ignored poi_name st l1 l2 rest :
  l1 ≠ "" → all_chars Re.is_digit l1 = true →
  l2 ≠ "" → all_chars Re.is_digit l2 = true →
  process_line poi_name st (l1 +:+ " " +:+ rest)
  = process_line poi_name st (l2 +:+ " " +:+ rest).
Proof.
  intros H1 D1 H2 D2. unfold process_line.
  rewrite !(strip_prefix Re.is_digit) by (done || apply digit_not_space).
  rewrite (match_line_level l1 l2); [done..|].
  destruct (rstrip_prefix (" " +:+ rest)) as [ws Hws].
  destruct (String.rev (Re.lstrip (String.rev (" " +:+ rest)))) as [|c r];
    [done|].
  rewrite !string_app_cons, string_app_nil_l in Hws. by simplify_eq.
Qed.

Lemma level_number_is_ignored_witness :
  process_line "Jane" init ("0" +:+ " " +:+ "@I1@ INDI")
  = process_line "Jane" init ("12" +:+ " " +:+ "@I1@ INDI").
Proof.
  by apply (level_number_is_ignored "Jane" init "0" "12" "@I1@ INDI").
Defined.

(** *** The groups of a line that is well formed *)

Lemma tag_data_alone k tag :
  tag ≠ "" → all_chars Re.is_word tag = true →
  Re.tag_data k tag = Some (k, tag, None).
Proof.
  intros Ht Hw. unfold Re.tag_data. rewrite (span_all _ _ Hw).
  by rewrite decide_False.
Qed.

Lemma tag_data_with k tag d :
  tag ≠ "" → all_chars Re.is_word tag = true →
  all_chars Re.is_dot d = true →
  Re.tag_data k (tag +:+ " " +:+ d) = Some (k, tag, Some d).
Proof.
  intros Ht Hw Hd. unfold Re.tag_data.
  rewrite (span_append _ tag (" " +:+ d) Hw) by done.
  rewrite decide_False by done.
  rewrite string_app_cons, string_app_nil_l. by rewrite (span_all _ _ Hd).
Qed.

Lemma match_line_with_id level id r :
  level ≠ "" → all_chars Re.is_digit level = true →
  id ≠ "" → all_chars Re.is_word id = true →
  Re.match_line (level +:+ " @" +:+ id +:+ "@ " +:+ r)
  = Re.tag_data (Some id) r.
Proof.
  intros Hl Hd Hi Hw. unfold Re.match_line.
  rewrite (span_append _ level _ Hd) by done.
  rewrite decide_False by done.
  rewrite !string_app_cons, string_app_nil_l.
  rewrite <- (string_app_nil_l r), <- !string_app_cons.
  rewrite (span_append _ id _ Hw) by done.
  by rewrite decide_False.
Qed.

Lemma match_line_without_id level r :
  level ≠ "" → all_chars Re.is_digit level = true →
  (∃ c r', r = String c r' ∧ Re.is_word c = true) →
  Re.match_line (level +:+ " " +:+ r) = Re.tag_data None r.
Proof.
  intros Hl Hd (c & r' & -> & Hc). unfold Re.match_line.
  rewrite (span_append _ level _ Hd) by done.
  rewrite decide_False by done.
  rewrite !string_app_cons, string_app_nil_l.
  by destruct c as [[] [] [] [] [] [] [] []].
Qed.

Lemma strip_tight level s :
  level ≠ "" → all_chars Re.is_digit level = true →
  (∃ t c, s = t +:+ String c "" ∧ Re.is_space c = false) →
  Re.strip (level +:+ s) = level +:+ s.
Proof.
  intros Hl Hd (t & c & -> & Hc).
  rewrite (strip_prefix Re.is_digit) by (done || apply digit_not_space).
  by rewrite rstrip_tight.
Qed.

Lemma tight_prepend x s :
  (∃ t c, s = t +:+ String c "" ∧ Re.is_space c = false) →
  ∃ t c, x +:+ s = t +:+ String c "" ∧ Re.is_space c = false.
Proof.
  intros (t & c & -> & Hc). exists (x +:+ t), c.
  by rewrite string_app_assoc.
Qed.

Lemma tight_word tag :
  tag ≠ "" → all_chars Re.is_word tag = true →
  ∃ t c, tag = t +:+ String c "" ∧ Re.is_space c = false.
Proof.
  intros Ht Hw. destruct (string_last tag Ht) as (a & e & ->).
  exists a, e. split; [done|].
  apply word_not_space. by apply all_chars_last in Hw.
Qed.

Lemma word_head tag r :
  tag ≠ "" → all_chars Re.is_word tag = true →
  ∃ c r', tag +:+ r = String c r' ∧ Re.is_word c = true.
Proof.
  intros Ht Hw. destruct tag as [|c tag]; [done|].
  exists c, (tag +:+ r). split; [done|]. by apply all_chars_head in Hw.
Qed.

(** X3: a line made of a level, an optional identifier between [@] signs, a
    tag and optional data is read back as it was written: group 3 is the
    identifier ([None] without one), group 4 the tag and group 6 the data
    ([None] without data).  The level is made of digits, the identifier and
    the tag of word characters, the data has no line feed and does not end
    in white space. *)
Theorem line_groups level id tag :
  level ≠ "" → all_chars Re.is_digit level = true →
  id ≠ "" → all_chars Re.is_word id = true →
  tag ≠ "" → all_chars Re.is_word tag = true →
  Re.match_line (Re.strip (level +:+ " @" +:+ id +:+ "@ " +:+ tag))
  = Some (Some id, tag, None)
  ∧ Re.match_line (Re.strip (level +:+ " " +:+ tag)) = Some (None, tag, None)
  ∧ ∀ data c,
      all_chars Re.is_dot (data +:+ String c "") = true →
      Re.is_space c = false →
      Re.match_line
        (Re.strip (level +:+ " @" +:+ id +:+ "@ " +:+ tag
                   +:+ " " +:+ data +:+ String c ""))
      = Some (Some id, tag, Some (data +:+ String c ""))
      ∧ Re.match_line
          (Re.strip (level +:+ " " +:+ tag +:+ " " +:+ data +:+ String c ""))
        = Some (None, tag, Some (data +:+ String c "")).
Proof.
  intros Hl Hd Hi Hwi Ht Hwt.
  pose proof (tight_word tag Ht Hwt) as Htight.
  split; [|split].
  - rewrite strip_tight by (done || (repeat apply tight_prepend; first [done | by eexists "", _])).
    rewrite match_line_with_id by done. by apply tag_data_alone.
  - rewrite strip_tight by (done || (repeat apply tight_prepend; first [done | by eexists "", _])).
    rewrite <- (string_app_nil_r tag) at 1.
    rewrite match_line_without_id by (done || by apply word_head).
    rewrite string_app_nil_r. by apply tag_data_alone.
  - intros data c Hdot Hc.
    split.
    + rewrite strip_tight by (done || (repeat apply tight_prepend; first [done | by eexists "", _])).
      rewrite match_line_with_id by done. by apply tag_data_with.
    + rewrite strip_tight by (done || (repeat apply tight_prepend; first [done | by eexists "", _])).
      rewrite match_line_without_id by (done || by apply word_head).
      by apply tag_data_with.
Qed.

Lemma line_groups_witness :
  Re.match_line (Re.strip "0 @I1@ INDI") = Some (Some "I1", "INDI", None)
  ∧ Re.match_line (Re.strip "0 INDI") = Some (None, "INDI", None)
  ∧ ∀ data c,
      all_chars Re.is_dot (data +:+ String c "") = true →
      Re.is_space c = false →
      Re.match_line
        (Re.strip ("0" +:+ " @" +:+ "I1" +:+ "@ " +:+ "INDI"
                   +:+ " " +:+ data +:+ String c ""))
      = Some (Some "I1", "INDI", Some (data +:+ String c ""))
      ∧ Re.match_line
          (Re.strip ("0" +:+ " " +:+ "INDI" +:+ " " +:+ data
                     +:+ String c ""))
        = Some (None, "INDI", Some (data +:+ String c "")).
Proof.
  by apply (line_groups "0" "I1" "INDI").
Defined.

(** ** Further properties of the extractor *)

(** *** A [NAME] line *)

Lemma prefix_spec s h : String.prefix s h = true ↔ ∃ b, h = s +:+ b.
Proof.
  revert h. induction s as [|a s IH]; intros h.
  - split; [|by destruct h]. intros _. by exists h.
  - destruct h as [|c h]; simpl.
    + split; [done|]. by intros [b ?].
    + destruct (ascii_dec a c) as [->|Hn].
      * rewrite IH. split; intros [b Hb]; exists b.
        -- by rewrite string_app_cons, <- Hb.
        -- rewrite string_app_cons in Hb. by simplify_eq.
      * split; [done|]. intros [b Hb]. rewrite string_app_cons in Hb.
        by simplify_eq.
Qed.

(** [needle in hay]: the needle occurs in the hay as a run of consecutive
    characters. *)
Lemma contains_spec needle hay :
  Re.contains needle hay = true ↔ ∃ a b, hay = a +:+ needle +:+ b.
Proof.
  induction hay as [|c hay IH]; cbn [Re.contains].
  - rewrite orb_false_r, prefix_spec. split.
    + intros [b Hb]. by exists "", b.
    + intros (a & b & Hab). destruct a as [|x a]; [by exists b|].
      by rewrite string_app_cons in Hab.
  - rewrite orb_true_iff, prefix_spec, IH. split.
    + intros [[b Hb]|(a & b & Hab)].
      * by exists "", b.
      * exists (String c a), b. by rewrite string_app_cons, <- Hab.
    + intros (a & b & Hab). destruct a as [|x a].
      * left. by exists b.
      * right. rewrite string_app_cons in Hab. simplify_eq. by exists a, b.
Qed.

(** X4: a [NAME] line read while an individual is current, and registered,
    replaces the name of that individual by the data of the line and leaves
    the parentage table alone; the individual is appended to the candidates
    and flagged as person of interest exactly when the substring occurs in the
    data as a run of consecutive characters; otherwise the flag stays as it
    was. *)
Theorem name_stored_and_matched poi_name st l data c n s ph pf :
  classify l = Name data →
  current_person st = Some c →
  gedcom_dict st !! Some c = Some (Entry n s ph pf) →
  ∃ st',
    process_line poi_name st l = Ok st'
    ∧ trio_dict st' = trio_dict st
    ∧ ((∃ a b, data = a +:+ poi_name +:+ b) →
       poi_ids st' = poi_ids st ++ [Some c]
       ∧ gedcom_dict st' !! Some c = Some (Entry data s ph true))
    ∧ (¬ (∃ a b, data = a +:+ poi_name +:+ b) →
       poi_ids st' = poi_ids st
       ∧ gedcom_dict st' !! Some c = Some (Entry data s ph pf)).
Proof.
  intros Hl Hc He. rewrite process_line_exec, Hl. simpl.
  rewrite decide_True by (rewrite Hc; eauto).
  unfold set_name. rewrite Hc, He. eexists. split; [done|]. simpl.
  split; [done|]. rewrite lookup_insert_eq, <- contains_spec.
  by destruct (Re.contains poi_name data); split; intros H.
Qed.

Lemma name_stored_and_matched_witness :
  ∃ st',
    process_line "Doe" (open_indi (Some "I1") init) "1 NAME Jane /Doe/"
    = Ok st'
    ∧ trio_dict st' = trio_dict (open_indi (Some "I1") init)
    ∧ ((∃ a b, "Jane /Doe/" = a +:+ "Doe" +:+ b) →
       poi_ids st' = poi_ids (open_indi (Some "I1") init) ++ [Some "I1"]
       ∧ gedcom_dict st' !! Some "I1"
         = Some (Entry "Jane /Doe/" "U" false true))
    ∧ (¬ (∃ a b, "Jane /Doe/" = a +:+ "Doe" +:+ b) →
       poi_ids st' = poi_ids (open_indi (Some "I1") init)
       ∧ gedcom_dict st' !! Some "I1"
         = Some (Entry "Jane /Doe/" "U" false false)).
Proof.
  apply (name_stored_and_matched "Doe" (open_indi (Some "I1") init)
           "1 NAME Jane /Doe/" "Jane /Doe/" "I1" "" "U" false false).
  - vm_compute. reflexivity.
  - reflexivity.
  - simpl. apply lookup_insert_eq.
Defined.

(** *** The person of interest *)

Lemma name_hits_Some poi_name cur lines k :
  k ∈ name_hits poi_name cur lines → is_Some k.
Proof.
  revert cur. induction lines as [|l lines IH]; intros cur; simpl.
  { by intros ?%elem_of_nil. }
  destruct (classify l); try apply IH.
  case_decide as H; [|apply IH].
  intros [->|?]%elem_of_cons; [by destruct H | by eapply IH].
Qed.

(** X5: when the extraction fails, either a [SEX] line precedes the first
    [INDI] line and the error is the one raised for the failed lookup of
    [None]; or the error reports the number of candidates, which is not 1.
    That number is the length of [name_hits]: the number of lines that reach
    the [NAME] branch (tag [NAME], data present and not a reference) while the
    current individual is not [None] and whose data contains the substring,
    each such line counted once, also when several are lines of the same
    individual.  A [NAME] line read before the first [INDI] line, or under an
    [INDI] line without identifier, is not counted. *)
Theorem load_error_report lines poi_name e :
  load_gedcom lines poi_name = Raise e →
  (sex_before_indi lines = true ∧ e = ReadError (KeyError None))
  ∨ (sex_before_indi lines = false
     ∧ length (name_hits poi_name None lines) ≠ 1
     ∧ e = ReadError
             (PoiCountError (length (name_hits poi_name None lines)))).
Proof.
  unfold load_gedcom. intros He.
  pose proof (read_lines_raises poi_name lines init eq_refl
                (lookup_empty _)) as H.
  destruct (sex_before_indi lines).
  - left. rewrite H in He. simpl in He. by simplify_eq.
  - right. destruct H as [st Hr]. rewrite Hr in He. simpl in He.
    apply read_lines_poi_ids in Hr. simpl in Hr. rewrite <- Hr.
    unfold check_poi in He.
    destruct (poi_ids st) as [|q [|q' l]]; simplify_eq; done.
Qed.

Lemma load_error_report_witness :
  (sex_before_indi named_twice = true
   ∧ ReadError (PoiCountError 2) = ReadError (KeyError None))
  ∨ (sex_before_indi named_twice = false
     ∧ length (name_hits "Jane" None named_twice) ≠ 1
     ∧ ReadError (PoiCountError 2)
       = ReadError
           (PoiCountError (length (name_hits "Jane" None named_twice)))).
Proof.
  apply (load_error_report named_twice "Jane" (ReadError (PoiCountError 2))).
  vm_compute. reflexivity.
Defined.

(** X6: the person of interest that the extraction returns is an identifier
    (not [None]) and a key of the registry and of the parentage table. *)
Theorem poi_is_registered lines poi_name g t p :
  load_gedcom lines poi_name = Ok (g, t, p) →
  is_Some p ∧ is_Some (g !! p) ∧ is_Some (t !! p).
Proof.
  intros Hl.
  pose proof (load_gedcom_hits _ _ _ _ _ Hl) as [_ Hh].
  apply load_gedcom_ok in Hl as (st & Hr & Hp & <- & <-).
  destruct (read_lines_refs_inv _ _ _ Hr) as [_ I2 _ _ _ I6].
  assert (is_Some (gedcom_dict st !! p)) as Hg.
  { apply I6. rewrite Hp. by left. }
  split; [|by auto].
  apply (name_hits_Some poi_name None lines). rewrite Hh. by left.
Qed.

Lemma poi_is_registered_witness :
  is_Some (Some "I1") ∧ is_Some (three_registry !! Some "I1")
  ∧ is_Some (three_table !! Some "I1").
Proof.
  exact (poi_is_registered family_of_three "Mary" three_registry three_table
           (Some "I1") load_family_of_three).
Defined.

Lemma exec_flagged poi_name k st st' :
  (∀ q e, gedcom_dict st !! q = Some e → person_of_interest e = true →
          q ∈ poi_ids st) →
  exec poi_name k st = Ok st' →
  ∀ q e, gedcom_dict st' !! q = Some e → person_of_interest e = true →
         q ∈ poi_ids st'.
Proof.
  intros H He q e Hq Hf. destruct k; simpl in He.
  - simplify_eq. eauto.
  - simplify_eq. simpl in *. rewrite lookup_insert in Hq.
    case_decide; simplify_eq; eauto.
  - simplify_eq. eauto.
  - simplify_eq. eauto.
  - simplify_eq. eauto.
  - case_decide; simplify_eq; [by eauto|].
    change (gedcom_dict (set_trio id ?s)) with (gedcom_dict s) in Hq.
    change (poi_ids (set_trio id ?s)) with (poi_ids s).
    unfold fill_father, fill_mother in *.
    destruct (mother st) eqn:Em, (father st) eqn:Ef; simpl in *;
      rewrite ?Em, ?Ef in *; simpl in *;
      repeat (rewrite lookup_insert in Hq; case_decide; simplify_eq);
      eauto.
  - case_decide; [|simplify_eq; by eauto].
    unfold set_name in He.
    destruct (gedcom_dict st !! current_person st) as [e0|] eqn:E0;
      simplify_eq. simpl in *.
    rewrite lookup_insert in Hq. case_decide; simplify_eq.
    + simpl in Hf. destruct (Re.contains poi_name data).
      * apply elem_of_app. right. by left.
      * eauto.
    + destruct (Re.contains poi_name data); [|by eauto].
      apply elem_of_app. left. eauto.
  - unfold set_sex in He.
    destruct (gedcom_dict st !! current_person st) as [e0|] eqn:E0;
      simplify_eq. simpl in *.
    rewrite lookup_insert in Hq. case_decide; simplify_eq; eauto.
  - simplify_eq. eauto.
Qed.

(** X7: in the registry that the extraction returns, no entry but that of
    the person of interest returned is flagged as person of interest. *)
Theorem only_poi_is_flagged lines poi_name g t p k e :
  load_gedcom lines poi_name = Ok (g, t, p) →
  k ≠ p → g !! k = Some e → person_of_interest e = false.
Proof.
  intros (st & Hr & Hp & <- & _)%load_gedcom_ok Hkp Hk.
  destruct (person_of_interest e) eqn:Hf; [|done].
  assert (k ∈ poi_ids st) as Hin.
  { clear Hkp. revert k e Hk Hf.
    apply (read_lines_ind
             (λ st, ∀ q e, gedcom_dict st !! q = Some e →
                           person_of_interest e = true → q ∈ poi_ids st)
             poi_name) with (lines := lines) (st := init); [| |done].
    - intros k0 s s'. apply exec_flagged.
    - intros q e Hq. cbn in Hq. by rewrite lookup_empty in Hq. }
  rewrite Hp in Hin. by apply list_elem_of_singleton in Hin.
Qed.

Lemma only_poi_is_flagged_witness :
  person_of_interest (Entry "John /Doe/" "M" false false) = false.
Proof.
  apply (only_poi_is_flagged family_of_three "Mary" three_registry
           three_table (Some "I1") (Some "I2")
           (Entry "John /Doe/" "M" false false) load_family_of_three).
  - done.
  - vm_compute. reflexivity.
Defined.

(** *** Registry and parentage table *)

(** X8: every key of the registry that the extraction returns is a key of
    the parentage table; a key of the table that the registry lacks is the
    identifier of a [HUSB], [WIFE] or [CHIL] line that no [INDI] line
    declares. *)
Theorem registry_within_table lines poi_name g t p :
  load_gedcom lines poi_name = Ok (g, t, p) →
  (∀ k, is_Some (g !! k) → is_Some (t !! k))
  ∧ (∀ k, is_Some (t !! k) → g !! k = None →
          ∃ c, k = Some c ∧ c ∈ referenced_ids lines
               ∧ k ∉ declared_ids lines).
Proof.
  intros (st & Hr & Hp & <- & <-)%load_gedcom_ok.
  destruct (read_lines_refs_inv _ _ _ Hr) as [I1 I2 I3 _ _ _].
  split; [done|]. intros k Hk Hg.
  destruct (I3 k Hk) as [[e He]|(c & -> & Hc)]; [congruence|].
  exists c. split; [done|]. split; [done|].
  intros [e He]%I1. congruence.
Qed.

Lemma registry_within_table_witness :
  (∀ k, is_Some (three_registry !! k) → is_Some (three_table !! k))
  ∧ (∀ k, is_Some (three_table !! k) → three_registry !! k = None →
          ∃ c, k = Some c ∧ c ∈ referenced_ids family_of_three
               ∧ k ∉ declared_ids family_of_three).
Proof.
  exact (registry_within_table family_of_three "Mary" three_registry
           three_table (Some "I1") load_family_of_three).
Defined.

(** *** Placeholders *)

Lemma file_ids_snoc pre l :
  file_ids (pre ++ [l]) = file_ids pre ++ ids_of_line l.
Proof.
  unfold file_ids. rewrite bind_app. simpl. by rewrite app_nil_r.
Qed.

(** The identifiers that the dispatch hands to a branch are identifiers read
    in the line. *)
Lemma classify_ids l :
  match classify l with
  | Indi (Some s) | Husb s | Wife s | Chil s => s ∈ ids_of_line l
  | _ => True
  end.
Proof.
  unfold classify, ids_of_line.
  destruct (Re.match_line (Re.strip l)) as [[[id tag] [data|]]|]; simpl;
    [destruct (Re.match_ref data) as [r|] eqn:Hr|..]; simpl;
    repeat (case_decide; simpl); try done;
    try (apply elem_of_app; right; by left).
  destruct id; [|done]. apply elem_of_app. left. by left.
Qed.

Lemma placeholder_name_not_file pre n :
  (∀ id, id ∈ file_ids pre → String.prefix "Placeholder" id = false) →
  placeholder_name n ∉ file_ids pre.
Proof.
  intros H Hin. apply H in Hin. by rewrite placeholder_name_prefix in Hin.
Qed.

Lemma fill_mother_founders st : founders st → founders (fill_mother st).
Proof.
  intros H k e Hk Hf. unfold fill_mother in *.
  destruct (mother st); [by apply H|]. simpl in *.
  rewrite lookup_insert in Hk. case_decide; simplify_eq.
  - exists (S (placeholders_used st)). rewrite lookup_insert_eq. simpl.
    repeat split; auto with lia.
  - destruct (H k e Hk Hf) as (n & ? & ? & ? & ? & ? & ?).
    exists n. rewrite lookup_insert_ne by done. repeat split; auto with lia.
Qed.

Lemma fill_father_founders st : founders st → founders (fill_father st).
Proof.
  intros H k e Hk Hf. unfold fill_father in *.
  destruct (father st); [by apply H|]. simpl in *.
  rewrite lookup_insert in Hk. case_decide; simplify_eq.
  - exists (S (placeholders_used st)). rewrite lookup_insert_eq. simpl.
    repeat split; auto with lia.
  - destruct (H k e Hk Hf) as (n & ? & ? & ? & ? & ? & ?).
    exists n. rewrite lookup_insert_ne by done. repeat split; auto with lia.
Qed.

Lemma set_trio_founders id st :
  (∀ n, placeholder_name n ≠ id) → founders st → founders (set_trio id st).
Proof.
  intros Hid H k e Hk Hf.
  destruct (H k e Hk Hf) as (n & ? & -> & ? & ? & ? & ?).
  exists n. unfold set_trio. simpl.
  rewrite lookup_insert_ne by (intros ?; simplify_eq; by apply (Hid n)).
  done.
Qed.

Lemma exec_pristine poi_name pre l st st' :
  ((∀ id, id ∈ file_ids pre → String.prefix "Placeholder" id = false) →
   pristine pre st) →
  exec poi_name (classify l) st = Ok st' →
  (∀ id, id ∈ file_ids (pre ++ [l]) → String.prefix "Placeholder" id = false) →
  pristine (pre ++ [l]) st'.
Proof.
  intros HP He Hfile.
  assert (Hpre : ∀ id, id ∈ file_ids pre →
            String.prefix "Placeholder" id = false).
  { intros id Hid. apply Hfile. rewrite file_ids_snoc, elem_of_app. auto. }
  destruct (HP Hpre) as [Hent Hcur]. clear HP.
  assert (Hline : ∀ n, placeholder_name n ∉ ids_of_line l).
  { intros n Hin.
    apply (placeholder_name_not_file (pre ++ [l]) n Hfile).
    rewrite file_ids_snoc, elem_of_app. auto. }
  assert (Hcur' : ∀ s, current_person st = Some s → s ∈ file_ids (pre ++ [l])).
  { intros s Hs. rewrite file_ids_snoc, elem_of_app. auto. }
  assert (Hnotcur : ∀ n, current_person st ≠ Some (placeholder_name n)).
  { intros n Hn. by apply (placeholder_name_not_file pre n Hpre), Hcur. }
  pose proof (classify_ids l) as Hids.
  destruct (classify l) as [|id| |id|id|id|data|data|] eqn:Hc;
    simpl in He.
  - by simplify_eq.
  - simplify_eq. split.
    + intros k e Hk Hf. simpl in *. rewrite lookup_insert in Hk.
      case_decide; simplify_eq.
      rewrite lookup_insert_ne by done. by apply Hent.
    + intros s Hs. simpl in Hs. subst id.
      rewrite file_ids_snoc, elem_of_app. auto.
  - by simplify_eq.
  - by simplify_eq.
  - by simplify_eq.
  - case_decide; simplify_eq; [done|]. split.
    + apply set_trio_founders.
      * intros n Hn. subst id. by apply (Hline n).
      * by apply fill_father_founders, fill_mother_founders.
    + intros s Hs.
      change (current_person (set_trio id ?x)) with (current_person x) in Hs.
      rewrite fill_current in Hs. auto.
  - case_decide; [|by simplify_eq].
    unfold set_name in He.
    destruct (gedcom_dict st !! current_person st) as [e0|] eqn:E0;
      simplify_eq. split; [|done]. intros k e Hk Hf. simpl in *.
    rewrite lookup_insert in Hk. case_decide; simplify_eq.
    + simpl in Hf. destruct (Hent _ e0 E0 Hf) as (n & _ & Hn & _).
      by destruct (Hnotcur n).
    + by apply Hent.
  - unfold set_sex in He.
    destruct (gedcom_dict st !! current_person st) as [e0|] eqn:E0;
      simplify_eq. split; [|done]. intros k e Hk Hf. simpl in *.
    rewrite lookup_insert in Hk. case_decide; simplify_eq.
    + simpl in Hf. destruct (Hent _ e0 E0 Hf) as (n & _ & Hn & _).
      by destruct (Hnotcur n).
    + by apply Hent.
  - by simplify_eq.
Qed.

(** X9: when no identifier read in the input begins with the word
    Placeholder, every entry of the registry that is flagged as a placeholder
    is as it was made: its key is a placeholder name, its name is its key,
    its sex is "F" or "M", it is not the person of interest, and the table
    gives it no parents. *)
Theorem placeholders_are_founders lines poi_name g t p :
  load_gedcom lines poi_name = Ok (g, t, p) →
  (∀ id, id ∈ file_ids lines → String.prefix "Placeholder" id = false) →
  ∀ k e, g !! k = Some e → placeholder e = true →
    ∃ n, k = Some (placeholder_name n)
         ∧ name e = placeholder_name n
         ∧ (sex e = "F" ∨ sex e = "M")
         ∧ person_of_interest e = false
         ∧ t !! k = Some (None, None).
Proof.
  intros (st & Hr & _ & <- & <-)%load_gedcom_ok Hfile k e Hk Hf.
  assert ((∀ id, id ∈ file_ids lines →
             String.prefix "Placeholder" id = false) → pristine lines st)
    as HP.
  { revert Hr.
    apply (read_lines_ind_pre
             (λ pre st,
                (∀ id, id ∈ file_ids pre →
                   String.prefix "Placeholder" id = false) →
                pristine pre st) poi_name init).
    - intros _. split.
      + intros q e0 Hq. cbn in Hq. by rewrite lookup_empty in Hq.
      + intros s Hs. done.
    - intros pre l s s'. apply exec_pristine. }
  destruct (HP Hfile) as [Hent _].
  destruct (Hent k e Hk Hf) as (n & _ & ?). by exists n.
Qed.

Lemma load_one_orphan :
  load_gedcom one_orphan "Jane"
  = Ok (orphan_registry, orphan_table, Some "I1").
Proof.
  vm_cast_no_check (eq_refl (Ok (orphan_registry, orphan_table, Some "I1"))).
Qed.

Lemma placeholders_are_founders_witness :
  ∃ n, Some "Placeholder1" = Some (placeholder_name n)
       ∧ name (Entry "Placeholder1" "F" true false) = placeholder_name n
       ∧ (sex (Entry "Placeholder1" "F" true false) = "F"
          ∨ sex (Entry "Placeholder1" "F" true false) = "M")
       ∧ person_of_interest (Entry "Placeholder1" "F" true false) = false
       ∧ orphan_table !! Some "Placeholder1" = Some (None, None).
Proof.
  apply (placeholders_are_founders one_orphan "Jane" orphan_registry
           orphan_table (Some "I1") load_one_orphan).
  - intros id Hid.
    assert (file_ids one_orphan = [ "I1"; "F1"; "I1" ]) as Hf
      by (vm_compute; reflexivity).
    rewrite Hf in Hid.
    repeat (apply elem_of_cons in Hid as [->|Hid]; [reflexivity|]).
    by apply elem_of_nil in Hid.
  - vm_compute. reflexivity.
  - reflexivity.
Defined.

(** ** Further properties of the pruner *)

(** *** The two outputs *)

(** Who is in the output: a kept individual, or a parent carried over. *)
Lemma find_persons_members t g x poi keep nt ng :
  kept_ids t x poi = Ok keep →
  find_persons_less_than_x_meioses_from_poi t g x poi = Ok (nt, ng) →
  ∀ k, (is_Some (ng !! k) ↔
        k ∈ keep ∨ Exists (λ v, lone_parent t keep v = Some k) keep)
       ∧ (is_Some (nt !! k) ↔
          k ∈ keep ∨ Exists (λ v, lone_parent t keep v = Some k) keep).
Proof.
  intros Hkeep Hfind k.
  destruct (find_persons_output _ _ _ _ _ _ _ Hkeep Hfind)
    as (Hng & Hnt & Hvis).
  rewrite Hng, Hnt. split.
  - case_decide as Hd; [|split; [by intros [? ?] | done]].
    split; [done|]. intros _. destruct Hd as [Hin|Hex].
    + apply (proj1 (Hvis k Hin)).
    + apply Exists_exists in Hex as (v & Hv & Hl).
      by apply (proj2 (Hvis v Hv)).
  - repeat case_decide; split; eauto; try by intros [? ?].
    intros [?|?]; done.
Qed.

(** X10: the pruned parentage table and the pruned registry have the same
    keys. *)
Theorem pruned_tables_agree t g x poi nt ng :
  find_persons_less_than_x_meioses_from_poi t g x poi = Ok (nt, ng) →
  ∀ k, is_Some (nt !! k) ↔ is_Some (ng !! k).
Proof.
  intros Hfind k.
  destruct (find_persons_kept _ _ _ _ _ _ Hfind) as [keep Hkeep].
  destruct (find_persons_members _ _ _ _ _ _ _ Hkeep Hfind k) as [H1 H2].
  by rewrite H1, H2.
Qed.

Lemma pruned_tables_agree_witness :
  is_Some (three_table !! Some "I2") ↔ is_Some (three_registry !! Some "I2").
Proof.
  exact (pruned_tables_agree three_table three_registry 2 (Some "I1")
           three_table three_registry three_pruned (Some "I2")).
Defined.

(** X11: every entry of the pruned parentage table either names no parent
    or names two parents that both are keys of the pruned table and of the
    pruned registry. *)
Theorem pruned_table_closed t g x poi nt ng k m f :
  find_persons_less_than_x_meioses_from_poi t g x poi = Ok (nt, ng) →
  nt !! k = Some (m, f) →
  (m = None ∧ f = None)
  ∨ (is_Some (nt !! m) ∧ is_Some (nt !! f)
     ∧ is_Some (ng !! m) ∧ is_Some (ng !! f)).
Proof.
  intros Hfind Hk.
  destruct (find_persons_kept _ _ _ _ _ _ Hfind) as [keep Hkeep].
  pose proof (find_persons_members _ _ _ _ _ _ _ Hkeep Hfind) as Hmem.
  destruct (find_persons_output _ _ _ _ _ _ _ Hkeep Hfind) as (_ & Hnt & _).
  rewrite Hnt in Hk. case_decide as Hin.
  - unfold out_trio in Hk.
    destruct (t !! k) as [[m' f']|] eqn:Ht; [|simplify_eq; by left].
    case_decide as Hmf; simplify_eq; [|by left]. right.
    assert (Hout : ∀ q, q = m ∨ q = f →
              q ∈ keep ∨ Exists (λ v, lone_parent t keep v = Some q) keep).
    { intros q Hq. destruct (decide (q ∈ keep)) as [|Hn]; [by left|].
      right. apply Exists_exists. exists k. split; [done|].
      apply lone_parent_cases. exists m, f. split; [done|].
      destruct Hq as [->| ->], Hmf as [?|?]; try done; auto. }
    destruct (Hmem m) as [Hm1 Hm2], (Hmem f) as [Hf1 Hf2].
    rewrite Hm1, Hm2, Hf1, Hf2. repeat split; apply Hout; auto.
  - case_decide; simplify_eq. by left.
Qed.

Lemma pruned_table_closed_witness :
  (Some "I1" = None ∧ Some "I2" = None)
  ∨ (is_Some (three_table !! Some "I1") ∧ is_Some (three_table !! Some "I2")
     ∧ is_Some (three_registry !! Some "I1")
     ∧ is_Some (three_registry !! Some "I2")).
Proof.
  apply (pruned_table_closed three_table three_registry 2 (Some "I1")
           three_table three_registry (Some "I3") (Some "I1") (Some "I2")
           three_pruned).
  vm_compute. reflexivity.
Defined.

(** *** Small bounds *)

Lemma kept_list_nonpositive ms x i ids :
  (x ≤ 0)%Z → kept_list ms x i ids = [].
Proof.
  intros Hx. revert i. induction ids as [|y ids IH]; intros i; simpl; [done|].
  destruct (ms !! i) as [[d|]|]; simpl; rewrite ?IH; try done.
  rewrite bool_decide_eq_false_2 by lia. done.
Qed.

(** X12: with a bound of zero or less nobody is kept: when the pruner
    returns, it returns an empty table and an empty registry. *)
Theorem nonpositive_bound_prunes_all t g x poi :
  (x ≤ 0)%Z →
  is_ok (find_persons_less_than_x_meioses_from_poi t g x poi) = true →
  find_persons_less_than_x_meioses_from_poi t g x poi = Ok (∅, ∅).
Proof.
  intros Hx Hok.
  destruct (find_persons_less_than_x_meioses_from_poi t g x poi)
    as [[nt ng]|e] eqn:Hfind; [|done].
  apply find_persons_ok in Hfind as (ms & _ & Hloop).
  rewrite kept_list_nonpositive in Hloop by done.
  simpl in Hloop. by simplify_eq.
Qed.

Lemma within_one t poi k : within t poi 1 k ↔ k = poi.
Proof.
  split.
  - intros (d & Hp & Hd). destruct Hp; [done | lia].
  - intros ->. exists 0. split; [constructor | lia].
Qed.

(** X13: with a bound of one the pruner, when it returns, returns the person
    of interest alone, with its entry of the input registry and without
    parents (the person of interest is supposed not to be its own parent). *)
Theorem bound_one_keeps_poi_alone t g poi nt ng :
  find_persons_less_than_x_meioses_from_poi t g 1 poi = Ok (nt, ng) →
  (∀ m f, t !! poi = Some (m, f) → m ≠ poi ∧ f ≠ poi) →
  ∃ e, g !! poi = Some e
       ∧ nt = {[ poi := (None, None) ]} ∧ ng = {[ poi := e ]}.
Proof.
  intros Hfind Hself.
  destruct (find_persons_kept _ _ _ _ _ _ Hfind) as [keep Hkeep].
  assert (Hw : ∀ k, k ∈ keep ↔ k = poi).
  { intros k. by rewrite (kept_iff_within _ _ _ _ k Hkeep), within_one. }
  destruct (find_persons_output _ _ _ _ _ _ _ Hkeep Hfind)
    as (Hng & Hnt & Hvis).
  assert (Hlone : ∀ k, ¬ Exists (λ v, lone_parent t keep v = Some k) keep).
  { intros k (v & Hv & Hl)%Exists_exists. apply Hw in Hv as ->.
    apply lone_parent_cases in Hl as (m & f & Ht & Hc).
    destruct (Hself m f Ht) as [Hm Hf].
    rewrite !Hw in Hc. naive_solver. }
  destruct (Hvis poi) as [[e He] _]; [by apply Hw|].
  exists e. split; [done|]. split.
  - apply map_eq. intros k. rewrite Hnt, lookup_singleton.
    destruct (decide (k = poi)) as [->|Hk].
    + rewrite decide_True by (by apply Hw). rewrite decide_True by done.
      f_equal. unfold out_trio.
      destruct (t !! poi) as [[m f]|] eqn:Ht; [|done].
      destruct (Hself m f eq_refl) as [Hm Hf].
      rewrite decide_False; [done|]. rewrite !Hw. by intros [?|?].
    + rewrite decide_False by (by rewrite Hw).
      rewrite decide_False by apply Hlone.
      by rewrite decide_False by done.
  - apply map_eq. intros k. rewrite Hng, lookup_singleton.
    destruct (decide (k = poi)) as [->|Hk].
    + rewrite decide_True by (left; by apply Hw).
      by rewrite decide_True by done.
    + rewrite decide_False.
      * by rewrite decide_False by done.
      * rewrite Hw. intros [?|?]; [done|]. by apply (Hlone k).
Qed.

Lemma nonpositive_bound_prunes_all_witness :
  find_persons_less_than_x_meioses_from_poi three_table three_registry
    0 (Some "I1") = Ok (∅, ∅).
Proof.
  apply (nonpositive_bound_prunes_all three_table three_registry 0
           (Some "I1")).
  - lia.
  - vm_compute. reflexivity.
Defined.

Lemma three_pruned_1 :
  find_persons_less_than_x_meioses_from_poi three_table three_registry
    1 (Some "I1")
  = Ok ({[ Some "I1" := (None, None) ]},
        {[ Some "I1" := Entry "Mary /Roe/" "F" false true ]}).
Proof.
  vm_cast_no_check
    (eq_refl (Ok (({[ Some "I1" := (None, None) ]} : gmap key (key * key)),
                  ({[ Some "I1" := Entry "Mary /Roe/" "F" false true ]}
                   : gmap key entry)))).
Qed.

Lemma bound_one_keeps_poi_alone_witness :
  ∃ e, three_registry !! Some "I1" = Some e
       ∧ ({[ Some "I1" := (None, None) ]} : gmap key (key * key))
         = {[ Some "I1" := (None, None) ]}
       ∧ ({[ Some "I1" := Entry "Mary /Roe/" "F" false true ]}
          : gmap key entry) = {[ Some "I1" := e ]}.
Proof.
  apply (bound_one_keeps_poi_alone three_table three_registry (Some "I1")
           _ _ three_pruned_1).
  intros m f Ht.
  assert (three_table !! Some "I1" = Some (None, None)) as Ht'
    by (vm_compute; reflexivity).
  rewrite Ht' in Ht. by simplify_eq.
Defined.

(** *** Larger and smaller bounds *)

Lemma closer_than_mono x y d :
  (x ≤ y)%Z → closer_than x d = true → closer_than y d = true.
Proof.
  intros Hxy. destruct d as [d|]; simpl; [|done].
  rewrite !bool_decide_eq_true. lia.
Qed.

Lemma kept_list_mono ms x y ids k :
  (x ≤ y)%Z → k ∈ kept_list ms x 0 ids → k ∈ kept_list ms y 0 ids.
Proof.
  intros Hxy. rewrite !elem_of_kept_list.
  intros (j & d & ? & ? & ?). exists j, d.
  eauto using closer_than_mono.
Qed.

(** A parent carried over for a smaller bound is kept or carried over for a
    larger one. *)
Lemma lone_parent_mono t keep keep' v co :
  (∀ k, k ∈ keep → k ∈ keep') →
  v ∈ keep → lone_parent t keep v = Some co →
  co ∈ keep' ∨ lone_parent t keep' v = Some co.
Proof.
  intros Hsub Hv (m & f & Ht & Hc)%lone_parent_cases.
  destruct (decide (co ∈ keep')) as [|Hn]; [by left|]. right.
  apply lone_parent_cases. exists m, f. split; [done|].
  destruct Hc as [(? & ? & ->)|(? & ? & ->)]; auto.
Qed.

(** X14: when the pruner returns for a bound, it returns for every smaller
    bound, and the registry pruned with the smaller bound is included in the
    one pruned with the larger. *)
Theorem bound_monotone t g x y poi nt' ng' :
  (x ≤ y)%Z →
  find_persons_less_than_x_meioses_from_poi t g y poi = Ok (nt', ng') →
  ∃ nt ng,
    find_persons_less_than_x_meioses_from_poi t g x poi = Ok (nt, ng)
    ∧ ng ⊆ ng'.
Proof.
  intros Hxy Hfind.
  pose proof Hfind as (ms & Hms & Hloop)%find_persons_ok.
  set (keep := kept_list ms x 0 (keys_of t)).
  set (keep' := kept_list ms y 0 (keys_of t)) in *.
  assert (Hkeep' : kept_ids t y poi = Ok keep') by (apply kept_ids_ok; eauto).
  assert (Hkeep : kept_ids t x poi = Ok keep) by (apply kept_ids_ok; eauto).
  assert (Hsub : ∀ k, k ∈ keep → k ∈ keep') by (intros k; by apply kept_list_mono).
  destruct (find_persons_output _ _ _ _ _ _ _ Hkeep' Hfind)
    as (Hng' & _ & Hvis').
  destruct (prune_loop_returns t g keep keep (∅, ∅)) as ([ng nt] & Hl).
  { intros v Hv. split; [apply (proj1 (Hvis' v (Hsub v Hv)))|]. split.
    - apply elem_of_keys_of. by eapply kept_is_key.
    - intros co Hco.
      destruct (lone_parent_mono t keep keep' v co Hsub Hv Hco) as [Hin|Hl].
      + apply (proj1 (Hvis' co Hin)).
      + by apply (proj2 (Hvis' v (Hsub v Hv))). }
  assert (Hfind0 : find_persons_less_than_x_meioses_from_poi t g x poi
                   = Ok (nt, ng)) by (apply find_persons_ok; eauto).
  exists nt, ng. split; [done|].
  destruct (find_persons_output _ _ _ _ _ _ _ Hkeep Hfind0) as (Hng & _ & _).
  apply map_subseteq_spec. intros k e Hk.
  rewrite Hng in Hk. rewrite Hng'. case_decide as Hd; [|done].
  rewrite decide_True; [done|]. destruct Hd as [Hin|Hex]; [by auto|].
  apply Exists_exists in Hex as (v & Hv & Hco).
  destruct (lone_parent_mono t keep keep' v k Hsub Hv Hco) as [?|?];
    [by left|]. right. apply Exists_exists. eauto.
Qed.

Lemma bound_monotone_witness :
  ∃ nt ng,
    find_persons_less_than_x_meioses_from_poi three_table three_registry
      1 (Some "I1") = Ok (nt, ng)
    ∧ ng ⊆ three_registry.
Proof.
  apply (bound_monotone three_table three_registry 1 2 (Some "I1")
           three_table three_registry); [lia | apply three_pruned].
Defined.

(** *** The person of interest in the output of [main] *)

(** X18: when [main] returns with a bound of at least one, the identifier it
    returns is the one that the extraction found, it is a key of the pruned
    table and of the pruned registry, its entry is the one that the extraction
    made, and the pruned registry is included in the extracted one. *)
Theorem main_keeps_poi lines x poi_name nt ng p :
  (1 ≤ x)%Z →
  main lines x poi_name = Ok (nt, ng, p) →
  ∃ g t, load_gedcom lines poi_name = Ok (g, t, p)
         ∧ is_Some p
         ∧ is_Some (g !! p) ∧ ng !! p = g !! p ∧ is_Some (nt !! p)
         ∧ ng ⊆ g.
Proof.
  intros Hx Hmain. unfold main in Hmain.
  destruct (load_gedcom lines poi_name) as [[[g t] q]|e] eqn:Hload;
    simpl in Hmain; [|done].
  destruct (find_persons_less_than_x_meioses_from_poi t g x q)
    as [[nt0 ng0]|e] eqn:Hfind; simpl in Hmain; [|done].
  simplify_eq. exists g, t. split; [done|].
  pose proof (load_gedcom_hits _ _ _ _ _ Hload) as [_ Hh].
  split.
  { apply (name_hits_Some poi_name None lines). rewrite Hh. by left. }
  destruct (find_persons_kept _ _ _ _ _ _ Hfind) as [keep Hkeep].
  assert (p ∈ keep) as Hin.
  { apply (kept_iff_within _ _ _ _ p Hkeep). exists 0.
    split; [constructor | lia]. }
  destruct (find_persons_output _ _ _ _ _ _ _ Hkeep Hfind)
    as (Hng & Hnt & Hvis).
  split; [apply (proj1 (Hvis p Hin))|]. split; [|split].
  - rewrite Hng. rewrite decide_True; [done | by left].
  - rewrite Hnt. rewrite decide_True by done. eauto.
  - apply map_subseteq_spec. intros k e Hk. rewrite Hng in Hk.
    by case_decide.
Qed.

Lemma main_family_of_three :
  main family_of_three 2 "Mary"
  = Ok (three_table, three_registry, Some "I1").
Proof.
  unfold main. rewrite load_family_of_three. simpl.
  by rewrite three_pruned.
Qed.

Lemma main_keeps_poi_witness :
  ∃ g t, load_gedcom family_of_three "Mary" = Ok (g, t, Some "I1")
         ∧ is_Some (Some "I1")
         ∧ is_Some (g !! Some "I1")
         ∧ three_registry !! Some "I1" = g !! Some "I1"
         ∧ is_Some (three_table !! Some "I1")
         ∧ three_registry ⊆ g.
Proof.
  apply (main_keeps_poi family_of_three 2 "Mary" three_table three_registry
           (Some "I1")); [lia | apply main_family_of_three].
Defined.

(** *** How the pruner fails *)

Lemma index_raises l k e : index l k = Raise e → e = ValueError k ∧ k ∉ l.
Proof.
  unfold index. destruct (index_of k l) eqn:E; [done|].
  intros ?; simplify_eq. split; [done|]. by apply index_of_None.
Qed.

(** Building the edges fails only at a parent that is not among the keys. *)
Lemma adjacency_raises t ids i children rows cols e :
  (∀ c, c ∈ children → is_Some (t !! c)) →
  adjacency t ids i children rows cols = Raise e →
  ∃ k c m f, e = ValueError k ∧ (k ∉ ids) ∧ c ∈ children
             ∧ t !! c = Some (m, f) ∧ is_Some m ∧ (k = m ∨ k = f).
Proof.
  revert i rows cols.
  induction children as [|c rest IH]; intros i rows cols Hkeys; [done|].
  assert (Hrest : ∀ c', c' ∈ rest → is_Some (t !! c'))
    by (intros; apply Hkeys; by right).
  assert (Hlift : (∃ k c0 m f, e = ValueError k ∧ (k ∉ ids) ∧ c0 ∈ rest
                     ∧ t !! c0 = Some (m, f) ∧ is_Some m ∧ (k = m ∨ k = f))
                  → ∃ k c0 m f, e = ValueError k ∧ (k ∉ ids) ∧ c0 ∈ c :: rest
                     ∧ t !! c0 = Some (m, f) ∧ is_Some m ∧ (k = m ∨ k = f)).
  { intros (k & c0 & m & f & ? & ? & ? & ?). exists k, c0, m, f.
    repeat split; try tauto. by right. }
  destruct (Hkeys c) as [[m f] Hc]; [by left|].
  cbn [adjacency]. unfold getitem. rewrite Hc. simpl.
  destruct m as [sm|]; [|intros H; by apply Hlift, (IH _ _ _ Hrest H)].
  destruct (index ids (Some sm)) as [mi|e1] eqn:Em; simpl.
  - destruct (index ids f) as [fi|e2] eqn:Ef; simpl.
    + intros H. by apply Hlift, (IH _ _ _ Hrest H).
    + intros ?; simplify_eq. apply index_raises in Ef as [-> Hf].
      exists f, c, (Some sm), f. repeat split; eauto. by left.
  - intros ?; simplify_eq. apply index_raises in Em as [-> Hm].
    exists (Some sm), c, (Some sm), f. repeat split; eauto. by left.
Qed.

(** The loop that builds the output fails only at an individual that the
    registry does not have. *)
Lemma prune_loop_raises t g keep acc todo e :
  (∀ v, v ∈ todo → is_Some (t !! v)) →
  prune_loop t g keep acc todo = Raise e →
  ∃ k, e = KeyError k ∧ g !! k = None.
Proof.
  revert acc. induction todo as [|v rest IH]; intros [ng nt] Hkeys; [done|].
  cbn [prune_loop]. rewrite prune_step_unfold. unfold getitem.
  destruct (Hkeys v) as [p Hp]; [by left|]. rewrite Hp.
  destruct (g !! v) as [ev|] eqn:Ev; simpl; [|intros; simplify_eq; eauto].
  assert (Hrest : ∀ v', v' ∈ rest → is_Some (t !! v'))
    by (intros; apply Hkeys; by right).
  destruct (lone_parent t keep v) as [co|]; simpl.
  - destruct (g !! co) as [eco|] eqn:Eco; simpl.
    + by apply IH.
    + intros; simplify_eq; eauto.
  - by apply IH.
Qed.

(** X15: when the person of interest is not a key of the table the pruner
    raises the error of [list.index] for it.  Whenever the pruner raises, it
    raises that error for the person of interest or for a parent named in the
    table, neither being a key of the table, or the error of a failed lookup
    for an individual that the registry does not have. *)
Theorem pruner_errors t g x poi :
  (t !! poi = None →
   find_persons_less_than_x_meioses_from_poi t g x poi
   = Raise (ValueError poi))
  ∧ ∀ e,
      find_persons_less_than_x_meioses_from_poi t g x poi = Raise e →
      (∃ k, e = ValueError k ∧ t !! k = None
            ∧ (k = poi
               ∨ ∃ c m f, t !! c = Some (m, f) ∧ is_Some m
                          ∧ (k = m ∨ k = f)))
      ∨ (∃ k, e = KeyError k ∧ g !! k = None).
Proof.
  assert (Hnokey : ∀ k, k ∉ keys_of t → t !! k = None).
  { intros k Hk. apply eq_None_not_Some. by rewrite <- elem_of_keys_of. }
  split.
  - intros Hpoi.
    unfold find_persons_less_than_x_meioses_from_poi, kept_ids, meioses_of,
      index.
    assert (index_of poi (keys_of t) = None) as ->; [|done].
    apply index_of_None. rewrite elem_of_keys_of, Hpoi. by intros [? ?].
  - intros e.
    unfold find_persons_less_than_x_meioses_from_poi.
    destruct (kept_ids t x poi) as [keep|e0] eqn:Hkeep; simpl.
    + apply kept_ids_ok in Hkeep as (ms & _ & ->).
      destruct (prune_loop _ _ _ _ _) as [[ng nt]|e1] eqn:Hloop; simpl;
        [done|].
      intros ?; simplify_eq. right.
      apply (prune_loop_raises _ _ _ _ _ _ ltac:(
               intros v Hv; apply elem_of_keys_of;
               by eapply kept_is_key) Hloop).
    + intros ?; simplify_eq. left.
      unfold kept_ids in Hkeep.
      destruct (meioses_of t poi) as [ms|e1] eqn:Hms; simpl in Hkeep.
      { rewrite ids_to_keep_ok in Hkeep; [done|].
        rewrite (meioses_of_length _ _ _ Hms). simpl. lia. }
      simplify_eq. unfold meioses_of in Hms.
      destruct (index (keys_of t) poi) as [pi|e2] eqn:Hpi; simpl in Hms.
      * destruct (adjacency _ _ _ _ _ _) as [[rows cols]|e3] eqn:Hadj;
          simpl in Hms; simplify_eq.
        apply adjacency_raises in Hadj
          as (k & c & m & f & -> & Hk & _ & Hc & Hm & Hkm);
          [|intros c; apply elem_of_keys_of].
        exists k. split; [done|]. split; [by apply Hnokey|].
        right. by exists c, m, f.
      * simplify_eq. apply index_raises in Hpi as [-> Hk].
        exists poi. split; [done|]. split; [by apply Hnokey | by left].
Qed.

(** *** The output is one pedigree *)

(** A meiosis between two kept individuals is a meiosis of the output
    table. *)
Lemma linked_kept t g x poi keep nt ng b c :
  kept_ids t x poi = Ok keep →
  find_persons_less_than_x_meioses_from_poi t g x poi = Ok (nt, ng) →
  b ∈ keep → c ∈ keep → linked t b c → linked nt b c.
Proof.
  intros Hkeep Hfind Hb Hc Hl.
  destruct (find_persons_output _ _ _ _ _ _ _ Hkeep Hfind) as (_ & Hnt & _).
  assert (Hpar : ∀ u v, u ∈ keep → v ∈ keep →
            parent_of t u v → parent_of nt u v).
  { intros u v Hu Hv (m & f & Ht & Hm & Hvm). exists m, f.
    split; [|done]. rewrite Hnt, decide_True by done. f_equal.
    unfold out_trio. rewrite Ht. rewrite decide_True; [done|].
    destruct Hvm as [<-|<-]; auto. }
  destruct Hl as [?|?]; [left | right]; by apply Hpar.
Qed.

(** X16: when every entry of the input table has both parents or none, every
    individual of the pruned registry is joined to the person of interest by
    a chain of meioses of the pruned table, of length at most the bound. *)
Theorem pruned_pedigree_connected t g x poi nt ng :
  both_or_neither t →
  find_persons_less_than_x_meioses_from_poi t g x poi = Ok (nt, ng) →
  ∀ k, is_Some (ng !! k) →
       ∃ d, meioses_path nt poi d k ∧ (Z.of_nat d ≤ x)%Z.
Proof.
  intros Hpair Hfind k Hk.
  destruct (find_persons_kept _ _ _ _ _ _ Hfind) as [keep Hkeep].
  pose proof (λ q, kept_iff_within t x poi keep q Hkeep) as Hw.
  destruct (find_persons_output _ _ _ _ _ _ _ Hkeep Hfind)
    as (Hng & Hnt & _).
  assert (Hpath : ∀ d q, meioses_path t poi d q → (Z.of_nat d < x)%Z →
            meioses_path nt poi d q).
  { intros d q Hp. induction Hp as [|d b c Hp IH Hl]; intros Hd.
    - constructor.
    - apply (path_step _ _ d b c); [apply IH; lia|].
      apply (linked_kept t g x poi keep nt ng); try done.
      + apply Hw. exists d. split; [done | lia].
      + apply Hw. exists (S d). split; [by econstructor | done]. }
  rewrite Hng in Hk. case_decide as Hd; [|by destruct Hk].
  destruct (decide (k ∈ keep)) as [Hin|Hout].
  { apply Hw in Hin as (d & Hp & Hlt). exists d. split; [by apply Hpath | lia]. }
  destruct Hd as [?|Hex]; [done|].
  apply Exists_exists in Hex as (v & Hv & Hlone).
  apply Hw in Hv as Hvw. destruct Hvw as (d & Hp & Hlt).
  exists (S d). split; [|lia].
  apply (path_step _ _ d v k); [by apply Hpath|]. left.
  apply lone_parent_cases in Hlone as (m & f & Ht & Hc).
  exists m, f. split.
  { rewrite Hnt, decide_True by done. f_equal. unfold out_trio. rewrite Ht.
    rewrite decide_True; [done|]. destruct Hc as [(? & _)|(_ & ? & _)]; auto. }
  destruct (Hpair v _ Ht) as [[Hm Hf]|[Hm Hf]]; simpl in *.
  - subst. destruct Hc as [(? & ? & _)|(? & ? & _)]; done.
  - split; [done|]. destruct Hc as [(_ & _ & ->)|(_ & _ & ->)]; auto.
Qed.

Lemma three_paired : both_or_neither three_table.
Proof.
  destruct (proj1 (load_gedcom_ok _ _ _ _ _) load_family_of_three)
    as (st & Hr & _ & _ & <-).
  by eapply read_lines_paired.
Qed.

Lemma pruned_pedigree_connected_witness :
  ∃ d, meioses_path three_table (Some "I1") d (Some "I2")
       ∧ (Z.of_nat d ≤ 2)%Z.
Proof.
  apply (pruned_pedigree_connected three_table three_registry 2 (Some "I1")
           three_table three_registry three_paired three_pruned).
  vm_compute. eauto.
Defined.

(** *** Pruning twice *)

Lemma lone_parent_ext t keep keep' v :
  (∀ k, k ∈ keep ↔ k ∈ keep') →
  lone_parent t keep v = lone_parent t keep' v.
Proof.
  intros H. unfold lone_parent. destruct (t !! v) as [[m f]|]; [|done].
  repeat case_decide; try done; exfalso; rewrite ?H in *; tauto.
Qed.

Lemma out_trio_ext t keep keep' v :
  (∀ k, k ∈ keep ↔ k ∈ keep') →
  out_trio t keep v = out_trio t keep' v.
Proof.
  intros H. unfold out_trio. destruct (t !! v) as [[m f]|]; [|done].
  repeat case_decide; try done; exfalso; rewrite ?H in *; tauto.
Qed.

(** For a kept individual the output table says what the loop would do with
    it again. *)
Lemma lone_parent_again t keep v :
  is_Some (t !! v) →
  lone_parent (<[v := out_trio t keep v]> ∅) keep v = lone_parent t keep v
  ∧ out_trio (<[v := out_trio t keep v]> ∅) keep v = out_trio t keep v.
Proof.
  intros [[m f] Ht]. unfold lone_parent, out_trio.
  rewrite !lookup_insert_eq, Ht.
  repeat case_decide; try done; exfalso; tauto.
Qed.

(** X17: for a bound of at least one and an input table whose entries have
    both parents or none, pruning the output of the pruner again, with the
    same bound and person of interest, returns it unchanged. *)
Theorem pruning_is_idempotent t g x poi nt ng :
  (1 ≤ x)%Z →
  both_or_neither t →
  find_persons_less_than_x_meioses_from_poi t g x poi = Ok (nt, ng) →
  find_persons_less_than_x_meioses_from_poi nt ng x poi = Ok (nt, ng).
Proof.
  intros Hx Hpair Hfind.
  destruct (find_persons_kept _ _ _ _ _ _ Hfind) as [keep Hkeep].
  pose proof (λ q, kept_iff_within t x poi keep q Hkeep) as Hw.
  pose proof (find_persons_members _ _ _ _ _ _ _ Hkeep Hfind) as Hmem.
  destruct (find_persons_output _ _ _ _ _ _ _ Hkeep Hfind)
    as (Hng & Hnt & Hvis).
  assert (Hkey : ∀ v, v ∈ keep → is_Some (t !! v)).
  { intros v Hv. apply elem_of_keys_of.
    apply kept_ids_ok in Hkeep as (ms & _ & ->). by eapply kept_is_key. }
  assert (Hpoi : poi ∈ keep).
  { apply Hw. exists 0. split; [constructor | lia]. }
  (* the entries of the output table *)
  assert (Hentry : ∀ v, v ∈ keep →
            nt !! v = Some (out_trio t keep v)).
  { intros v Hv. by rewrite Hnt, decide_True. }
  assert (Hcarried : ∀ k, k ∉ keep → is_Some (nt !! k) →
            nt !! k = Some (None, None)).
  { intros k Hk Hs. rewrite Hnt in Hs |- *. rewrite decide_False in * by done.
    case_decide; [done | by destruct Hs]. }
  (* the second run returns *)
  destruct (find_persons_returns nt ng x poi) as (nt2 & ng2 & Hfind2).
  { intros k p Hk. rewrite Hnt in Hk. repeat case_decide; simplify_eq.
    - by apply out_trio_paired.
    - by left. }
  { intros k m f s Hk Hs.
    destruct (decide (k ∈ keep)) as [Hin|Hout].
    - rewrite (Hentry k Hin) in Hk. simplify_eq.
      destruct (Hkey k Hin) as [[m' f'] Ht].
      unfold out_trio in Hk. rewrite Ht in Hk.
      case_decide as Hmf; simplify_eq; [|by destruct Hs].
      apply (proj2 (Hmem (Some s))).
      destruct (decide (Some s ∈ keep)) as [|Hn]; [by left|]. right.
      apply Exists_exists. exists k. split; [done|].
      apply lone_parent_cases. exists m, f. split; [done|].
      destruct Hs as [->| ->], Hmf as [?|?]; try done; auto.
    - rewrite Hcarried in Hk by eauto. simplify_eq. by destruct Hs. }
  { intros k Hk. apply (proj1 (Hmem k)), (proj2 (Hmem k)), Hk. }
  { rewrite (Hentry poi Hpoi). eauto. }
  (* it keeps the same individuals *)
  destruct (find_persons_kept _ _ _ _ _ _ Hfind2) as [keep2 Hkeep2].
  pose proof (λ q, kept_iff_within nt x poi keep2 q Hkeep2) as Hw2.
  assert (Hback : ∀ b c, linked nt b c → linked t b c).
  { assert (∀ u v, parent_of nt u v → parent_of t u v) as Hpar.
    { intros u v (m & f & Hu & Hm & Hv).
      destruct (decide (u ∈ keep)) as [Hin|Hout].
      - rewrite (Hentry u Hin) in Hu. simplify_eq.
        destruct (Hkey u Hin) as [[m' f'] Ht].
        unfold out_trio in Hu. rewrite Ht in Hu.
        case_decide; simplify_eq; [|by destruct Hm].
        by exists m, f.
      - rewrite Hcarried in Hu by eauto. simplify_eq. by destruct Hm. }
    intros b c [?|?]; [left | right]; by apply Hpar. }
  assert (Hsame : ∀ k, k ∈ keep2 ↔ k ∈ keep).
  { intros k. rewrite Hw, Hw2. split; intros (d & Hp & Hd); exists d;
      (split; [|done]).
    - clear Hd. induction Hp as [|d b c Hp IH Hl]; [constructor|].
      apply (path_step _ _ d b c); [done | by apply Hback].
    - revert Hd. induction Hp as [|d b c Hp IH Hl]; intros Hd; [constructor|].
      apply (path_step _ _ d b c); [apply IH; lia|].
      apply (linked_kept t g x poi keep nt ng); try done.
      + apply Hw. exists d. split; [done | lia].
      + apply Hw. exists (S d). split; [by econstructor | done]. }
  assert (Hlone : ∀ v, v ∈ keep →
            lone_parent nt keep2 v = lone_parent t keep v
            ∧ out_trio nt keep2 v = out_trio t keep v).
  { intros v Hv.
    rewrite (lone_parent_ext nt keep2 keep v Hsame),
      (out_trio_ext nt keep2 keep v Hsame).
    destruct (lone_parent_again t keep v (Hkey v Hv)) as [H1 H2].
    unfold lone_parent, out_trio in *.
    rewrite !lookup_insert_eq in H1, H2. by rewrite (Hentry v Hv). }
  assert (Hex : ∀ k, Exists (λ v, lone_parent nt keep2 v = Some k) keep2
                     ↔ Exists (λ v, lone_parent t keep v = Some k) keep).
  { intros k. rewrite !Exists_exists.
    split; intros (v & Hv & Hl); exists v.
    - apply Hsame in Hv. by rewrite <- (proj1 (Hlone v Hv)).
    - split; [by apply Hsame|]. by rewrite (proj1 (Hlone v Hv)). }
  destruct (find_persons_output _ _ _ _ _ _ _ Hkeep2 Hfind2)
    as (Hng2 & Hnt2 & _).
  rewrite Hfind2. do 2 f_equal; apply map_eq; intros k.
  - rewrite Hnt2, Hnt.
    destruct (decide (k ∈ keep)) as [Hin|Hout].
    + rewrite decide_True by (by apply Hsame).
      by rewrite (proj2 (Hlone k Hin)).
    + rewrite decide_False by (by rewrite Hsame).
      repeat case_decide; try done; exfalso; rewrite Hex in *; tauto.
  - rewrite Hng2, (Hng k).
    repeat case_decide; try done; exfalso; rewrite ?Hex, ?Hsame in *; tauto.
Qed.

Lemma pruning_is_idempotent_witness :
  find_persons_less_than_x_meioses_from_poi
    {[ Some "I1" := (None, None) ]}
    {[ Some "I1" := Entry "Mary /Roe/" "F" false true ]} 1 (Some "I1")
  = Ok ({[ Some "I1" := (None, None) ]},
        {[ Some "I1" := Entry "Mary /Roe/" "F" false true ]}).
Proof.
  apply (pruning_is_idempotent three_table three_registry 1 (Some "I1"));
    [lia | apply three_paired | apply three_pruned_1].
Defined.
